(** * The gitleaks scan driver (package [scan]) as a shallow embedding

    The Go source threads three kinds of effect through every function:
    calls into the rule matcher ([CheckRules]), polls of the wall-clock
    deadline ([timeoutReached]) and the manager's commit counter.  They are
    modelled by explicit state passing over a record [World]; a Go function
    returning [error] becomes a computation returning [option error], and a
    panic or a process exit is an alternative of the result type [outcome].

    go-git, go-diff and the operating system are collaborators outside the
    package: they appear as the oracle fields of the record [Repo].  Logging
    and the timings given to [Manager.RecordTime] are left out. *)

From Stdlib Require Import List String Ascii ZArith Bool Lia.
Import ListNotations.
Open Scope string_scope.
Open Scope Z_scope.

(* ------------------------------------------------------------------ *)
(** ** Results of Go calls *)

(** Go [error] values.  [ErrStop] is [storer.ErrStop], [ErrReferenceNotFound]
    is [plumbing.ErrReferenceNotFound], [ErrParentNotFound] is
    [object.ErrParentNotFound]; every other error is identified by its text. *)
Inductive error : Type :=
| ErrStop
| ErrReferenceNotFound
| ErrParentNotFound
| Errorf (msg : string).

(** A Go pair [(value, err)] with [err != nil] exclusive of the value. *)
Inductive result (A : Type) : Type :=
| Ok (a : A)
| Err (e : error).
Arguments Ok {A} a.
Arguments Err {A} e.

(** Run-time panics the driver can meet. *)
Inductive panic : Type :=
| IndexOutOfRange (index len : nat)   (* runtime error: index out of range *)
| NilDereference                      (* method call through a nil pointer *)
| DiffPanic                           (* the go-diff fault of issue 89 *)
| MatcherPanic.                       (* raised inside CheckRules *)

(** How a call ends: it returns, it is unwinding a panic, the process left
    through [os.Exit] ([log.Fatal]), or a panic reached the top of a
    goroutine's stack and the runtime brought the process down. *)
Inductive outcome (A : Type) : Type :=
| Returned (a : A)
| Panicked (p : panic)
| Exited (code : Z)
| Crashed (p : panic).
Arguments Returned {A} a.
Arguments Panicked {A} p.
Arguments Exited {A} code.
Arguments Crashed {A} p.

(* ------------------------------------------------------------------ *)
(** ** Strings *)

Definition LF : ascii := ascii_of_nat 10.
Definition TAB : ascii := ascii_of_nat 9.
Definition COMMA : ascii := ascii_of_nat 44.

(** [strings.Split(s, sep)] for a one-byte separator: every substring
    between separators, so the result has one more element than there are
    separators in [s] (and [Split "" sep] is the one-element [[""]]). *)
Fixpoint Split (s : string) (sep : ascii) : list string :=
  match s with
  | EmptyString => [EmptyString]
  | String ch rest =>
      if Ascii.eqb ch sep then EmptyString :: Split rest sep
      else match Split rest sep with
           | [] => [String ch EmptyString]
           | w :: ws => String ch w :: ws
           end
  end.

(** [strings.Contains(s, string(ch))]. *)
Fixpoint Contains (s : string) (ch : ascii) : bool :=
  match s with
  | EmptyString => false
  | String c rest => Ascii.eqb c ch || Contains rest ch
  end.

(** [len(s) != 0]. *)
Definition nonempty (s : string) : bool :=
  match s with EmptyString => false | String _ _ => true end.

(* ------------------------------------------------------------------ *)
(** ** plumbing.Hash *)

(** A [plumbing.Hash] is a [[20]byte]. *)
Definition Hash : Type := list ascii.

Definition Hash_eqb (a b : Hash) : bool :=
  String.eqb (string_of_list_ascii a) (string_of_list_ascii b).

(** [plumbing.Hash{}] and [plumbing.ZeroHash]. *)
Definition ZeroHash : Hash := repeat zero 20.

Definition hexdigit (n : N) : ascii :=
  if (n <? 10)%N then ascii_of_N (48 + n) else ascii_of_N (87 + n).

(** [hex.EncodeToString]. *)
Fixpoint hex_encode (bs : list ascii) : string :=
  match bs with
  | [] => EmptyString
  | b :: rest =>
      let n := N_of_ascii b in
      String (hexdigit (n / 16)) (String (hexdigit (n mod 16)) (hex_encode rest))
  end.

(** [h.String()]. *)
Definition Hash_String (h : Hash) : string := hex_encode h.

(** The value of one hexadecimal digit, either case. *)
Definition fromHexChar (c : ascii) : option N :=
  let n := N_of_ascii c in
  if ((48 <=? n) && (n <=? 57))%N then Some (n - 48)%N
  else if ((97 <=? n) && (n <=? 102))%N then Some (n - 87)%N
  else if ((65 <=? n) && (n <=? 70))%N then Some (n - 55)%N
  else None.

(** The bytes [hex.DecodeString] hands back: it decodes pair by pair and
    stops at the first bad digit or at a dangling last digit, returning what
    it decoded so far next to the error. *)
Fixpoint hex_decode (s : string) : list ascii :=
  match s with
  | String p (String q rest) =>
      match fromHexChar p, fromHexChar q with
      | Some a, Some b => ascii_of_N (a * 16 + b) :: hex_decode rest
      | _, _ => []
      end
  | _ => []
  end.

(** [plumbing.NewHash(s)]: [b, _ := hex.DecodeString(s); copy(h[:], b)]. *)
Definition NewHash (s : string) : Hash :=
  let b := firstn 20 (hex_decode s) in
  (b ++ repeat zero (20 - List.length b))%list.

(* ------------------------------------------------------------------ *)
(** ** Commits, files, patches and bundles *)

Inductive Location : Type := UTC | Local.

(** A [time.Time]: seconds and nanoseconds since the Unix epoch, and the
    location it is presented in. *)
Record Time : Type := mkTime {
  Time_sec : Z;
  Time_nsec : Z;
  Time_loc : Location
}.

(** [time.Unix(sec, nsec)] for [0 <= nsec < 1e9], in the local location. *)
Definition time_Unix (sec nsec : Z) : Time := mkTime sec nsec Local.

(** [t.UTC()]. *)
Definition Time_UTC (t : Time) : Time := mkTime (Time_sec t) (Time_nsec t) UTC.

(** [object.Signature]. *)
Record Signature : Type := mkSignature {
  Signature_Name : string;
  Signature_Email : string;
  Signature_When : Time
}.

(** The zero [time.Time] and the zero [object.Signature]. *)
Definition zeroTime : Time := mkTime (-62135596800) 0 UTC.
Definition zeroSignature : Signature := mkSignature "" "" zeroTime.

(** [object.Commit], with the fields the driver reads or writes. *)
Record Commit : Type := mkCommit {
  Commit_Hash : Hash;
  Commit_Author : Signature;
  Commit_Committer : Signature;
  Commit_Message : string;
  Commit_TreeHash : Hash;
  Commit_ParentHashes : list Hash
}.

(** [fdiff.Operation]: [Equal] is the zero value. *)
Inductive Operation : Type := Equal | Add | Delete.

Definition Operation_eqb (a b : Operation) : bool :=
  match a, b with
  | Equal, Equal | Add, Add | Delete, Delete => true
  | _, _ => false
  end.

(** The scan types, [iota + 1] onwards. *)
Definition patchScan : Z := 1.
Definition uncommittedScan : Z := 2.
Definition commitScan : Z := 3.

(** [Bundle].  The private fields [reader] and [lineLookup] belong to the
    matcher and are left out; [Commit] is a pointer in Go, and the value
    recorded here is the commit it points to when the bundle is handed
    over. *)
Record Bundle : Type := mkBundle {
  Bundle_Commit : Commit;
  Bundle_Patch : string;
  Bundle_Content : string;
  Bundle_FilePath : string;
  Bundle_Operation : Operation;
  Bundle_scanType : Z
}.

(** [object.File] as met while iterating the files of a commit. *)
Record File : Type := mkFile {
  File_Name : string;
  File_IsBinary : bool * option error;
  File_Contents : result string
}.

(** [fdiff.Chunk], [fdiff.FilePatch] and [object.Patch]. *)
Record Chunk : Type := mkChunk {
  Chunk_Content : string;
  Chunk_Type : Operation
}.

Record FilePatch : Type := mkFilePatch {
  FilePatch_IsBinary : bool;
  FilePatch_from : option string;   (* [from.Path()], [None] for nil *)
  FilePatch_to : option string;
  FilePatch_Chunks : list Chunk
}.

Record Patch : Type := mkPatch {
  Patch_String : string;
  Patch_FilePatches : list FilePatch
}.

(** [diffmatchpatch.Diff]. *)
Inductive DiffType : Type := DiffDelete | DiffInsert | DiffEqual.

Record Diff : Type := mkDiff {
  Diff_Type : DiffType;
  Diff_Text : string
}.

(* ------------------------------------------------------------------ *)
(** ** The collaborators: options, configuration, git and the worktree *)

(** [options.Options], the fields the driver consults. *)
Record Options : Type := mkOptions {
  Opts_Commit : string;
  Opts_FilesAtCommit : string;
  Opts_Commits : string;
  Opts_CommitsFile : string;
  Opts_CommitTo : string;
  Opts_Depth : Z;
  Opts_Threads : Z;
  Opts_Deletion : bool;
  Opts_RepoConfig : bool
}.

(** [config.Config]: only [Allowlist.Commits] is read by the driver. *)
Record Config : Type := mkConfig {
  Allowlist_Commits : list string
}.

(** A file of the tree of HEAD: [*object.File] with its [Name] and the
    result of [Contents()]. *)
Record TreeFile : Type := mkTreeFile {
  TreeFile_Name : string;
  TreeFile_Contents : result string
}.

(** [*object.Tree]: the result of [File(path)]. *)
Record Tree : Type := mkTree {
  Tree_File : string -> result TreeFile
}.

(** An opened worktree file: [Name()] and the result of [io.Copy] from it
    (the bytes read, or the copy's error). *)
Record WorktreeFile : Type := mkWorktreeFile {
  WorktreeFile_Name : string;
  WorktreeFile_Copy : result string
}.

(** [*git.Worktree]: [Status()] (the keys of the status map, in the order
    the [range] loop happens to visit them), [Filesystem.Open] and the
    combined output and error of
    [git diff --cached --name-status --diff-filter=ACM]. *)
Record Worktree : Type := mkWorktree {
  Worktree_Status : result (list string);
  Filesystem_Open : string -> result WorktreeFile;
  git_diff_cached : string * option error
}.

(** [Repo] with the answers of everything the driver calls outside this
    file.  An iterator is the list of what its [Next()] returns before
    [io.EOF]; [Log] is the commit iterator of [repo.Log(logOpts)], whose
    items may be nil pointers as far as the driver is concerned. *)
Record Repo : Type := mkRepo {
  Repo_Name : string;
  Repository_isNil : bool;
  Manager_Opts : Options;
  setupTimeout : option error;
  loadRepoConfig : result Config;
  timeoutAt : nat -> bool;          (* answer of the n-th deadline poll *)
  matcherPanics : Bundle -> bool;   (* does CheckRules panic on it *)
  Head : result Hash;
  CommitObject : Hash -> result Commit;
  Commit_Files : Commit -> result (list (result File));
  Commit_Patch : Commit -> Commit -> outcome (option Patch * option error);
  Commit_Tree : Commit -> result Tree;
  getLogOptions : option error;
  Log : result (list (result (option Commit)));
  CommitsFile_Open : result (list string);
  Repo_Worktree : result Worktree;
  DiffMain : string -> string -> bool -> list Diff;
  DiffCleanupSemantic : list Diff -> list Diff
}.

(* ------------------------------------------------------------------ *)
(** ** The state the driver acts on *)

(** [dispatched] lists the bundles [CheckRules] was called with, oldest
    first; [commits] is the manager's commit counter; [polls] counts the
    calls of [timeoutReached]; [config] is [repo.config]; [slots] is
    [len(semaphore)] and [waiting] the counter of [wg].  [launched] is a
    history variable: the commits a worker goroutine was started for, oldest
    first. *)
Record World : Type := mkWorld {
  dispatched : list Bundle;
  commits : Z;
  polls : nat;
  config : Config;
  launched : list Commit;
  slots : nat;
  waiting : nat
}.

Definition M (A : Type) : Type := World -> outcome A * World.

Definition ret {A : Type} (a : A) : M A := fun w => (Returned a, w).

Definition bind {A B : Type} (m : M A) (k : A -> M B) : M B :=
  fun w =>
    match m w with
    | (Returned a, w') => k a w'
    | (Panicked p, w') => (Panicked p, w')
    | (Exited code, w') => (Exited code, w')
    | (Crashed p, w') => (Crashed p, w')
    end.

Declare Scope go_scope.
Delimit Scope go_scope with go.
Notation "x <- m ;; k" := (bind m (fun x => k))
  (at level 61, m at next level, right associativity) : go_scope.
Notation "m ;;; k" := (bind m (fun _ => k))
  (at level 61, right associativity) : go_scope.
Open Scope go_scope.

(** [panic(p)]. *)
Definition raise {A : Type} (p : panic) : M A := fun w => (Panicked p, w).

(** [defer func() { if err := recover(); err != nil { return } }()] around
    the rest [m] of a function with an unnamed result: a panic of [m] is
    stopped and the function returns the zero value of its result type. *)
Definition recovering {A : Type} (zero : A) (m : M A) : M A :=
  fun w =>
    match m w with
    | (Panicked _, w') => (Returned zero, w')
    | r => r
    end.

(** [defer d()] around [m] where [d] does not call [recover]: [d] runs
    whether [m] returned or panicked, and a panic keeps unwinding. *)
Definition deferring {A : Type} (d : World -> World) (m : M A) : M A :=
  fun w =>
    match m w with
    | (Returned a, w') => (Returned a, d w')
    | (Panicked p, w') => (Panicked p, d w')
    | r => r
    end.

(** [go f()], with the goroutine run to its end on the spot (one of the
    schedules Go allows).  A panic leaving [f] has reached the top of the
    goroutine's stack; no [recover] of another goroutine can stop it. *)
Definition go_ (f : M unit) : M unit :=
  fun w =>
    match f w with
    | (Panicked p, w') => (Crashed p, w')
    | r => r
    end.

Definition set_dispatched (w : World) (l : list Bundle) : World :=
  mkWorld l (commits w) (polls w) (config w) (launched w) (slots w) (waiting w).
Definition set_commits (w : World) (n : Z) : World :=
  mkWorld (dispatched w) n (polls w) (config w) (launched w) (slots w) (waiting w).
Definition set_polls (w : World) (n : nat) : World :=
  mkWorld (dispatched w) (commits w) n (config w) (launched w) (slots w) (waiting w).
Definition set_config (w : World) (c : Config) : World :=
  mkWorld (dispatched w) (commits w) (polls w) c (launched w) (slots w) (waiting w).
Definition set_launched (w : World) (l : list Commit) : World :=
  mkWorld (dispatched w) (commits w) (polls w) (config w) l (slots w) (waiting w).
Definition set_slots (w : World) (n : nat) : World :=
  mkWorld (dispatched w) (commits w) (polls w) (config w) (launched w) n (waiting w).
Definition set_waiting (w : World) (n : nat) : World :=
  mkWorld (dispatched w) (commits w) (polls w) (config w) (launched w) (slots w) n.

(** [semaphore <- true], [<-semaphore], [wg.Add(1)] and [wg.Done()], as
    counters.  The driver runs [<-semaphore] and [wg.Done()] in the deferred
    function of a worker only, that is after the [wg.Add(1)] and the
    [semaphore <- true] done for that worker: with [slots] and [waiting]
    positive.  On an empty channel Go would block and on a zero counter it
    would panic; the counters stay at zero there, and no property below
    relies on that state. *)
Definition semaphore_send (w : World) : World := set_slots w (S (slots w)).
Definition semaphore_receive (w : World) : World := set_slots w (pred (slots w)).
Definition wg_Add (w : World) : World := set_waiting w (S (waiting w)).
Definition wg_Done (w : World) : World := set_waiting w (pred (waiting w)).

(** Modelled from the spec: [isCommitAllowListed], a helper of the package
    that is not in this file; the spec's "[c.hash] is in the allowlist". *)
Definition isCommitAllowListed (commitHash : string) (allowlistedCommits : list string) : bool :=
  existsb (String.eqb commitHash) allowlistedCommits.

(** [emptyCommit] generates an empty commit used for scanning uncommitted
    changes. *)
Definition emptyCommit : Commit :=
  mkCommit ZeroHash
           (mkSignature "" "" (Time_UTC (time_Unix 0 0)))
           zeroSignature
           "***STAGED CHANGES***"
           ZeroHash
           [].

(** The assignments of [scanUncommitted] to the commit of HEAD: hash,
    message and the three author fields; the rest of [c] stays. *)
Definition stageCommit (c : Commit) : Commit :=
  mkCommit ZeroHash
           (mkSignature "" "" (Time_UTC (time_Unix 0 0)))
           (Commit_Committer c)
           "***STAGED CHANGES***"
           (Commit_TreeHash c)
           (Commit_ParentHashes c).

(** The loop of [getStagedChanges] over the lines of the porcelain output;
    [fileStatusAndName[1]] panics when the slice has one element. *)
Fixpoint stagedFilesLoop (stagedFilesAndStatus : list string) (stagedFiles : list string)
  : outcome (list string) :=
  match stagedFilesAndStatus with
  | [] => Returned stagedFiles
  | fileString :: rest =>
      if nonempty fileString then
        let fileStatusAndName := Split fileString TAB in
        if (0 <? List.length fileStatusAndName)%nat then
          match nth_error fileStatusAndName 1 with
          | Some file => stagedFilesLoop rest (stagedFiles ++ [file])%list
          | None => Panicked (IndexOutOfRange 1 (List.length fileStatusAndName))
          end
        else stagedFilesLoop rest stagedFiles
      else stagedFilesLoop rest stagedFiles
  end.

(** [getStagedChanges]: [log.Fatal] leaves the process when the command
    failed; otherwise the names are parsed from the output split at line
    feeds.  (The [fmt.Printf] of the lines is not modelled.) *)
Definition getStagedChanges (wt : Worktree) : M (list string * option error) :=
  fun w =>
    let (output, err) := git_diff_cached wt in
    match err with
    | Some _ => (Exited 1, w)
    | None =>
        match stagedFilesLoop (Split output LF) [] with
        | Returned stagedFiles => (Returned (stagedFiles, err), w)
        | Panicked p => (Panicked p, w)
        | Exited code => (Exited code, w)
        | Crashed p => (Crashed p, w)
        end
    end.

(* ------------------------------------------------------------------ *)
(** ** The driver *)

Section Driver.

Variable repo : Repo.

(** [repo.timeoutReached()]: one more poll of the deadline. *)
Definition timeoutReached : M bool :=
  fun w => (Returned (timeoutAt repo (polls w)), set_polls w (S (polls w))).

(** [repo.CheckRules(&bundle)]: the bundle reaches the matcher, which may
    panic on it. *)
Definition CheckRules (bundle : Bundle) : M unit :=
  fun w =>
    let w' := set_dispatched w (dispatched w ++ [bundle]) in
    if matcherPanics repo bundle then (Panicked MatcherPanic, w')
    else (Returned tt, w').

(** [repo.Manager.IncrementCommits(n)]. *)
Definition IncrementCommits (n : Z) : M unit :=
  fun w => (Returned tt, set_commits w (commits w + n)).

(** [depthReached] checks if [i] meets the depth (--depth=) if set. *)
Definition depthReached (i : Z) : bool :=
  negb (Opts_Depth (Manager_Opts repo) =? 0) && (Opts_Depth (Manager_Opts repo) =? i).

(** [ForEach] of the go-git iterators: an error of [Next()] or of the
    callback ends the iteration and is returned, except [storer.ErrStop],
    which ends it with nil. *)
Fixpoint ForEach {A : Type} (iter : list (result A)) (cb : A -> M (option error))
  : M (option error) :=
  match iter with
  | [] => ret None
  | Err e :: _ => ret (Some e)
  | Ok a :: rest =>
      err <- cb a ;;
      match err with
      | None => ForEach rest cb
      | Some ErrStop => ret None
      | Some e => ret (Some e)
      end
  end.

(** The same [ForEach] for a closure that updates a captured variable of
    type [V] (the [cc] of [Scan]): the callback takes its value and returns
    the new one next to its error. *)
Fixpoint ForEachCapturing {A V : Type} (iter : list (result A))
    (cb : A -> V -> M (V * option error)) (v : V) : M (V * option error) :=
  match iter with
  | [] => ret (v, None)
  | Err e :: _ => ret (v, Some e)
  | Ok a :: rest =>
      r <- cb a v ;;
      match snd r with
      | None => ForEachCapturing rest cb (fst r)
      | Some ErrStop => ret (fst r, None)
      | Some e => ret (fst r, Some e)
      end
  end.

(** The inner loop of [scanPatch] over the chunks of one file patch; the
    one [bundle] of [scanPatch] is updated in place and handed over. *)
Fixpoint scanChunks (f : FilePatch) (chunks : list Chunk) (bundle : Bundle) : M Bundle :=
  match chunks with
  | [] => ret bundle
  | chunk :: rest =>
      if Operation_eqb (Chunk_Type chunk) Add
         || (Opts_Deletion (Manager_Opts repo) && Operation_eqb (Chunk_Type chunk) Delete)
      then
        let FilePath :=
          match FilePatch_from f, FilePatch_to f with
          | Some from, _ => from
          | None, Some to => to
          | None, None => "???"
          end in
        let bundle :=
          mkBundle (Bundle_Commit bundle) (Bundle_Patch bundle)
                   (Chunk_Content chunk) FilePath (Chunk_Type chunk)
                   (Bundle_scanType bundle) in
        CheckRules bundle ;;;
        scanChunks f rest bundle
      else scanChunks f rest bundle
  end.

(** The outer loop of [scanPatch] over [patch.FilePatches()]. *)
Fixpoint scanFilePatches (fps : list FilePatch) (bundle : Bundle) : M unit :=
  match fps with
  | [] => ret tt
  | f :: rest =>
      timeout <- timeoutReached ;;
      if timeout then ret tt
      else if FilePatch_IsBinary f then scanFilePatches rest bundle
      else
        bundle' <- scanChunks f (FilePatch_Chunks f) bundle ;;
        scanFilePatches rest bundle'
  end.

(** [scanPatch]; [patch.String()] on a nil [*object.Patch] dereferences
    it. *)
Definition scanPatch (patch : option Patch) (c : Commit) : M unit :=
  match patch with
  | None => raise NilDereference
  | Some p =>
      scanFilePatches (Patch_FilePatches p)
                      (mkBundle c (Patch_String p) "" "" Equal patchScan)
  end.

(** The callback of [scanFilesAtCommit]. *)
Definition scanFile (c : Commit) (f : File) : M (option error) :=
  let (bin, err) := File_IsBinary f in
  skip <- (if bin then ret true else timeoutReached) ;;
  if skip then ret None
  else
    match err with
    | Some e => ret (Some e)
    | None =>
        match File_Contents f with
        | Err e => ret (Some e)
        | Ok content =>
            CheckRules (mkBundle c "" content (File_Name f) Add commitScan) ;;;
            ret None
        end
    end.

(** [scanFilesAtCommit]. *)
Definition scanFilesAtCommit (c : Commit) : M (option error) :=
  match Commit_Files repo c with
  | Err e => ret (Some e)
  | Ok fIter => ForEach fIter (scanFile c)
  end.

(** [c.Parents()]: the commits of [c.ParentHashes], looked up in turn. *)
Definition Commit_Parents (c : Commit) : list (result Commit) :=
  map (CommitObject repo) (Commit_ParentHashes c).

(** [c.Parent(i)]. *)
Definition Commit_Parent (c : Commit) (i : nat) : result (option Commit) :=
  match nth_error (Commit_ParentHashes c) i with
  | None => Err ErrParentNotFound
  | Some h =>
      match CommitObject repo h with
      | Ok p => Ok (Some p)
      | Err e => Err e
      end
  end.

(** [parent.Patch(c)]. *)
Definition Patch_of (parent c : Commit) : M (option Patch * option error) :=
  fun w => (Commit_Patch repo parent c, w).

(** The callback of [scanCommitPatches], under its deferred [recover]. *)
Definition scanParent (c : Commit) (parent : option Commit) : M (option error) :=
  recovering None
    (timeout <- timeoutReached ;;
     if timeout then ret None
     else
       match parent with
       | None => ret None
       | Some parent =>
           r <- Patch_of parent c ;;
           match snd r with
           | Some _ => ret (Some (Errorf "could not generate Patch"))
           | None => scanPatch (fst r) c ;;; ret None
           end
       end).

(** [scanCommitPatches]. *)
Definition scanCommitPatches (c : Commit) : M (option error) :=
  let parents := ForEach (Commit_Parents c) (fun parent => scanParent c (Some parent)) in
  if (List.length (Commit_ParentHashes c) =? 0)%nat then
    err <- scanFilesAtCommit c ;;
    match err with
    | Some e => ret (Some e)
    | None => parents
    end
  else parents.

(** [scanCommit]. *)
Definition scanCommit (commit : string) (f : Commit -> M (option error)) : M (option error) :=
  let resolved (commit : string) : M (option error) :=
    IncrementCommits 1 ;;;
    match CommitObject repo (NewHash commit) with
    | Err e => ret (Some e)
    | Ok c => f c
    end in
  if String.eqb commit "latest" then
    match Head repo with
    | Err e => ret (Some e)
    | Ok ref => resolved (Hash_String ref)
    end
  else resolved commit.

(** The loops of [Scan] over [Opts.Commits] and over the lines of
    [Opts.CommitsFile]. *)
Fixpoint scanCommits (commits : list string) : M (option error) :=
  match commits with
  | [] => ret None
  | c :: rest =>
      err <- scanCommit c scanCommitPatches ;;
      match err with
      | Some e => ret (Some e)
      | None => scanCommits rest
      end
  end.

(** The goroutine of the history walk: its deferred function gives the
    slot back and signals the wait group; it does not call [recover]. *)
Definition worker (c : Commit) (patch : option Patch) : M unit :=
  deferring (fun w => wg_Done (semaphore_receive w)) (scanPatch patch c).

(** The part of the walk's callback that runs under its deferred
    [recover], from line 161 on. *)
Definition walkPatch (c : Commit) (parent : option Commit) : M (option error) :=
  recovering None
    (timeout <- timeoutReached ;;
     if timeout then ret None
     else
       match parent with
       | None => ret None
       | Some parent =>
           r <- Patch_of parent c ;;
           (fun w => (Returned tt, semaphore_send (wg_Add w))) ;;;
           (fun w => (Returned tt, set_launched w (launched w ++ [c]))) ;;;
           go_ (worker c (fst r)) ;;;
           if String.eqb (Hash_String (Commit_Hash c)) (Opts_CommitTo (Manager_Opts repo))
           then ret (Some ErrStop)
           else ret None
       end).

(** What the callback of the walk does with a commit once the budget
    checks let it through: allowlist, root commits, first parent. *)
Definition walkEnter (c : Commit) (cc : Z) : M (Z * option error) :=
  fun w =>
    if isCommitAllowListed (Hash_String (Commit_Hash c)) (Allowlist_Commits (config w))
    then (Returned (cc, None), w)
    else if (List.length (Commit_ParentHashes c) =? 0)%nat then
      (err <- scanFilesAtCommit c ;; ret (cc + 1, err)) w
    else
      match Commit_Parent c 0 with
      | Err e => (Returned (cc + 1, Some e), w)
      | Ok parent => (err <- walkPatch c parent ;; ret (cc + 1, err)) w
      end.

(** The callback [cIter.ForEach] is given in [Scan]; [cc] is the captured
    commit counter. *)
Definition walkCommit (c : option Commit) (cc : Z) : M (Z * option error) :=
  match c with
  | None => ret (cc, Some ErrStop)
  | Some c =>
      timeout <- timeoutReached ;;
      if timeout || depthReached cc then ret (cc, Some ErrStop)
      else walkEnter c cc
  end.

(** The history walk of [Scan], from [cc := 0] to its [return nil]: the
    error of [ForEach] is stored in [err] and not looked at again. *)
Definition scanHistory (cIter : list (result (option Commit))) : M (option error) :=
  r <- ForEachCapturing cIter walkCommit 0 ;;
  (* wg.Wait() returns at once: every worker has run to its end *)
  IncrementCommits (fst r) ;;;
  ret None.

(** [Scan]. *)
Definition Scan : M (option error) :=
  match setupTimeout repo with
  | Some e => ret (Some e)
  | None =>
  if Repository_isNil repo then
    ret (Some (Errorf (Repo_Name repo ++ " repo is empty")))
  else
  let configured (k : M (option error)) : M (option error) :=
    if Opts_RepoConfig (Manager_Opts repo) then
      match loadRepoConfig repo with
      | Err e => ret (Some e)
      | Ok cfg => (fun w => (Returned tt, set_config w cfg)) ;;; k
      end
    else k in
  configured
    (if nonempty (Opts_Commit (Manager_Opts repo)) then
       scanCommit (Opts_Commit (Manager_Opts repo)) scanCommitPatches
     else if nonempty (Opts_FilesAtCommit (Manager_Opts repo)) then
       scanCommit (Opts_FilesAtCommit (Manager_Opts repo)) scanFilesAtCommit
     else if nonempty (Opts_Commits (Manager_Opts repo)) then
       scanCommits (Split (Opts_Commits (Manager_Opts repo)) COMMA)
     else if nonempty (Opts_CommitsFile (Manager_Opts repo)) then
       match CommitsFile_Open repo with
       | Err e => ret (Some e)
       | Ok lines => scanCommits lines
       end
     else
       match getLogOptions repo with
       | Some e => ret (Some e)
       | None =>
           match Log repo with
           | Err e => ret (Some e)
           | Ok cIter => scanHistory cIter
           end
       end)
  end.

(** The loop of [scanEmpty] over the names of the worktree status. *)
Fixpoint scanEmptyLoop (wt : Worktree) (status : list string) : M (option error) :=
  match status with
  | [] => ret None
  | fn :: rest =>
      match Filesystem_Open wt fn with
      | Err _ => scanEmptyLoop wt rest
      | Ok workTreeFile =>
          match WorktreeFile_Copy workTreeFile with
          | Err e => ret (Some e)
          | Ok content =>
              CheckRules (mkBundle emptyCommit "" content
                                   (WorktreeFile_Name workTreeFile)
                                   Equal uncommittedScan) ;;;
              scanEmptyLoop wt rest
          end
      end
  end.

(** [scanEmpty] scans an empty repo without any commits. *)
Definition scanEmpty : M (option error) :=
  match Repo_Worktree repo with
  | Err e => ret (Some e)
  | Ok wt =>
      match Worktree_Status wt with
      | Err e => ret (Some e)
      | Ok status => scanEmptyLoop wt status
      end
  end.

(** [fmt.Sprintf("%s\n", text)]. *)
Definition Sprintf_line (text : string) : string := text ++ String LF EmptyString.

(** The loop of [scanUncommitted] building [diffContents]. *)
Definition diffContents (diffs : list Diff) : string :=
  fold_left
    (fun (diffContents : string) (d : Diff) =>
       match Diff_Type d with
       | DiffInsert => diffContents ++ Sprintf_line (Diff_Text d)
       | _ => diffContents
       end)
    diffs "".

(** The loop of [scanUncommitted] over the staged files; [c] is the commit
    of HEAD after the assignments that make it the staged commit. *)
Fixpoint stagedLoop (c : Commit) (prevTree : Tree) (wt : Worktree) (status : list string)
  : M (option error) :=
  match status with
  | [] => ret None
  | fn :: rest =>
      match Filesystem_Open wt fn with
      | Err _ => stagedLoop c prevTree wt rest
      | Ok workTreeFile =>
          match WorktreeFile_Copy workTreeFile with
          | Err e => ret (Some e)
          | Ok currFileContents =>
              let filename := WorktreeFile_Name workTreeFile in
              let scan (prevFileContents filename : string) : M (option error) :=
                let diffs :=
                  DiffCleanupSemantic repo
                    (DiffMain repo prevFileContents currFileContents false) in
                CheckRules (mkBundle c "" (diffContents diffs) filename
                                     Equal uncommittedScan) ;;;
                stagedLoop c prevTree wt rest in
              match Tree_File prevTree fn with
              | Err _ => scan "" filename
              | Ok prevFile =>
                  match TreeFile_Contents prevFile with
                  | Err e => ret (Some e)
                  | Ok prevFileContents =>
                      scan prevFileContents
                           (if nonempty filename then filename
                            else TreeFile_Name prevFile)
                  end
              end
          end
      end
  end.

(** [scanUncommitted]. *)
Definition scanUncommitted : M (option error) :=
  let configured (k : M (option error)) : M (option error) :=
    if Opts_RepoConfig (Manager_Opts repo) then
      match loadRepoConfig repo with
      | Err e => ret (Some e)
      | Ok cfg => (fun w => (Returned tt, set_config w cfg)) ;;; k
      end
    else k in
  configured
    match setupTimeout repo with
    | Some e => ret (Some e)
    | None =>
    match Head repo with
    | Err ErrReferenceNotFound => scanEmpty
    | Err e => ret (Some e)
    | Ok r =>
    match CommitObject repo r with
    | Err e => ret (Some e)
    | Ok c =>
    let c := stageCommit c in
    match Commit_Tree repo c with
    | Err e => ret (Some e)
    | Ok prevTree =>
    match Repo_Worktree repo with
    | Err e => ret (Some e)
    | Ok wt =>
        r <- getStagedChanges wt ;;
        err <- stagedLoop c prevTree wt (fst r) ;;
        match err with
        | Some e => ret (Some e)
        | None => ret (snd r)
        end
    end end end end end.

End Driver.

(* ------------------------------------------------------------------ *)
(** ** The specification's wording, for comparison with the code *)

Definition isInsert (d : Diff) : bool :=
  match Diff_Type d with DiffInsert => true | _ => false end.

(** "Concatenate the text of every insertion segment, each followed by a
    newline". *)
Definition insertionText (diffs : list Diff) : string :=
  fold_right String.append ""
    (map (fun d => Diff_Text d ++ String LF EmptyString) (filter isInsert diffs)).

(** The commit of a staged bundle as the spec has it: zero hash, the staged
    message, empty author, time at the Unix epoch in UTC. *)
Definition isSentinel (c : Commit) : Prop :=
  Commit_Hash c = ZeroHash /\
  Commit_Message c = "***STAGED CHANGES***" /\
  Signature_Name (Commit_Author c) = "" /\
  Signature_Email (Commit_Author c) = "" /\
  Signature_When (Commit_Author c) = mkTime 0 0 UTC.

(** The bundles a run added to the ones already handed over. *)
Definition added (w w' : World) (new : list Bundle) : Prop :=
  dispatched w' = (dispatched w ++ new)%list.

(** A line of the porcelain output the parser cannot take: it is not empty
    and holds no tab. *)
Definition tabless (line : string) : bool :=
  nonempty line && negb (Contains line TAB).

(** "Read previous contents from [prevTree]; if absent, use the empty
    string". *)
Definition headContents (prevTree : Tree) (fn : string) : string :=
  match Tree_File prevTree fn with
  | Ok prevFile =>
      match TreeFile_Contents prevFile with
      | Ok contents => contents
      | Err _ => ""
      end
  | Err _ => ""
  end.

(** The staged file names the porcelain output of [wt] yields. *)
Definition stagedNames (wt : Worktree) : list string :=
  match stagedFilesLoop (Split (fst (git_diff_cached wt)) LF) [] with
  | Returned names => names
  | _ => []
  end.

(** The bundle [b] holds the insertions of a staged file: one of the names
    [status] whose worktree file opened and was read, diffed against its
    contents at HEAD. *)
Definition holdsInsertions (repo : Repo) (prevTree : Tree) (wt : Worktree)
    (status : list string) (b : Bundle) : Prop :=
  exists fn workTreeFile currFileContents,
    In fn status /\
    Filesystem_Open wt fn = Ok workTreeFile /\
    WorktreeFile_Copy workTreeFile = Ok currFileContents /\
    Bundle_Content b =
      insertionText
        (DiffCleanupSemantic repo
           (DiffMain repo (headContents prevTree fn) currFileContents false)).

(** The commit of [b] is not on the allowlist of [cfg]. *)
Definition offAllowlist (cfg : Config) (b : Bundle) : Prop :=
  isCommitAllowListed (Hash_String (Commit_Hash (Bundle_Commit b)))
                      (Allowlist_Commits cfg) = false.

(** None of the options that select a commit is set: [Scan] walks the
    history. *)
Definition historyMode (opts : Options) : bool :=
  negb (nonempty (Opts_Commit opts)) && negb (nonempty (Opts_FilesAtCommit opts))
  && negb (nonempty (Opts_Commits opts)) && negb (nonempty (Opts_CommitsFile opts)).

(** [emits cfg P Q m]: run where [repo.config] is [cfg], [m] leaves it so,
    the bundles it hands to the matcher all satisfy [P], and a value it
    returns satisfies [Q]. *)
Definition emits {A : Type} (cfg : Config) (P : Bundle -> Prop) (Q : A -> Prop)
    (m : M A) : Prop :=
  forall w r w',
    config w = cfg ->
    m w = (r, w') ->
    config w' = cfg /\
    (exists new, added w w' new /\ Forall P new) /\
    (forall a, r = Returned a -> Q a).

Definition any {A : Type} : A -> Prop := fun _ => True.

(** The walk goes through all of [pre] without being ended: every item is
    a commit for which the callback returns nil.  The result is the counter
    and the state in which the walk goes on after [pre]. *)
Fixpoint walkThrough (repo : Repo) (pre : list (result (option Commit))) (cc : Z)
    (w : World) : option (Z * World) :=
  match pre with
  | [] => Some (cc, w)
  | Ok c :: rest =>
      match walkCommit repo c cc w with
      | (Returned (cc', None), w') => walkThrough repo rest cc' w'
      | _ => None
      end
  | Err _ :: _ => None
  end.

(** The commits of a log that are not on the allowlist of [cfg]. *)
Definition entering (cfg : Config) (item : result (option Commit)) : bool :=
  match item with
  | Ok (Some c) =>
      negb (isCommitAllowListed (Hash_String (Commit_Hash c)) (Allowlist_Commits cfg))
  | _ => false
  end.

Definition countEntering (cfg : Config) (cIter : list (result (option Commit))) : Z :=
  Z.of_nat (List.length (filter (entering cfg) cIter)).

(** [keeps proj m]: [m] leaves the component [proj] of the state as it
    is. *)
Definition keeps {A X : Type} (proj : World -> X) (m : M A) : Prop :=
  forall w r w', m w = (r, w') -> proj w' = proj w.

(** The state in which the scan proper starts: with [Opts.RepoConfig] the
    loaded configuration has replaced [repo.config]; [None] when loading
    failed. *)
Definition afterConfig (repo : Repo) (w : World) : option World :=
  if Opts_RepoConfig (Manager_Opts repo) then
    match loadRepoConfig repo with
    | Ok cfg => Some (set_config w cfg)
    | Err _ => None
    end
  else Some w.

(* ------------------------------------------------------------------ *)
(** ** Sample repositories *)

Definition nl : string := String LF EmptyString.
Definition tab : string := String TAB EmptyString.

Definition hashOf (byte : nat) : Hash := repeat (ascii_of_nat byte) 20.

(** The hashes aaaa..., bbbb..., cccc... and dddd.... *)
Definition hashA : Hash := hashOf 170.
Definition hashB : Hash := hashOf 187.
Definition hashC : Hash := hashOf 204.
Definition hashD : Hash := hashOf 221.

Definition alice : Signature :=
  mkSignature "alice" "alice@example.com" (mkTime 1600000000 0 UTC).

(** A line of three commits, [commitA] the root and [commitC] the tip, and
    the root [commitD] of an unrelated branch. *)
Definition commitA : Commit := mkCommit hashA alice alice "add x" (hashOf 1) [].
Definition commitB : Commit := mkCommit hashB alice alice "change x" (hashOf 2) [hashA].
Definition commitC : Commit := mkCommit hashC alice alice "change x again" (hashOf 3) [hashB].
Definition commitD : Commit := mkCommit hashD alice alice "add notes" (hashOf 4) [].

Definition sampleStore (h : Hash) : result Commit :=
  if Hash_eqb h hashA then Ok commitA
  else if Hash_eqb h hashB then Ok commitB
  else if Hash_eqb h hashC then Ok commitC
  else if Hash_eqb h hashD then Ok commitD
  else Err (Errorf "object not found").

Definition sampleFiles (c : Commit) : result (list (result File)) :=
  Ok [Ok (mkFile "x.py" (false, None) (Ok "AKIA"))].

Definition samplePatch : Patch :=
  mkPatch "diff --git a/x.py b/x.py"
          [mkFilePatch false (Some "x.py") (Some "x.py")
                       [mkChunk "SECRET" Add; mkChunk "old" Delete]].

Definition samplePatches (parent c : Commit) : outcome (option Patch * option error) :=
  Returned (Some samplePatch, None).

(** Patch generation that fails with an error and a nil patch. *)
Definition failingPatches (parent c : Commit) : outcome (option Patch * option error) :=
  Returned (None, Some (Errorf "object not found")).

Definition sampleTree : Tree :=
  mkTree (fun fn =>
            if String.eqb fn "foo.txt"
            then Ok (mkTreeFile "foo.txt" (Ok ("a" ++ nl ++ "b" ++ nl)))
            else Err (Errorf "file not found")).

(** A worktree with [foo.txt] staged as modified and [new.txt] as added;
    [gone.txt] cannot be opened and [bad.txt] cannot be read. *)
Definition sampleWorktree (output : string) : Worktree :=
  mkWorktree
    (Ok ["gone.txt"; "new.txt"])
    (fun fn =>
       if String.eqb fn "foo.txt"
       then Ok (mkWorktreeFile "foo.txt" (Ok ("a" ++ nl ++ "SECRET" ++ nl ++ "b" ++ nl)))
       else if String.eqb fn "new.txt"
       then Ok (mkWorktreeFile "new.txt" (Ok ("token" ++ nl)))
       else if String.eqb fn "bad.txt"
       then Ok (mkWorktreeFile "bad.txt" (Err (Errorf "read error")))
       else Err (Errorf "file does not exist"))
    (output, None).

Definition stagedOutput : string :=
  "M" ++ tab ++ "foo.txt" ++ nl ++ "A" ++ tab ++ "new.txt" ++ nl.

(** A diff that is right for any two texts: all of the old text goes, all
    of the new text comes. *)
Definition replaceAll (prev curr : string) (checklines : bool) : list Diff :=
  [mkDiff DiffDelete prev; mkDiff DiffInsert curr].

Definition sampleRepo (opts : Options) (log : list (result (option Commit)))
    (files : Commit -> result (list (result File)))
    (patches : Commit -> Commit -> outcome (option Patch * option error))
    (head : result Hash) (wt : Worktree) : Repo :=
  mkRepo "sample" false opts None (Ok (mkConfig [])) (fun _ => false) (fun _ => false)
         head sampleStore files patches (fun _ => Ok sampleTree)
         None (Ok log) (Ok []) (Ok wt) replaceAll (fun diffs => diffs).

Definition historyOpts (commitTo : string) (depth : Z) : Options :=
  mkOptions "" "" "" "" commitTo depth 0 false false.

Definition commitOpts (commit : string) : Options :=
  mkOptions commit "" "" "" "" 0 0 false false.

(** The log of the line of three commits, tip first. *)
Definition sampleLog : list (result (option Commit)) :=
  [Ok (Some commitC); Ok (Some commitB); Ok (Some commitA)].

Definition historyRepo (commitTo : string) (depth : Z) : Repo :=
  sampleRepo (historyOpts commitTo depth) sampleLog sampleFiles samplePatches
             (Ok hashC) (sampleWorktree stagedOutput).

Definition stagedRepo : Repo :=
  sampleRepo (historyOpts "" 0) sampleLog sampleFiles samplePatches
             (Ok hashC) (sampleWorktree stagedOutput).

(** The sample history with patch generation failing, and with the files
    of a commit unreadable. *)
Definition nilPatchRepo : Repo :=
  sampleRepo (historyOpts "" 0) sampleLog sampleFiles failingPatches
             (Ok hashC) (sampleWorktree stagedOutput).

Definition unreadableRepo : Repo :=
  sampleRepo (historyOpts "" 0) sampleLog
             (fun _ => Err (Errorf "tree not found")) samplePatches
             (Ok hashC) (sampleWorktree stagedOutput).

(** [Opts.Commit] naming the root commit. *)
Definition singleCommitRepo : Repo :=
  sampleRepo (commitOpts (Hash_String hashA)) sampleLog sampleFiles samplePatches
             (Ok hashC) (sampleWorktree stagedOutput).

(** The sample history seen from all branches: the unrelated root
    [commitD] is the newest commit. *)
Definition orphanRepo : Repo :=
  sampleRepo (historyOpts (Hash_String hashD) 0)
             (Ok (Some commitD) :: sampleLog) sampleFiles samplePatches
             (Ok hashC) (sampleWorktree stagedOutput).

(** A tree of HEAD whose [foo.txt] cannot be read. *)
Definition brokenTree : Tree :=
  mkTree (fun fn => Ok (mkTreeFile fn (Err (Errorf "blob not found")))).

(** Combined output of the porcelain command with a warning of git on
    standard error ahead of the name-status lines. *)
Definition warningLine : string :=
  "warning: LF will be replaced by CRLF in foo.txt.".

Definition warningOutput : string := warningLine ++ nl ++ stagedOutput.

(** A log whose only commit names a first parent the object store does not
    hold. *)
Definition commitE : Commit :=
  mkCommit (hashOf 238) alice alice "shallow tip" (hashOf 5) [hashOf 255].

Definition danglingRepo : Repo :=
  sampleRepo (historyOpts "" 0) [Ok (Some commitE)] sampleFiles samplePatches
             (Ok hashC) (sampleWorktree stagedOutput).

(** A fresh state with the given commit allowlist. *)
Definition startWorld (allowlist : list string) : World :=
  mkWorld [] 0 0 (mkConfig allowlist) [] 0 0.

(** The state a worker of the walk starts in: [wg.Add(1)] and
    [semaphore <- true] have been done for it (lines 176 and 177). *)
Definition handedOff (w : World) : World := semaphore_send (wg_Add w).

(** The sample history with a matcher that panics on every bundle. *)
Definition matcherPanicRepo : Repo :=
  mkRepo "sample" false (historyOpts "" 0) None (Ok (mkConfig [])) (fun _ => false)
         (fun _ => true) (Ok hashC) sampleStore sampleFiles samplePatches
         (fun _ => Ok sampleTree) None (Ok sampleLog) (Ok [])
         (Ok (sampleWorktree stagedOutput)) replaceAll (fun diffs => diffs).

(** A tree of HEAD whose objects cannot be read: looking any file up fails
    with an I/O error, which is not the error of a file that is absent. *)
Definition failingTree : Tree :=
  mkTree (fun fn => Err (Errorf "unexpected EOF")).

Definition failingTreeRepo : Repo :=
  mkRepo "sample" false (historyOpts "" 0) None (Ok (mkConfig [])) (fun _ => false)
         (fun _ => false) (Ok hashC) sampleStore sampleFiles samplePatches
         (fun _ => Ok failingTree) None (Ok sampleLog) (Ok [])
         (Ok (sampleWorktree stagedOutput)) replaceAll (fun diffs => diffs).

(* ------------------------------------------------------------------ *)
(** ** Notions for the further properties *)

(** The deadline has passed: every poll from now on answers true. *)
Definition expired (repo : Repo) (w : World) : Prop :=
  forall n, (polls w <= n)%nat -> timeoutAt repo n = true.

(** [quiet repo Q m]: run after the deadline, [m] hands nothing to the
    matcher, and a value it returns satisfies [Q]. *)
Definition quiet {A : Type} (repo : Repo) (Q : A -> Prop) (m : M A) : Prop :=
  forall w r w',
    expired repo w ->
    m w = (r, w') ->
    dispatched w' = dispatched w /\
    (polls w <= polls w')%nat /\
    (forall a, r = Returned a -> Q a).



(** [calm m]: [m] never ends in a panic. *)
Definition calm {A : Type} (m : M A) : Prop :=
  forall w r w' p, m w = (r, w') -> r <> Panicked p.

(** How much [scanCommit] adds to the commit counter: one once the
    reference names a hash, nothing when "latest" has no HEAD to name. *)
Definition resolvedCount (repo : Repo) (commit : string) : Z :=
  if String.eqb commit "latest" then
    match Head repo with
    | Ok _ => 1
    | Err _ => 0
    end
  else 1.

(** A repository like the sample one whose deadline has passed from the
    start. *)
Definition expiredRepo (opts : Options) : Repo :=
  mkRepo "sample" false opts None (Ok (mkConfig [])) (fun _ => true) (fun _ => false)
         (Ok hashC) sampleStore sampleFiles samplePatches (fun _ => Ok sampleTree)
         None (Ok sampleLog) (Ok []) (Ok (sampleWorktree stagedOutput))
         replaceAll (fun diffs => diffs).

(** Patch generation that panics, as the diff library is known to. *)
Definition panickingPatches (parent c : Commit) : outcome (option Patch * option error) :=
  Panicked DiffPanic.

Definition panickingRepo : Repo :=
  sampleRepo (historyOpts "" 0) sampleLog sampleFiles panickingPatches
             (Ok hashC) (sampleWorktree stagedOutput).

(** [Opts.Commits] naming the three sample commits. *)
Definition commitsOpts (commits : string) : Options :=
  mkOptions "" "" commits "" "" 0 0 false false.

Definition commitListRepo : Repo :=
  sampleRepo
    (commitsOpts (Hash_String hashA ++ "," ++ Hash_String hashB ++ "," ++ Hash_String hashC))
    sampleLog sampleFiles samplePatches (Ok hashC) (sampleWorktree stagedOutput).

(** A chunk [scanPatch] hands over: an addition, or a deletion when
    [Opts.Deletion] is set. *)
Definition eligible (repo : Repo) (chunk : Chunk) : bool :=
  Operation_eqb (Chunk_Type chunk) Add
  || (Opts_Deletion (Manager_Opts repo) && Operation_eqb (Chunk_Type chunk) Delete).

(** The path [scanPatch] gives the bundles of a file patch. *)
Definition chunkPath (f : FilePatch) : string :=
  match FilePatch_from f, FilePatch_to f with
  | Some from, _ => from
  | None, Some to => to
  | None, None => "???"
  end.

(** The bundle of one chunk of the file patch [f] of the patch of [c]. *)
Definition chunkBundle (c : Commit) (patch : string) (f : FilePatch) (chunk : Chunk)
  : Bundle :=
  mkBundle c patch (Chunk_Content chunk) (chunkPath f) (Chunk_Type chunk) patchScan.

(** The bundles of a file patch and of a whole patch, in patch order. *)
Definition filePatchBundles (repo : Repo) (c : Commit) (patch : string) (f : FilePatch)
  : list Bundle :=
  if FilePatch_IsBinary f then []
  else map (chunkBundle c patch f) (filter (eligible repo) (FilePatch_Chunks f)).

Definition patchBundles (repo : Repo) (c : Commit) (p : Patch) : list Bundle :=
  flat_map (filePatchBundles repo c (Patch_String p)) (Patch_FilePatches p).

(** The bundle [scanFilesAtCommit] makes of a file of [c]. *)
Definition fileBundle (c : Commit) (f : File) (content : string) : Bundle :=
  mkBundle c "" content (File_Name f) Add commitScan.

(** [b] is the bundle of a file of [files] that is not binary, whose binary
    check did not fail and whose contents were read. *)
Definition scannedFile (c : Commit) (files : list (result File)) (b : Bundle) : Prop :=
  exists f content,
    In (Ok f) files /\
    File_IsBinary f = (false, None) /\
    File_Contents f = Ok content /\
    b = fileBundle c f content.

(** What every bundle of [Scan] looks like: a chunk of a patch, added or,
    with [Opts.Deletion], deleted; or a whole file, counted as added. *)
Definition scanShape (repo : Repo) (b : Bundle) : Prop :=
  (Bundle_scanType b = patchScan /\
   (Bundle_Operation b = Add \/
    (Bundle_Operation b = Delete /\ Opts_Deletion (Manager_Opts repo) = true))) \/
  (Bundle_scanType b = commitScan /\ Bundle_Operation b = Add /\ Bundle_Patch b = "").

(** A repository like the sample one whose matcher does not panic and
    whose deadline never passes, with the given options. *)
Definition deletionOpts : Options :=
  mkOptions "" "" "" "" "" 0 0 true false.

Definition deletionRepo : Repo :=
  sampleRepo deletionOpts sampleLog sampleFiles samplePatches
             (Ok hashC) (sampleWorktree stagedOutput).

(** A patch over three files: a text file with an added, an unchanged and a
    deleted chunk, a binary file, and a deleted file. *)
Definition mixedPatch : Patch :=
  mkPatch "diff --git a/x.py b/x.py"
          [mkFilePatch false (Some "x.py") (Some "x.py")
                       [mkChunk "SECRET" Add; mkChunk "same" Equal; mkChunk "old" Delete];
           mkFilePatch true (Some "logo.png") (Some "logo.png") [mkChunk "bytes" Add];
           mkFilePatch false None (Some "new.txt") [mkChunk "token" Add];
           mkFilePatch false None None [mkChunk "lost" Add]].

(** What every bundle of a staged scan looks like besides its commit. *)
Definition stagedShape (b : Bundle) : Prop :=
  Bundle_scanType b = uncommittedScan /\
  Bundle_Operation b = Equal /\
  Bundle_Patch b = "".

(** A line of [git diff --cached --name-status]: the status, a tab, the
    path and, for a copy, a tab and the path of the copy. *)
Record NameStatus : Type := mkNameStatus {
  NameStatus_status : string;
  NameStatus_path : string;
  NameStatus_more : option string
}.

Definition nameStatusLine (entry : NameStatus) : string :=
  NameStatus_status entry ++ tab ++ NameStatus_path entry ++
  match NameStatus_more entry with
  | Some more => tab ++ more
  | None => ""
  end.

(** The output of the command: every line ends with a line feed. *)
Fixpoint nameStatusOutput (entries : list NameStatus) : string :=
  match entries with
  | [] => ""
  | entry :: rest => nameStatusLine entry ++ nl ++ nameStatusOutput rest
  end.

(** The fields of a line hold neither tab nor line feed (the path of a copy
    no line feed). *)
Definition plainEntry (entry : NameStatus) : bool :=
  negb (Contains (NameStatus_status entry) TAB)
  && negb (Contains (NameStatus_status entry) LF)
  && negb (Contains (NameStatus_path entry) TAB)
  && negb (Contains (NameStatus_path entry) LF)
  && match NameStatus_more entry with
     | Some more => negb (Contains more LF)
     | None => true
     end.

(** A modified file, an added file and a copy. *)
Definition sampleEntries : list NameStatus :=
  [mkNameStatus "M" "foo.txt" None;
   mkNameStatus "A" "new.txt" None;
   mkNameStatus "C100" "foo.txt" (Some "copy of foo.txt")].

(* ------------------------------------------------------------------ *)
(** ** gitStatus *)

Definition SPACE : ascii := ascii_of_nat 32.
Definition NUL : ascii := zero.

(** [strings.TrimLeft(s, string(cut))], [strings.TrimRight] and
    [strings.Trim] for a one-byte cutset. *)
Fixpoint TrimLeft (s : string) (cut : ascii) : string :=
  match s with
  | EmptyString => EmptyString
  | String ch rest => if Ascii.eqb ch cut then TrimLeft rest cut else s
  end.

Fixpoint TrimRight (s : string) (cut : ascii) : string :=
  match s with
  | EmptyString => EmptyString
  | String ch rest =>
      match TrimRight rest cut with
      | EmptyString => if Ascii.eqb ch cut then EmptyString else String ch EmptyString
      | kept => String ch kept
      end
  end.

Definition Trim (s : string) (cut : ascii) : string :=
  TrimRight (TrimLeft s cut) cut.

(** [strings.SplitN(s, string(sep), 2)]: [s] cut at its first separator,
    or [s] alone when it holds none. *)
Fixpoint SplitN2 (s : string) (sep : ascii) : list string :=
  match s with
  | EmptyString => [EmptyString]
  | String ch rest =>
      if Ascii.eqb ch sep then [EmptyString; rest]
      else match SplitN2 rest sep with
           | [] => [String ch EmptyString]
           | before :: after => String ch before :: after
           end
  end.

(** [git.FileStatus]; a [git.StatusCode] is a byte. *)
Record FileStatus : Type := mkFileStatus {
  FileStatus_Staging : ascii;
  FileStatus_Worktree : ascii;
  FileStatus_Extra : string
}.

(** [git.Status], a map from paths to file statuses, as the list of its
    entries; [m[key] = value] replaces the entry of [key]. *)
Definition Status : Type := list (string * FileStatus).

Definition Status_set (stat : Status) (key : string) (value : FileStatus) : Status :=
  (key, value) :: filter (fun entry => negb (String.eqb (fst entry) key)) stat.

(** The loop of [gitStatus] over the lines of the porcelain output;
    [[]byte(parts[0])[0]] panics on an empty [parts[0]]. *)
Fixpoint gitStatusLoop (lines : list string) (stat : Status) : outcome Status :=
  match lines with
  | [] => Returned stat
  | line :: rest =>
      if nonempty line then
        match SplitN2 (TrimLeft line SPACE) SPACE with
        | [parts0; parts1] =>
            match parts0 with
            | String code _ =>
                gitStatusLoop rest
                  (Status_set stat (Trim parts1 SPACE) (mkFileStatus code zero ""))
            | EmptyString => Panicked (IndexOutOfRange 0 0)
            end
        | _ => gitStatusLoop rest stat
        end
      else gitStatusLoop rest stat
  end.

(** What [gitStatus] asks of the worktree: the output and error of
    [git status --porcelain -z] run in its root, and the result of
    [wt.Status()]. *)
Record StatusSource : Type := mkStatusSource {
  git_status_porcelain : string * option error;
  Worktree_StatusMap : Status * option error
}.

(** [gitStatus] returns the status of modified files in the worktree. It
    will attempt to execute 'git status' and will fall back to
    [git.Worktree.Status()] if that fails. *)
Definition gitStatus (wt : StatusSource) : outcome (Status * option error) :=
  let (output, err) := git_status_porcelain wt in
  match err with
  | Some _ => Returned (Worktree_StatusMap wt)
  | None =>
      match gitStatusLoop (Split output NUL) [] with
      | Returned stat => Returned (stat, err)
      | Panicked p => Panicked p
      | Exited code => Exited code
      | Crashed p => Crashed p
      end
  end.

(** An entry of the porcelain output: the two status letters, a space and
    the path. *)
Record PorcelainEntry : Type := mkPorcelainEntry {
  Porcelain_X : ascii;
  Porcelain_Y : ascii;
  Porcelain_path : string
}.

Definition porcelainLine (entry : PorcelainEntry) : string :=
  String (Porcelain_X entry) (String (Porcelain_Y entry)
    (String SPACE (Porcelain_path entry))).

(** The output of the command with [-z]: every entry ends with a NUL. *)
Fixpoint porcelainOutput (entries : list PorcelainEntry) : string :=
  match entries with
  | [] => ""
  | entry :: rest => porcelainLine entry ++ String NUL (porcelainOutput rest)
  end.

(** The status letters are not both blank and none is NUL, and the path
    holds no NUL. *)
Definition wellFormedEntry (entry : PorcelainEntry) : bool :=
  negb (Ascii.eqb (Porcelain_X entry) SPACE && Ascii.eqb (Porcelain_Y entry) SPACE)
  && negb (Ascii.eqb (Porcelain_X entry) NUL)
  && negb (Ascii.eqb (Porcelain_Y entry) NUL)
  && negb (Contains (Porcelain_path entry) NUL).

(** What [gitStatus] records for an entry: the path without the blanks at
    its ends, and as staging code the first status letter that is not
    blank. *)
Definition recordEntry (stat : Status) (entry : PorcelainEntry) : Status :=
  Status_set stat
    (Trim (Porcelain_path entry) SPACE)
    (mkFileStatus
       (if Ascii.eqb (Porcelain_X entry) SPACE
        then Porcelain_Y entry else Porcelain_X entry)
       zero "").

(** A file modified and staged, a file modified but not staged, an
    untracked file whose name holds a blank. *)
Definition sampleStatusEntries : list PorcelainEntry :=
  [mkPorcelainEntry "M" " " "foo.txt";
   mkPorcelainEntry " " "M" "bar.txt";
   mkPorcelainEntry "?" "?" "my notes.txt"].

(* ------------------------------------------------------------------ *)
(** ** The SARIF report of the manager (manager/sarif.go) *)

(** A Go slice that may be nil: [None] is the nil slice a [var]
    declaration gives, which [encoding/json] writes as null. *)
Definition slice (A : Type) : Type := option (list A).

(** [append(s, x)]. *)
Definition append1 {A : Type} (s : slice A) (x : A) : slice A :=
  match s with
  | None => Some [x]
  | Some l => Some (l ++ [x])%list
  end.

(** [manager.Leak], with the fields the report reads. *)
Record Leak : Type := mkLeak {
  Leak_Line : string;
  Leak_LineNumber : Z;
  Leak_Offender : string;
  Leak_Commit : string;
  Leak_Repo : string;
  Leak_Rule : string;
  Leak_Message : string;
  Leak_Author : string;
  Leak_Email : string;
  Leak_File : string;
  Leak_Date : Time;
  Leak_Operation : string
}.

Record Rules : Type := mkRules {
  Rules_ID : string;
  Rules_Name : string
}.

Record Message : Type := mkMessage {
  Message_Text : string
}.

Record ArtifactLocation : Type := mkArtifactLocation {
  ArtifactLocation_URI : string
}.

Record Snippet : Type := mkSnippet {
  Snippet_Text : string
}.

Record Region : Type := mkRegion {
  Region_StartLine : Z;
  Region_Snippet : Snippet
}.

Record PhysicalLocation : Type := mkPhysicalLocation {
  PhysicalLocation_ArtifactLocation : ArtifactLocation;
  PhysicalLocation_Region : Region
}.

Record Locations : Type := mkLocations {
  Locations_PhysicalLocation : PhysicalLocation
}.

Record ResultProperties : Type := mkResultProperties {
  ResultProperties_Commit : string;
  ResultProperties_Offender : string;
  ResultProperties_Date : Time;
  ResultProperties_Author : string;
  ResultProperties_Email : string;
  ResultProperties_CommitMessage : string;
  ResultProperties_Operation : string;
  ResultProperties_Repo : string
}.

Record Results : Type := mkResults {
  Results_Message : Message;
  Results_Properties : ResultProperties;
  Results_Locations : list Locations
}.

(** [leakToLocation]. *)
Definition leakToLocation (leak : Leak) : list Locations :=
  [mkLocations
     (mkPhysicalLocation
        (mkArtifactLocation (Leak_File leak))
        (mkRegion (Leak_LineNumber leak) (mkSnippet (Leak_Line leak))))].

(** [leaksToResults], over [manager.leaks]. *)
Definition leaksToResults (leaks : list Leak) : slice Results :=
  fold_left
    (fun (results : slice Results) (leak : Leak) =>
       append1 results
         (mkResults
            (mkMessage (Leak_Rule leak ++ " secret detected"))
            (mkResultProperties
               (Leak_Commit leak) (Leak_Offender leak) (Leak_Date leak)
               (Leak_Author leak) (Leak_Email leak) (Leak_Message leak)
               (Leak_Operation leak) (Leak_Repo leak))
            (leakToLocation leak)))
    leaks None.

(** [configToRules], over the descriptions of [manager.Config.Rules]. *)
Definition configToRules (descriptions : list string) : slice Rules :=
  fold_left
    (fun (rules : slice Rules) (description : string) =>
       append1 rules (mkRules description description))
    descriptions None.

(** The result that reports [leak], read at once. *)
Definition reports (leak : Leak) (result : Results) : Prop :=
  Message_Text (Results_Message result) = Leak_Rule leak ++ " secret detected" /\
  ResultProperties_Commit (Results_Properties result) = Leak_Commit leak /\
  ResultProperties_Offender (Results_Properties result) = Leak_Offender leak /\
  ResultProperties_Date (Results_Properties result) = Leak_Date leak /\
  ResultProperties_Author (Results_Properties result) = Leak_Author leak /\
  ResultProperties_Email (Results_Properties result) = Leak_Email leak /\
  ResultProperties_CommitMessage (Results_Properties result) = Leak_Message leak /\
  ResultProperties_Operation (Results_Properties result) = Leak_Operation leak /\
  ResultProperties_Repo (Results_Properties result) = Leak_Repo leak /\
  Results_Locations result =
    [mkLocations
       (mkPhysicalLocation
          (mkArtifactLocation (Leak_File leak))
          (mkRegion (Leak_LineNumber leak) (mkSnippet (Leak_Line leak))))].

Definition sampleLeak (line : Z) : Leak :=
  mkLeak "key = AKIA" line "AKIA" (Hash_String hashA) "sample" "AWS Access Key"
         "add x" "alice" "alice@example.com" "x.py" (mkTime 1600000000 0 UTC)
         "addition".

(** [repo] with other options. *)
Definition withOptions (repo : Repo) (opts : Options) : Repo :=
  mkRepo (Repo_Name repo) (Repository_isNil repo) opts (setupTimeout repo)
         (loadRepoConfig repo) (timeoutAt repo) (matcherPanics repo) (Head repo)
         (CommitObject repo) (Commit_Files repo) (Commit_Patch repo)
         (Commit_Tree repo) (getLogOptions repo) (Log repo) (CommitsFile_Open repo)
         (Repo_Worktree repo) (DiffMain repo) (DiffCleanupSemantic repo).

(** [Opts.Commit] next to every other option that selects a mode or ends a
    walk. *)
Definition crowdedOpts : Options :=
  mkOptions (Hash_String hashB) (Hash_String hashA)
            (Hash_String hashA ++ "," ++ Hash_String hashC) "commits.txt"
            (Hash_String hashC) 1 4 false false.

(** [Opts.Commit] naming the commit in the middle of the sample line. *)
Definition commitBRepo : Repo :=
  sampleRepo (commitOpts (Hash_String hashB)) sampleLog sampleFiles samplePatches
             (Ok hashC) (sampleWorktree stagedOutput).

(** A repository whose log cannot be opened. *)
Definition noLogRepo : Repo :=
  mkRepo "sample" false (historyOpts "" 0) None (Ok (mkConfig []))
         (fun _ => false) (fun _ => false) (Ok hashC) sampleStore sampleFiles
         samplePatches (fun _ => Ok sampleTree) None
         (Err (Errorf "reference not found")) (Ok [])
         (Ok (sampleWorktree stagedOutput)) replaceAll (fun diffs => diffs).

(** The files of a commit: a text file, a binary file and a file whose
    contents cannot be read. *)
Definition mixedFiles : list (result File) :=
  [Ok (mkFile "x.py" (false, None) (Ok "AKIA"));
   Ok (mkFile "logo.png" (true, None) (Ok "bytes"));
   Ok (mkFile "big.bin" (false, Some (Errorf "short read")) (Ok ""))].

Definition mixedFilesRepo : Repo :=
  sampleRepo (historyOpts "" 0) sampleLog (fun _ => Ok mixedFiles) samplePatches
             (Ok hashC) (sampleWorktree stagedOutput).

Definition sampleStatusSource : StatusSource :=
  mkStatusSource (porcelainOutput sampleStatusEntries, None)
                 ([], Some (Errorf "not used")).

(* ------------------------------------------------------------------ *)
(** * Properties *)

(** ** Strings and [Split] *)

Lemma append_assoc (a b c : string) : (a ++ b) ++ c = a ++ (b ++ c).
Proof.
  induction a as [|ch a IH]; simpl; [reflexivity|].
  now rewrite IH.
Qed.

Lemma append_empty_r (a : string) : a ++ "" = a.
Proof.
  induction a as [|ch a IH]; simpl; [reflexivity|].
  now rewrite IH.
Qed.

Lemma Split_not_nil (s : string) (sep : ascii) : Split s sep <> [].
Proof.
  destruct s as [|ch s]; simpl; [discriminate|].
  destruct (Ascii.eqb ch sep); [discriminate|].
  destruct (Split s sep); discriminate.
Qed.

Lemma Split_without_sep (s : string) (sep : ascii) :
  Contains s sep = false -> Split s sep = [s].
Proof.
  induction s as [|ch s IH]; simpl; intros H; [reflexivity|].
  apply orb_false_iff in H. destruct H as [Hch Hs].
  rewrite Hch, (IH Hs). reflexivity.
Qed.

Lemma Split_with_sep (s : string) (sep : ascii) :
  Contains s sep = true -> exists a b rest, Split s sep = a :: b :: rest.
Proof.
  induction s as [|ch s IH]; simpl; intros H; [discriminate|].
  destruct (Ascii.eqb ch sep) eqn:Hch.
  - destruct (Split s sep) as [|x xs] eqn:Hs.
    + now apply Split_not_nil in Hs.
    + now exists "", x, xs.
  - simpl in H. destruct (IH H) as (a & b & rest & ->).
    now exists (String ch a), b, rest.
Qed.

(** ** The parser of the staged file names *)

Lemma stagedFilesLoop_tabless (lines : list string) :
  forall acc,
    existsb tabless lines = true ->
    stagedFilesLoop lines acc = Panicked (IndexOutOfRange 1 1).
Proof.
  induction lines as [|line rest IH]; simpl; intros acc H; [discriminate|].
  unfold tabless in H at 1.
  destruct (nonempty line) eqn:Hne; simpl in H.
  - destruct (Contains line TAB) eqn:Htab; simpl in H.
    + destruct (Split_with_sep _ _ Htab) as (a & b & more & ->). simpl.
      now apply IH.
    + rewrite (Split_without_sep _ _ Htab). reflexivity.
  - now apply IH.
Qed.

Lemma stagedFilesLoop_tabbed (lines : list string) :
  forall acc,
    existsb tabless lines = false ->
    exists files, stagedFilesLoop lines acc = Returned files.
Proof.
  induction lines as [|line rest IH]; simpl; intros acc H; [now exists acc|].
  apply orb_false_iff in H. destruct H as [Hline Hrest].
  unfold tabless in Hline.
  destruct (nonempty line) eqn:Hne; simpl in Hline.
  - apply negb_false_iff in Hline.
    destruct (Split_with_sep _ _ Hline) as (a & b & more & ->). simpl.
    now apply IH.
  - now apply IH.
Qed.

Lemma existsb_tabless (lines : list string) :
  existsb tabless lines = true <->
  exists line, In line lines /\ nonempty line = true /\ Contains line TAB = false.
Proof.
  rewrite existsb_exists. unfold tabless.
  split; intros (line & Hin & H); exists line; split; trivial.
  - apply andb_true_iff in H. destruct H as [H1 H2].
    now apply negb_true_iff in H2.
  - destruct H as [-> ->]. reflexivity.
Qed.

Lemma forallb_tabbed (lines : list string) :
  existsb tabless lines = false <->
  forall line, In line lines -> nonempty line = true -> Contains line TAB = true.
Proof.
  split.
  - intros H line Hin Hne.
    destruct (Contains line TAB) eqn:Htab; [reflexivity|].
    assert (existsb tabless lines = true) as Hex
      by (apply existsb_tabless; now exists line).
    congruence.
  - intros H. destruct (existsb tabless lines) eqn:Hex; [|reflexivity].
    apply existsb_tabless in Hex. destruct Hex as (line & Hin & Hne & Htab).
    rewrite (H line Hin Hne) in Htab. discriminate.
Qed.

(** C10: when the porcelain command succeeded, [getStagedChanges] panics
    with index 1 out of the range of a one-element slice exactly when some
    nonempty line of the output holds no tab (the guard [len > 0] is true of
    every split), and it returns the file names exactly when every nonempty
    line holds a tab. *)
Theorem C10_getStagedChanges_total_iff_tabs :
  forall (wt : Worktree) (output : string) (w : World),
    git_diff_cached wt = (output, None) ->
    ((exists line, In line (Split output LF) /\ nonempty line = true /\
                   Contains line TAB = false) <->
     getStagedChanges wt w = (Panicked (IndexOutOfRange 1 1), w)) /\
    ((forall line, In line (Split output LF) -> nonempty line = true ->
                   Contains line TAB = true) <->
     exists files, getStagedChanges wt w = (Returned (files, None), w)).
Proof.
  intros wt output w Hout.
  unfold getStagedChanges. rewrite Hout.
  rewrite <- existsb_tabless, <- forallb_tabbed.
  destruct (existsb tabless (Split output LF)) eqn:Hex.
  - rewrite (stagedFilesLoop_tabless _ [] Hex).
    split; split; trivial; try discriminate.
    intros (files & H). discriminate.
  - destruct (stagedFilesLoop_tabbed _ [] Hex) as (files & ->).
    split; split; trivial; try discriminate.
    intros _. now exists files.
Qed.

(** ** The insertions of a diff *)

Lemma diffContents_from (diffs : list Diff) :
  forall acc,
    fold_left
      (fun (diffContents : string) (d : Diff) =>
         match Diff_Type d with
         | DiffInsert => diffContents ++ Sprintf_line (Diff_Text d)
         | _ => diffContents
         end)
      diffs acc
    = acc ++ insertionText diffs.
Proof.
  induction diffs as [|d rest IH]; intros acc; simpl.
  - now rewrite append_empty_r.
  - rewrite IH. unfold insertionText, isInsert. simpl.
    destruct (Diff_Type d); simpl; trivial.
    unfold Sprintf_line. now rewrite append_assoc.
Qed.

Lemma diffContents_insertionText (diffs : list Diff) :
  diffContents diffs = insertionText diffs.
Proof. unfold diffContents. now rewrite diffContents_from. Qed.

(** ** What a computation hands to the matcher *)

Section Emits.

Variable repo : Repo.
Variable cfg : Config.
Variable P : Bundle -> Prop.

Lemma added_refl (w : World) : added w w [].
Proof. unfold added. now rewrite app_nil_r. Qed.

Lemma emits_ret {A} (Q : A -> Prop) (a : A) : Q a -> emits cfg P Q (ret a).
Proof.
  intros HQ w r w' Hcfg H. inversion H; subst.
  split; [reflexivity|]. split.
  - exists []. split; [apply added_refl | constructor].
  - intros a' Ha. now inversion Ha; subst.
Qed.

Lemma emits_bind {A B} (Q : A -> Prop) (R : B -> Prop) (m : M A) (k : A -> M B) :
  emits cfg P Q m -> (forall a, Q a -> emits cfg P R (k a)) ->
  emits cfg P R (bind m k).
Proof.
  intros Hm Hk w r w' Hcfg H. unfold bind in H.
  destruct (m w) as [o w1] eqn:Hmw.
  destruct (Hm _ _ _ Hcfg Hmw) as (Hc & (new & Hadd & Hall) & Hval).
  destruct o as [a|p|code|p].
  - destruct (Hk a (Hval a eq_refl) _ _ _ Hc H)
      as (Hc2 & (new2 & Hadd2 & Hall2) & Hval2).
    split; [assumption|]. split; [|assumption].
    exists (new ++ new2)%list. split.
    + unfold added in *. rewrite Hadd2, Hadd. now rewrite app_assoc.
    + apply Forall_app. now split.
  - inversion H; subst. split; [assumption|]. split; [now exists new|discriminate].
  - inversion H; subst. split; [assumption|]. split; [now exists new|discriminate].
  - inversion H; subst. split; [assumption|]. split; [now exists new|discriminate].
Qed.

Lemma emits_weaken {A} (Q Q' : A -> Prop) (m : M A) :
  emits cfg P Q m -> (forall a, Q a -> Q' a) -> emits cfg P Q' m.
Proof.
  intros Hm HQ w r w' Hcfg H.
  destruct (Hm _ _ _ Hcfg H) as (Hc & Hnew & Hval).
  repeat split; trivial. intros a Ha. apply HQ. now apply Hval.
Qed.

Lemma emits_update (f : World -> World) :
  (forall w, dispatched (f w) = dispatched w) ->
  (forall w, config (f w) = config w) ->
  emits cfg P any (fun w => (Returned tt, f w)).
Proof.
  intros Hd Hc w r w' Hcfg H. inversion H; subst.
  split; [apply Hc|]. split.
  - exists []. split; [|constructor]. unfold added. now rewrite Hd, app_nil_r.
  - intros; exact I.
Qed.

Lemma emits_CheckRules (b : Bundle) : P b -> emits cfg P any (CheckRules repo b).
Proof.
  intros Hb w r w' Hcfg H. unfold CheckRules in H.
  assert (w' = set_dispatched w (dispatched w ++ [b])) as ->
    by (destruct (matcherPanics repo b); now inversion H).
  split; [assumption|]. split.
  - exists [b]. split; [reflexivity | now constructor].
  - intros; exact I.
Qed.

Lemma emits_timeoutReached : emits cfg P any (timeoutReached repo).
Proof.
  intros w r w' Hcfg H. inversion H; subst.
  split; [reflexivity|]. split.
  - exists []. split; [|constructor]. unfold added. simpl. now rewrite app_nil_r.
  - intros; exact I.
Qed.

Lemma emits_IncrementCommits (n : Z) : emits cfg P any (IncrementCommits n).
Proof. now apply emits_update. Qed.

Lemma emits_raise {A} (Q : A -> Prop) (p : panic) : emits cfg P Q (raise p).
Proof.
  intros w r w' Hcfg H. inversion H; subst.
  split; [reflexivity|]. split.
  - exists []. split; [apply added_refl | constructor].
  - discriminate.
Qed.

Lemma emits_Patch_of (parent c : Commit) : emits cfg P any (Patch_of repo parent c).
Proof.
  intros w r w' Hcfg H. inversion H; subst.
  split; [reflexivity|]. split.
  - exists []. split; [apply added_refl | constructor].
  - intros; exact I.
Qed.

Lemma emits_recovering {A} (Q : A -> Prop) (zero : A) (m : M A) :
  emits cfg P Q m -> Q zero -> emits cfg P Q (recovering zero m).
Proof.
  intros Hm Hz w r w' Hcfg H. unfold recovering in H.
  destruct (m w) as [o w1] eqn:Hmw.
  destruct (Hm _ _ _ Hcfg Hmw) as (Hc & Hnew & Hval).
  destruct o; inversion H; subst; repeat split; trivial.
  intros a Ha. now inversion Ha; subst.
Qed.

Lemma emits_deferring {A} (Q : A -> Prop) (d : World -> World) (m : M A) :
  (forall w, dispatched (d w) = dispatched w) ->
  (forall w, config (d w) = config w) ->
  emits cfg P Q m -> emits cfg P Q (deferring d m).
Proof.
  intros Hd Hcf Hm w r w' Hcfg H. unfold deferring in H.
  destruct (m w) as [o w1] eqn:Hmw.
  destruct (Hm _ _ _ Hcfg Hmw) as (Hc & (new & Hadd & Hall) & Hval).
  unfold added in *.
  destruct o; inversion H; subst; rewrite ?Hd, ?Hcf;
    (split; [assumption|]); (split; [now exists new|]); trivial; discriminate.
Qed.

Lemma emits_go (f : M unit) : emits cfg P any f -> emits cfg P any (go_ f).
Proof.
  intros Hf w r w' Hcfg H. unfold go_ in H.
  destruct (f w) as [o w1] eqn:Hfw.
  destruct (Hf _ _ _ Hcfg Hfw) as (Hc & Hnew & Hval).
  destruct o; inversion H; subst; repeat split; trivial.
Qed.

Lemma emits_ForEach {A} (iter : list (result A)) (cb : A -> M (option error)) :
  (forall a, emits cfg P any (cb a)) -> emits cfg P any (ForEach iter cb).
Proof.
  intros Hcb. induction iter as [|[a|e] rest IH]; simpl.
  - now apply emits_ret.
  - eapply emits_bind; [apply Hcb|].
    intros [[| | |msg]|] _; trivial; now apply emits_ret.
  - now apply emits_ret.
Qed.

Lemma emits_ForEachCapturing {A V} (iter : list (result A))
    (cb : A -> V -> M (V * option error)) :
  (forall a v, emits cfg P any (cb a v)) ->
  forall v, emits cfg P any (ForEachCapturing iter cb v).
Proof.
  intros Hcb. induction iter as [|[a|e] rest IH]; simpl; intros v.
  - now apply emits_ret.
  - eapply emits_bind; [apply Hcb|].
    intros [v' [[| | |msg]|]] _; simpl; trivial; now apply emits_ret.
  - now apply emits_ret.
Qed.

End Emits.

Lemma emits_mono {A} (cfg : Config) (P P' : Bundle -> Prop) (Q : A -> Prop) (m : M A) :
  (forall b, P b -> P' b) -> emits cfg P Q m -> emits cfg P' Q m.
Proof.
  intros HP Hm w r w' Hcfg H.
  destruct (Hm _ _ _ Hcfg H) as (Hc & (new & Hadd & Hall) & Hval).
  repeat split; trivial. exists new. split; trivial.
  eapply Forall_impl; [|exact Hall]. exact HP.
Qed.

(** ** The bundles of each scanner *)

Section Scanners.

Variable repo : Repo.
Variable cfg : Config.

Lemma scanChunks_emits (c : Commit) (f : FilePatch) (chunks : list Chunk) :
  forall bundle,
    Bundle_Commit bundle = c ->
    emits cfg (fun b => Bundle_Commit b = c) (fun b => Bundle_Commit b = c)
          (scanChunks repo f chunks bundle).
Proof.
  induction chunks as [|chunk rest IH]; intros bundle Hc; cbn [scanChunks].
  - now apply emits_ret.
  - destruct (_ || _).
    + eapply emits_bind.
      * apply emits_CheckRules. exact Hc.
      * intros _ _. apply IH. exact Hc.
    + now apply IH.
Qed.

Lemma scanFilePatches_emits (c : Commit) (fps : list FilePatch) :
  forall bundle,
    Bundle_Commit bundle = c ->
    emits cfg (fun b => Bundle_Commit b = c) any (scanFilePatches repo fps bundle).
Proof.
  induction fps as [|f rest IH]; intros bundle Hc; cbn [scanFilePatches].
  - now apply emits_ret.
  - eapply emits_bind; [apply emits_timeoutReached|].
    intros [|] _; [now apply emits_ret|].
    destruct (FilePatch_IsBinary f); [now apply IH|].
    eapply emits_bind; [now apply scanChunks_emits|].
    intros bundle' Hc'. now apply IH.
Qed.

Lemma scanPatch_emits (patch : option Patch) (c : Commit) :
  emits cfg (fun b => Bundle_Commit b = c) any (scanPatch repo patch c).
Proof.
  destruct patch as [p|]; simpl.
  - now apply scanFilePatches_emits.
  - apply emits_raise.
Qed.

Lemma scanFile_emits (c : Commit) (f : File) :
  emits cfg (fun b => Bundle_Commit b = c) any (scanFile repo c f).
Proof.
  unfold scanFile. destruct (File_IsBinary f) as [bin err].
  eapply emits_bind with (Q := any).
  - destruct bin; [now apply emits_ret | apply emits_timeoutReached].
  - intros [|] _; [now apply emits_ret|].
    destruct err; [now apply emits_ret|].
    destruct (File_Contents f); [|now apply emits_ret].
    eapply emits_bind; [now apply emits_CheckRules|].
    intros _ _. now apply emits_ret.
Qed.

Lemma scanFilesAtCommit_emits (c : Commit) :
  emits cfg (fun b => Bundle_Commit b = c) any (scanFilesAtCommit repo c).
Proof.
  unfold scanFilesAtCommit. destruct (Commit_Files repo c).
  - apply emits_ForEach. intros f. apply scanFile_emits.
  - now apply emits_ret.
Qed.

Lemma worker_emits (c : Commit) (patch : option Patch) :
  emits cfg (fun b => Bundle_Commit b = c) any (worker repo c patch).
Proof.
  unfold worker. apply emits_deferring; trivial. apply scanPatch_emits.
Qed.

Lemma walkPatch_emits (c : Commit) (parent : option Commit) :
  emits cfg (fun b => Bundle_Commit b = c) any (walkPatch repo c parent).
Proof.
  unfold walkPatch. apply emits_recovering; [|exact I].
  eapply emits_bind; [apply emits_timeoutReached|].
  intros [|] _; [now apply emits_ret|].
  destruct parent as [parent|]; [|now apply emits_ret].
  eapply emits_bind; [apply emits_Patch_of|]. intros r _.
  eapply emits_bind; [now apply emits_update|]. intros _ _.
  eapply emits_bind; [now apply emits_update|]. intros _ _.
  eapply emits_bind; [apply emits_go, worker_emits|]. intros _ _.
  destruct (String.eqb _ _); now apply emits_ret.
Qed.

Lemma walkEnter_emits (c : Commit) (cc : Z) :
  emits cfg (offAllowlist cfg) any (walkEnter repo c cc).
Proof.
  intros w r w' Hcfg H. unfold walkEnter in H. rewrite Hcfg in H.
  destruct (isCommitAllowListed _ _) eqn:Hallow.
  - revert H. now apply emits_ret.
  - assert (forall b, Bundle_Commit b = c -> offAllowlist cfg b) as Hoff
      by (intros b <-; exact Hallow).
    destruct (_ =? _)%nat.
    + revert H. apply (emits_mono cfg _ _ _ _ Hoff); trivial.
      eapply emits_bind; [apply scanFilesAtCommit_emits|].
      intros err _. now apply emits_ret.
    + destruct (Commit_Parent repo c 0) as [parent|e].
      * revert H. apply (emits_mono cfg _ _ _ _ Hoff); trivial.
        eapply emits_bind; [apply walkPatch_emits|].
        intros err _. now apply emits_ret.
      * revert H. now apply emits_ret.
Qed.

Lemma walkCommit_emits (c : option Commit) (cc : Z) :
  emits cfg (offAllowlist cfg) any (walkCommit repo c cc).
Proof.
  destruct c as [c|]; simpl; [|now apply emits_ret].
  eapply emits_bind; [apply emits_timeoutReached|].
  intros timeout _. destruct (_ || _); [now apply emits_ret|].
  apply walkEnter_emits.
Qed.

Lemma scanHistory_emits (cIter : list (result (option Commit))) :
  emits cfg (offAllowlist cfg) any (scanHistory repo cIter).
Proof.
  unfold scanHistory.
  eapply emits_bind; [apply emits_ForEachCapturing, walkCommit_emits|].
  intros r _. eapply emits_bind; [apply emits_IncrementCommits|].
  intros _ _. now apply emits_ret.
Qed.

Lemma scanEmptyLoop_emits (wt : Worktree) (status : list string) :
  emits cfg (fun b => Bundle_Commit b = emptyCommit) any (scanEmptyLoop repo wt status).
Proof.
  induction status as [|fn rest IH]; cbn [scanEmptyLoop].
  - now apply emits_ret.
  - destruct (Filesystem_Open wt fn) as [workTreeFile|]; [|exact IH].
    destruct (WorktreeFile_Copy workTreeFile); [|now apply emits_ret].
    eapply emits_bind; [now apply emits_CheckRules|].
    intros _ _. exact IH.
Qed.

Lemma stagedLoop_emits (c : Commit) (prevTree : Tree) (wt : Worktree)
    (status : list string) :
  emits cfg
        (fun b => Bundle_Commit b = c /\ holdsInsertions repo prevTree wt status b)
        any (stagedLoop repo c prevTree wt status).
Proof.
  induction status as [|fn rest IH]; cbn [stagedLoop].
  - now apply emits_ret.
  - assert (emits cfg
              (fun b => Bundle_Commit b = c /\
                        holdsInsertions repo prevTree wt (fn :: rest) b)
              any (stagedLoop repo c prevTree wt rest)) as IH'.
    { eapply emits_mono; [|exact IH].
      intros b (Hc & fn' & f' & curr & Hin & Hrest).
      split; [exact Hc|]. exists fn', f', curr. split; [now right | exact Hrest]. }
    destruct (Filesystem_Open wt fn) as [workTreeFile|] eqn:Hopen; [|exact IH'].
    destruct (WorktreeFile_Copy workTreeFile) as [curr|] eqn:Hcopy;
      [|now apply emits_ret].
    assert (forall prev name,
               prev = headContents prevTree fn ->
               emits cfg
                 (fun b => Bundle_Commit b = c /\
                           holdsInsertions repo prevTree wt (fn :: rest) b)
                 any
                 (CheckRules repo
                    (mkBundle c "" (diffContents
                                      (DiffCleanupSemantic repo (DiffMain repo prev curr false)))
                              name Equal uncommittedScan) ;;;
                  stagedLoop repo c prevTree wt rest)) as Hscan.
    { intros prev name ->.
      eapply emits_bind; [|intros _ _; exact IH'].
      apply emits_CheckRules. split; [reflexivity|].
      exists fn, workTreeFile, curr. repeat split; trivial; [now left|].
      simpl. apply diffContents_insertionText. }
    unfold headContents in Hscan.
    destruct (Tree_File prevTree fn) as [prevFile|].
    + destruct (TreeFile_Contents prevFile); [|now apply emits_ret].
      now apply Hscan.
    + now apply Hscan.
Qed.

End Scanners.

(** ** Running an [emits] computation *)

Lemma emits_run {A} (cfg : Config) (P : Bundle -> Prop) (Q : A -> Prop) (m : M A)
    (w : World) (r : outcome A) (w' : World) :
  emits cfg P Q m -> config w = cfg -> m w = (r, w') ->
  config w' = cfg /\ exists new, added w w' new /\ Forall P new.
Proof.
  intros Hm Hcfg H. destruct (Hm _ _ _ Hcfg H) as (Hc & Hnew & _). now split.
Qed.

(** The prologue shared by [Scan] and [scanUncommitted]: with
    [Opts.RepoConfig] the configuration of the repository replaces
    [repo.config] before the scan [k] runs. *)
Lemma configured_emits (repo : Repo) (P : Config -> Bundle -> Prop)
    (k : M (option error)) :
  (forall cfg, emits cfg (P cfg) any k) ->
  forall w r w',
    (if Opts_RepoConfig (Manager_Opts repo) then
       match loadRepoConfig repo with
       | Err e => ret (Some e)
       | Ok cfg => (fun w => (Returned tt, set_config w cfg)) ;;; k
       end
     else k) w = (r, w') ->
    exists new, added w w' new /\ Forall (P (config w')) new.
Proof.
  intros Hk w r w' H.
  destruct (Opts_RepoConfig (Manager_Opts repo)).
  - destruct (loadRepoConfig repo) as [cfg|e].
    + unfold bind in H at 1. cbn beta iota in H.
      destruct (emits_run cfg (P cfg) any k (set_config w cfg) r w' (Hk cfg) eq_refl H)
        as (Hc & new & Hadd & Hall).
      exists new. rewrite Hc. split; [exact Hadd | exact Hall].
    + inversion H; subst. exists []. split; [apply added_refl | constructor].
  - destruct (emits_run (config w) (P (config w)) any k w r w' (Hk (config w)) eq_refl H)
      as (Hc & new & Hadd & Hall).
    exists new. rewrite Hc. now split.
Qed.

Lemma getStagedChanges_emits (cfg : Config) (P : Bundle -> Prop) (wt : Worktree) :
  emits cfg P (fun r => fst r = stagedNames wt) (getStagedChanges wt).
Proof.
  intros w r w' Hcfg H. unfold getStagedChanges in H. unfold stagedNames.
  destruct (git_diff_cached wt) as [output err]. simpl.
  assert (w' = w) as ->.
  { destruct err; [now inversion H|].
    destruct (stagedFilesLoop _ _); now inversion H. }
  split; [assumption|]. split.
  - exists []. split; [apply added_refl | constructor].
  - intros a ->. destruct err; [discriminate H|].
    destruct (stagedFilesLoop _ _); inversion H; subst. reflexivity.
Qed.

Lemma emptyCommit_isSentinel : isSentinel emptyCommit.
Proof. repeat split. Qed.

Lemma stageCommit_isSentinel (c : Commit) : isSentinel (stageCommit c).
Proof. repeat split. Qed.

Lemma scanEmpty_emits (repo : Repo) (cfg : Config) :
  emits cfg (fun b => Bundle_Commit b = emptyCommit) any (scanEmpty repo).
Proof.
  unfold scanEmpty.
  destruct (Repo_Worktree repo) as [wt|]; [|now apply emits_ret].
  destruct (Worktree_Status wt); [|now apply emits_ret].
  apply scanEmptyLoop_emits.
Qed.

(** The staged-diff path of [scanUncommitted] once HEAD, its tree and the
    worktree are at hand. *)
Lemma stagedPath_emits (repo : Repo) (cfg : Config) (c : Commit) (prevTree : Tree)
    (wt : Worktree) :
  emits cfg
        (fun b => Bundle_Commit b = c /\
                  holdsInsertions repo prevTree wt (stagedNames wt) b)
        any
        (r <- getStagedChanges wt ;;
         err <- stagedLoop repo c prevTree wt (fst r) ;;
         match err with
         | Some e => ret (Some e)
         | None => ret (snd r)
         end).
Proof.
  eapply emits_bind; [apply getStagedChanges_emits|].
  intros r Hr. rewrite Hr.
  eapply emits_bind; [apply stagedLoop_emits|].
  intros [e|] _; now apply emits_ret.
Qed.

(** ** The claims *)

(** C6: on a root commit (one without parent hashes) [scanCommitPatches]
    does what [scanFilesAtCommit] does: from every state both hand the same
    bundles to the matcher, poll the deadline as often, and end with the same
    result. *)
Theorem C6_root_scanCommitPatches_is_scanFilesAtCommit :
  forall (repo : Repo) (c : Commit),
    Commit_ParentHashes c = [] ->
    forall w, scanCommitPatches repo c w = scanFilesAtCommit repo c w.
Proof.
  intros repo c Hroot w.
  unfold scanCommitPatches, Commit_Parents. rewrite Hroot. simpl.
  unfold bind.
  destruct (scanFilesAtCommit repo c w) as [[[e|]| | |] w1]; reflexivity.
Qed.

(** C7: every bundle a staged scan hands to the matcher, on the empty
    repository path as on the staged-diff path, carries the sentinel commit:
    zero hash, message ***STAGED CHANGES***, empty author name and email,
    author time at the Unix epoch in UTC. *)
Theorem C7_staged_bundles_carry_sentinel :
  forall (repo : Repo) (w : World) (r : outcome (option error)) (w' : World),
    scanUncommitted repo w = (r, w') ->
    exists new,
      added w w' new /\ Forall (fun b => isSentinel (Bundle_Commit b)) new.
Proof.
  intros repo w r w' H. unfold scanUncommitted in H.
  apply (configured_emits repo (fun _ b => isSentinel (Bundle_Commit b))) in H;
    [exact H|].
  intros cfg.
  destruct (setupTimeout repo); [now apply emits_ret|].
  destruct (Head repo) as [h|[]]; try now apply emits_ret.
  - destruct (CommitObject repo h) as [c|]; [|now apply emits_ret].
    destruct (Commit_Tree repo (stageCommit c)) as [prevTree|]; [|now apply emits_ret].
    destruct (Repo_Worktree repo) as [wt|]; [|now apply emits_ret].
    eapply emits_mono; [|apply stagedPath_emits].
    intros b [-> _]. apply stageCommit_isSentinel.
  - eapply emits_mono; [|apply scanEmpty_emits].
    intros b ->. apply emptyCommit_isSentinel.
Qed.

Lemma bind_error_return (m : M (option error)) (w : World) :
  (err <- m ;; match err with Some e => ret (Some e) | None => ret None end) w = m w.
Proof.
  unfold bind. destruct (m w) as [[[e|]| | |] w1]; reflexivity.
Qed.

(** [scanUncommitted] on the empty-repository path is the loop of
    [scanEmpty] over the names of the worktree status. *)
Lemma scanUncommitted_empty (repo : Repo) (wt : Worktree) (status : list string)
    (w w0 : World) :
  afterConfig repo w = Some w0 ->
  setupTimeout repo = None ->
  Head repo = Err ErrReferenceNotFound ->
  Repo_Worktree repo = Ok wt ->
  Worktree_Status wt = Ok status ->
  scanUncommitted repo w = scanEmptyLoop repo wt status w0.
Proof.
  unfold afterConfig, scanUncommitted, scanEmpty.
  intros Hcfg -> -> -> ->.
  destruct (Opts_RepoConfig (Manager_Opts repo)).
  - destruct (loadRepoConfig repo); [|discriminate].
    now inversion Hcfg.
  - now inversion Hcfg.
Qed.

(** [scanUncommitted] on the staged-diff path is its loop over the parsed
    file names. *)
Lemma scanUncommitted_staged (repo : Repo) (h : Hash) (c : Commit) (prevTree : Tree)
    (wt : Worktree) (output : string) (status : list string) (w w0 : World) :
  afterConfig repo w = Some w0 ->
  setupTimeout repo = None ->
  Head repo = Ok h ->
  CommitObject repo h = Ok c ->
  Commit_Tree repo (stageCommit c) = Ok prevTree ->
  Repo_Worktree repo = Ok wt ->
  git_diff_cached wt = (output, None) ->
  stagedFilesLoop (Split output LF) [] = Returned status ->
  scanUncommitted repo w = stagedLoop repo (stageCommit c) prevTree wt status w0.
Proof.
  unfold afterConfig, scanUncommitted.
  intros Hcfg -> -> -> -> -> Hout Hparse.
  assert (forall w1,
             (r <- getStagedChanges wt ;;
              err <- stagedLoop repo (stageCommit c) prevTree wt (fst r) ;;
              match err with
              | Some e => ret (Some e)
              | None => ret (snd r)
              end) w1
             = stagedLoop repo (stageCommit c) prevTree wt status w1) as Hbody.
  { intros w1. unfold bind at 1. unfold getStagedChanges.
    rewrite Hout, Hparse. cbn [fst snd]. apply bind_error_return. }
  destruct (Opts_RepoConfig (Manager_Opts repo)).
  - destruct (loadRepoConfig repo); [|discriminate].
    inversion Hcfg; subst. unfold bind at 1. cbn beta iota. apply Hbody.
  - inversion Hcfg; subst. apply Hbody.
Qed.


(** C9, as the code has it: in the loop of the empty-repository fallback
    and in the loop of the staged-diff path a file whose worktree open fails
    is passed over (the loop goes on with the next name from the same state,
    no bundle handed over), and an error of the copy from the worktree file
    ends the loop with that error.  On the staged-diff path an error of
    reading the contents of the file found in the tree of HEAD ends the loop
    with that error too, but an error of looking the file up in that tree,
    whatever the error, does not: the contents at HEAD are taken to be
    empty, the file is handed over as a new one under the name of the
    worktree file, and the loop goes on.  The result of either loop is the
    result of [scanUncommitted]. *)
Theorem C9_open_or_lookup_failure_goes_on_read_errors_abort :
  forall (repo : Repo) (c : Commit) (prevTree : Tree) (wt : Worktree)
         (fn : string) (rest : list string) (w : World),
    (forall e,
        Filesystem_Open wt fn = Err e ->
        scanEmptyLoop repo wt (fn :: rest) w = scanEmptyLoop repo wt rest w /\
        stagedLoop repo c prevTree wt (fn :: rest) w =
        stagedLoop repo c prevTree wt rest w) /\
    (forall workTreeFile e,
        Filesystem_Open wt fn = Ok workTreeFile ->
        WorktreeFile_Copy workTreeFile = Err e ->
        scanEmptyLoop repo wt (fn :: rest) w = (Returned (Some e), w) /\
        stagedLoop repo c prevTree wt (fn :: rest) w = (Returned (Some e), w)) /\
    (forall workTreeFile curr prevFile e,
        Filesystem_Open wt fn = Ok workTreeFile ->
        WorktreeFile_Copy workTreeFile = Ok curr ->
        Tree_File prevTree fn = Ok prevFile ->
        TreeFile_Contents prevFile = Err e ->
        stagedLoop repo c prevTree wt (fn :: rest) w = (Returned (Some e), w)) /\
    (forall workTreeFile curr e,
        Filesystem_Open wt fn = Ok workTreeFile ->
        WorktreeFile_Copy workTreeFile = Ok curr ->
        Tree_File prevTree fn = Err e ->
        stagedLoop repo c prevTree wt (fn :: rest) w =
        (CheckRules repo
           (mkBundle c ""
              (diffContents (DiffCleanupSemantic repo (DiffMain repo "" curr false)))
              (WorktreeFile_Name workTreeFile) Equal uncommittedScan) ;;;
         stagedLoop repo c prevTree wt rest) w) /\
    (forall status w0,
        afterConfig repo w0 = Some w ->
        setupTimeout repo = None ->
        Head repo = Err ErrReferenceNotFound ->
        Repo_Worktree repo = Ok wt ->
        Worktree_Status wt = Ok status ->
        scanUncommitted repo w0 = scanEmptyLoop repo wt status w) /\
    (forall h head output status w0,
        afterConfig repo w0 = Some w ->
        setupTimeout repo = None ->
        Head repo = Ok h ->
        CommitObject repo h = Ok head ->
        Commit_Tree repo (stageCommit head) = Ok prevTree ->
        Repo_Worktree repo = Ok wt ->
        git_diff_cached wt = (output, None) ->
        stagedFilesLoop (Split output LF) [] = Returned status ->
        scanUncommitted repo w0 =
        stagedLoop repo (stageCommit head) prevTree wt status w).
Proof.
  intros repo c prevTree wt fn rest w.
  split; [|split; [|split; [|split; [|split]]]].
  - intros e Hopen. split.
    + cbn [scanEmptyLoop]. now rewrite Hopen.
    + cbn [stagedLoop]. now rewrite Hopen.
  - intros workTreeFile e Hopen Hcopy. split.
    + cbn [scanEmptyLoop]. now rewrite Hopen, Hcopy.
    + cbn [stagedLoop]. now rewrite Hopen, Hcopy.
  - intros workTreeFile curr prevFile e Hopen Hcopy Hfile Hcontents.
    cbn [stagedLoop]. now rewrite Hopen, Hcopy, Hfile, Hcontents.
  - intros workTreeFile curr e Hopen Hcopy Hfile.
    cbn [stagedLoop]. now rewrite Hopen, Hcopy, Hfile.
  - intros status w0. apply scanUncommitted_empty.
  - intros h head output status w0. apply scanUncommitted_staged.
Qed.

Lemma offAllowlist_neq (cfg : Config) (b : Bundle) (A : string) :
  offAllowlist cfg b ->
  In A (Allowlist_Commits cfg) ->
  Hash_String (Commit_Hash (Bundle_Commit b)) <> A.
Proof.
  unfold offAllowlist, isCommitAllowListed. intros Hoff Hin Heq.
  assert (existsb (String.eqb (Hash_String (Commit_Hash (Bundle_Commit b))))
                  (Allowlist_Commits cfg) = true) as Hex.
  { apply existsb_exists. exists A. split; [exact Hin | now apply String.eqb_eq]. }
  congruence.
Qed.

(** C3, for the history walk: no bundle [Scan] hands to the matcher while
    walking the history belongs to a commit whose hash is on the allowlist of
    the configuration in force.  (The modes that name their commits do not
    consult the allowlist.) *)
Theorem C3_history_walk_skips_allowlisted :
  forall (repo : Repo) (w : World) (r : outcome (option error)) (w' : World),
    historyMode (Manager_Opts repo) = true ->
    Scan repo w = (r, w') ->
    exists new,
      added w w' new /\
      forall b A,
        In b new ->
        In A (Allowlist_Commits (config w')) ->
        Hash_String (Commit_Hash (Bundle_Commit b)) <> A.
Proof.
  intros repo w r w' Hmode H.
  unfold historyMode in Hmode.
  repeat (apply andb_true_iff in Hmode; destruct Hmode as [Hmode ?]).
  repeat match goal with
         | Hn : negb _ = true |- _ => apply negb_true_iff in Hn
         end.
  unfold Scan in H.
  destruct (setupTimeout repo).
  { inversion H; subst. exists []. split; [apply added_refl | contradiction]. }
  destruct (Repository_isNil repo).
  { inversion H; subst. exists []. split; [apply added_refl | contradiction]. }
  match goal with
  | H1 : _ = false, H2 : _ = false, H3 : _ = false, H4 : _ = false |- _ =>
      rewrite H1, H2, H3, H4 in H
  end.
  cbv iota in H.
  apply (configured_emits repo offAllowlist) in H.
  - destruct H as (new & Hadd & Hall). exists new. split; [exact Hadd|].
    intros b A Hb HA. eapply offAllowlist_neq; [|exact HA].
    rewrite Forall_forall in Hall. now apply Hall.
  - intros cfg. destruct (getLogOptions repo); [now apply emits_ret|].
    destruct (Log repo); [|now apply emits_ret].
    apply scanHistory_emits.
Qed.

(** The history walk of [Scan] returns nil whatever its [ForEach]
    returned. *)
Lemma scanHistory_returns_nil (repo : Repo) (cIter : list (result (option Commit)))
    (w : World) (err : option error) (w' : World) :
  scanHistory repo cIter w = (Returned err, w') -> err = None.
Proof.
  unfold scanHistory, bind, IncrementCommits, ret.
  destruct (ForEachCapturing cIter (walkCommit repo) 0 w) as [[[cc e]| | |] w1];
    intros H; now inversion H.
Qed.

(** C1, the code at two failing inputs: the walk over the sample history
    meets the error of reading the files of the root commit, and the walk
    over a log whose commit has no first parent in the store meets the error
    of resolving it; [ForEach] returns the error each time, and [Scan]
    returns nil. *)
Theorem C1_walk_error_is_dropped :
  (fst (ForEachCapturing sampleLog (walkCommit unreadableRepo) 0 (startWorld [])) =
     Returned (3, Some (Errorf "tree not found")) /\
   fst (Scan unreadableRepo (startWorld [])) = Returned None) /\
  (fst (ForEachCapturing [Ok (Some commitE)] (walkCommit danglingRepo) 0
                         (startWorld [])) =
     Returned (1, Some (Errorf "object not found")) /\
   fst (Scan danglingRepo (startWorld [])) = Returned None).
Proof. repeat split. Qed.

(** ** The parts of the state a scanner leaves alone *)

Section Keeps.

Variable repo : Repo.
Context {X : Type} (proj : World -> X).
Hypothesis proj_dispatched : forall w l, proj (set_dispatched w l) = proj w.
Hypothesis proj_polls : forall w n, proj (set_polls w n) = proj w.
Hypothesis proj_slots : forall w n, proj (set_slots w n) = proj w.
Hypothesis proj_waiting : forall w n, proj (set_waiting w n) = proj w.

Lemma keeps_ret {A} (a : A) : keeps proj (ret a).
Proof. intros w r w' H. now inversion H. Qed.

Lemma keeps_bind {A B} (m : M A) (k : A -> M B) :
  keeps proj m -> (forall a, keeps proj (k a)) -> keeps proj (bind m k).
Proof.
  intros Hm Hk w r w' H. unfold bind in H.
  destruct (m w) as [o w1] eqn:Hmw. apply Hm in Hmw.
  destruct o as [a|p|code|p]; try (inversion H; subst; exact Hmw).
  apply Hk in H. congruence.
Qed.

Lemma keeps_CheckRules (b : Bundle) : keeps proj (CheckRules repo b).
Proof.
  intros w r w' H. unfold CheckRules in H.
  destruct (matcherPanics repo b); inversion H; subst; apply proj_dispatched.
Qed.

Lemma keeps_timeoutReached : keeps proj (timeoutReached repo).
Proof. intros w r w' H. inversion H; subst. apply proj_polls. Qed.

Lemma keeps_recovering {A} (zero : A) (m : M A) :
  keeps proj m -> keeps proj (recovering zero m).
Proof.
  intros Hm w r w' H. unfold recovering in H.
  destruct (m w) as [o w1] eqn:Hmw. apply Hm in Hmw.
  destruct o; inversion H; subst; exact Hmw.
Qed.

Lemma keeps_go (f : M unit) : keeps proj f -> keeps proj (go_ f).
Proof.
  intros Hf w r w' H. unfold go_ in H.
  destruct (f w) as [o w1] eqn:Hfw. apply Hf in Hfw.
  destruct o; inversion H; subst; exact Hfw.
Qed.

Lemma keeps_ForEach {A} (iter : list (result A)) (cb : A -> M (option error)) :
  (forall a, keeps proj (cb a)) -> keeps proj (ForEach iter cb).
Proof.
  intros Hcb. induction iter as [|[a|e] rest IH]; simpl.
  - apply keeps_ret.
  - apply keeps_bind; [apply Hcb|].
    intros [[| | |msg]|]; trivial; apply keeps_ret.
  - apply keeps_ret.
Qed.

Lemma keeps_scanChunks (f : FilePatch) (chunks : list Chunk) :
  forall bundle, keeps proj (scanChunks repo f chunks bundle).
Proof.
  induction chunks as [|chunk rest IH]; intros bundle; cbn [scanChunks].
  - apply keeps_ret.
  - destruct (_ || _); [|apply IH].
    apply keeps_bind; [apply keeps_CheckRules | intros _; apply IH].
Qed.

Lemma keeps_scanFilePatches (fps : list FilePatch) :
  forall bundle, keeps proj (scanFilePatches repo fps bundle).
Proof.
  induction fps as [|f rest IH]; intros bundle; cbn [scanFilePatches].
  - apply keeps_ret.
  - apply keeps_bind; [apply keeps_timeoutReached|].
    intros [|]; [apply keeps_ret|].
    destruct (FilePatch_IsBinary f); [apply IH|].
    apply keeps_bind; [apply keeps_scanChunks | intros b; apply IH].
Qed.

Lemma keeps_scanPatch (patch : option Patch) (c : Commit) :
  keeps proj (scanPatch repo patch c).
Proof.
  destruct patch as [p|]; simpl.
  - apply keeps_scanFilePatches.
  - intros w r w' H. now inversion H.
Qed.

Lemma keeps_worker (c : Commit) (patch : option Patch) :
  keeps proj (worker repo c patch).
Proof.
  intros w r w' H. unfold worker, deferring in H.
  destruct (scanPatch repo patch c w) as [o w1] eqn:Hscan.
  apply keeps_scanPatch in Hscan.
  destruct o; inversion H; subst; trivial;
    unfold wg_Done, semaphore_receive; now rewrite proj_waiting, proj_slots.
Qed.

Lemma keeps_scanFilesAtCommit (c : Commit) : keeps proj (scanFilesAtCommit repo c).
Proof.
  unfold scanFilesAtCommit.
  destruct (Commit_Files repo c); [|apply keeps_ret].
  apply keeps_ForEach. intros f. unfold scanFile.
  destruct (File_IsBinary f) as [bin err].
  apply keeps_bind.
  - destruct bin; [apply keeps_ret | apply keeps_timeoutReached].
  - intros [|]; [apply keeps_ret|].
    destruct err; [apply keeps_ret|].
    destruct (File_Contents f); [|apply keeps_ret].
    apply keeps_bind; [apply keeps_CheckRules | intros _; apply keeps_ret].
Qed.

End Keeps.

(** C2, as the code has it: a worker starts with its slot of the semaphore
    taken and its hand-off counted by the wait group.  When the scan of the
    patch panics inside it, the deferred function of the worker still gives
    the slot back and signals the wait group (each counter ends one lower
    than the worker found it, and what the scan had handed to the matcher
    stays), but nothing recovers the panic: it leaves the worker, which
    brings the process down, and the deferred [recover] of the walk's
    callback does not stop that. *)
Theorem C2_worker_panic_releases_slot_and_propagates :
  forall (repo : Repo) (c : Commit) (patch : option Patch) (w : World)
         (p : panic) (w1 : World),
    (0 < slots w)%nat ->
    (0 < waiting w)%nat ->
    scanPatch repo patch c w = (Panicked p, w1) ->
    exists w',
      worker repo c patch w = (Panicked p, w') /\
      S (slots w') = slots w /\
      S (waiting w') = waiting w /\
      dispatched w' = dispatched w1 /\
      go_ (worker repo c patch) w = (Crashed p, w') /\
      recovering (@None error) (go_ (worker repo c patch) ;;; ret None) w =
        (Crashed p, w').
Proof.
  intros repo c patch w p w1 Hslot Hcount H.
  pose proof (keeps_scanPatch repo slots (fun _ _ => eq_refl) (fun _ _ => eq_refl)
                              _ _ _ _ _ H) as Hslots.
  pose proof (keeps_scanPatch repo waiting (fun _ _ => eq_refl) (fun _ _ => eq_refl)
                              _ _ _ _ _ H) as Hwaiting.
  exists (wg_Done (semaphore_receive w1)).
  assert (worker repo c patch w = (Panicked p, wg_Done (semaphore_receive w1))) as Hw
    by (unfold worker, deferring; now rewrite H).
  assert (go_ (worker repo c patch) w = (Crashed p, wg_Done (semaphore_receive w1))) as Hg
    by (unfold go_; now rewrite Hw).
  split; [exact Hw|].
  split; [cbn [slots wg_Done semaphore_receive set_slots set_waiting]; lia|].
  split; [cbn [waiting wg_Done semaphore_receive set_slots set_waiting]; lia|].
  split; [reflexivity|].
  split; [exact Hg|].
  unfold recovering, bind. now rewrite Hg.
Qed.

(** ** The history walk *)

Section Walk.

Variable repo : Repo.

Lemma keeps_commits_walkCommit (c : option Commit) (cc : Z) :
  keeps commits (walkCommit repo c cc).
Proof.
  destruct c as [c|]; simpl; [|apply keeps_ret].
  apply keeps_bind; [now apply keeps_timeoutReached|].
  intros timeout. destruct (_ || _); [apply keeps_ret|].
  intros w r w' H. unfold walkEnter in H.
  destruct (isCommitAllowListed _ _); [now inversion H|].
  destruct (_ =? _)%nat.
  - revert H. apply keeps_bind; [now apply keeps_scanFilesAtCommit|].
    intros err. apply keeps_ret.
  - destruct (Commit_Parent repo c 0) as [parent|e]; [|now inversion H].
    revert H. apply keeps_bind; [|intros err; apply keeps_ret].
    unfold walkPatch. apply keeps_recovering.
    apply keeps_bind; [now apply keeps_timeoutReached|].
    intros [|]; [apply keeps_ret|].
    destruct parent as [parent|]; [|apply keeps_ret].
    apply keeps_bind; [intros w0 r0 w0' H0; now inversion H0|]. intros patch.
    apply keeps_bind; [intros w0 r0 w0' H0; now inversion H0|]. intros _.
    apply keeps_bind; [intros w0 r0 w0' H0; now inversion H0|]. intros _.
    apply keeps_bind; [now apply keeps_go, keeps_worker|]. intros _.
    destruct (String.eqb _ _); apply keeps_ret.
Qed.

(** Past a prefix the walk goes through, [ForEach] carries on with the
    rest. *)
Lemma ForEachCapturing_walkThrough (pre rest : list (result (option Commit))) :
  forall cc w cc' w',
    walkThrough repo pre cc w = Some (cc', w') ->
    ForEachCapturing (pre ++ rest) (walkCommit repo) cc w =
    ForEachCapturing rest (walkCommit repo) cc' w'.
Proof.
  induction pre as [|[c|e] pre IH]; intros cc w cc' w' H; cbn [walkThrough] in H.
  - now inversion H.
  - cbn [app ForEachCapturing]. unfold bind at 1.
    destruct (walkCommit repo c cc w) as [[[cc1 [e|]]| | |] w1]; try discriminate.
    cbn [fst snd]. now apply IH.
  - discriminate.
Qed.

(** The counter after the callback let a commit in: one more unless the
    commit is on the allowlist. *)
Lemma walkEnter_counter (c : Commit) (cc : Z) (w : World) (cc' : Z)
    (err : option error) (w' : World) :
  walkEnter repo c cc w = (Returned (cc', err), w') ->
  cc' = if isCommitAllowListed (Hash_String (Commit_Hash c))
                               (Allowlist_Commits (config w))
        then cc else cc + 1.
Proof.
  unfold walkEnter.
  destruct (isCommitAllowListed _ _); [intros H; now inversion H|].
  destruct (_ =? _)%nat.
  - unfold bind, ret. destruct (scanFilesAtCommit repo c w) as [[e| | |] w1];
      intros H; now inversion H.
  - destruct (Commit_Parent repo c 0) as [parent|e]; [|intros H; now inversion H].
    unfold bind, ret. destruct (walkPatch repo c parent w) as [[e| | |] w1];
      intros H; now inversion H.
Qed.


Lemma countEntering_cons (cfg : Config) (item : result (option Commit))
    (cIter : list (result (option Commit))) :
  countEntering cfg (item :: cIter) =
  (if entering cfg item then 1 else 0) + countEntering cfg cIter.
Proof.
  unfold countEntering. cbn [filter].
  destruct (entering cfg item); cbn [List.length]; lia.
Qed.


End Walk.

(** The callback of the walk at the commit named by [Opts.CommitTo]: the
    commit is handed to a worker and the callback asks [ForEach] to stop,
    unless the worker brought the process down. *)
Lemma walkCommit_commitTo (repo : Repo) (H : Commit) (cc : Z) (w1 : World)
    (parent : Commit) (r : option Patch * option error) :
  Opts_CommitTo (Manager_Opts repo) = Hash_String (Commit_Hash H) ->
  timeoutAt repo (polls w1) = false ->
  timeoutAt repo (S (polls w1)) = false ->
  depthReached repo cc = false ->
  isCommitAllowListed (Hash_String (Commit_Hash H)) (Allowlist_Commits (config w1)) = false ->
  Commit_Parent repo H 0 = Ok (Some parent) ->
  Commit_Patch repo parent H = Returned r ->
  exists o w2,
    walkCommit repo (Some H) cc w1 = (o, w2) /\
    In H (launched w2) /\
    (o = Returned (cc + 1, Some ErrStop) \/
     (exists p, o = Crashed p) \/ (exists code, o = Exited code)).
Proof.
  intros Hto Ht1 Ht2 Hdepth Hallow Hparent Hpatch.
  assert ((List.length (Commit_ParentHashes H) =? 0)%nat = false) as Hlen.
  { unfold Commit_Parent in Hparent.
    destruct (Commit_ParentHashes H); [discriminate | reflexivity]. }
  unfold walkCommit, bind at 1, timeoutReached at 1.
  rewrite Ht1, Hdepth. cbn [orb].
  unfold walkEnter. cbn [config set_polls].
  rewrite Hallow, Hlen, Hparent.
  unfold bind at 1, walkPatch, recovering, bind at 1, timeoutReached.
  cbn [polls set_polls]. rewrite Ht2.
  unfold bind at 1, Patch_of. rewrite Hpatch.
  unfold bind at 1. unfold bind at 1. unfold bind at 1, go_.
  rewrite Hto, String.eqb_refl.
  match goal with
  | |- context [worker repo H (fst r) ?W] =>
      destruct (worker repo H (fst r) W) as [o w2] eqn:Hworker;
      assert (In H (launched w2)) as Hin
        by (rewrite (keeps_worker repo launched
                       (fun _ _ => eq_refl) (fun _ _ => eq_refl)
                       (fun _ _ => eq_refl) (fun _ _ => eq_refl)
                       H (fst r) _ _ _ Hworker);
            cbn [launched set_launched]; apply in_or_app; right; now left)
  end.
  destruct o as [[]|p|code|p]; do 2 eexists; (split; [reflexivity|]);
    (split; [exact Hin|]); eauto.
Qed.

(** C4, as the code has it: when the walk gets as far as the commit H named
    by [Opts.CommitTo] (it goes through every earlier item), the deadline and
    the depth have not been reached there, H is not on the allowlist, its
    first parent resolves and patch generation returns, then H is handed to a
    worker and the walk ends there: the scan is the scan of the log cut
    after H, so no later commit is entered. *)
Theorem C4_commitTo_ends_walk_after_handoff :
  forall (repo : Repo) (pre : list (result (option Commit))) (H : Commit)
         (post : list (result (option Commit))) (w : World) (cc : Z) (w1 : World)
         (parent : Commit) (r : option Patch * option error),
    Opts_CommitTo (Manager_Opts repo) = Hash_String (Commit_Hash H) ->
    walkThrough repo pre 0 w = Some (cc, w1) ->
    timeoutAt repo (polls w1) = false ->
    timeoutAt repo (S (polls w1)) = false ->
    depthReached repo cc = false ->
    isCommitAllowListed (Hash_String (Commit_Hash H))
                        (Allowlist_Commits (config w1)) = false ->
    Commit_Parent repo H 0 = Ok (Some parent) ->
    Commit_Patch repo parent H = Returned r ->
    scanHistory repo (pre ++ Ok (Some H) :: post) w =
      scanHistory repo (pre ++ [Ok (Some H)]) w /\
    In H (launched (snd (scanHistory repo (pre ++ Ok (Some H) :: post) w))).
Proof.
  intros repo pre H post w cc w1 parent r Hto Hpre Ht1 Ht2 Hdepth Hallow Hparent Hpatch.
  destruct (walkCommit_commitTo repo H cc w1 parent r Hto Ht1 Ht2 Hdepth Hallow
                                Hparent Hpatch)
    as (o & w2 & Hstep & Hin & Ho).
  unfold scanHistory.
  unfold bind at 1 3 5.
  rewrite !(ForEachCapturing_walkThrough repo pre _ 0 w cc w1 Hpre).
  cbn [ForEachCapturing]. unfold bind at 1 3 5. rewrite Hstep.
  destruct Ho as [-> | [[p ->] | [code ->]]]; cbn; auto.
Qed.


(** ** The claims at the sample repositories *)

Lemma C10_witness :
  git_diff_cached (sampleWorktree warningOutput) = (warningOutput, None) /\
  getStagedChanges (sampleWorktree warningOutput) (startWorld []) =
    (Panicked (IndexOutOfRange 1 1), startWorld []).
Proof.
  split; [reflexivity|].
  apply (proj1 (C10_getStagedChanges_total_iff_tabs
                  (sampleWorktree warningOutput) warningOutput (startWorld [])
                  eq_refl)).
  exists warningLine. split; [left; reflexivity | split; reflexivity].
Defined.

Lemma C6_witness :
  Commit_ParentHashes commitA = [] /\
  scanCommitPatches singleCommitRepo commitA (startWorld []) =
  scanFilesAtCommit singleCommitRepo commitA (startWorld []).
Proof.
  split; [reflexivity|].
  apply (C6_root_scanCommitPatches_is_scanFilesAtCommit singleCommitRepo commitA).
  reflexivity.
Defined.

Lemma C7_witness :
  exists new,
    added (startWorld []) (snd (scanUncommitted stagedRepo (startWorld []))) new /\
    Forall (fun b => isSentinel (Bundle_Commit b)) new.
Proof.
  apply (C7_staged_bundles_carry_sentinel
           stagedRepo (startWorld [])
           (fst (scanUncommitted stagedRepo (startWorld [])))).
  apply surjective_pairing.
Defined.


Lemma C9_counterexample_tree_lookup_error_is_swallowed :
  Commit_Tree failingTreeRepo (stageCommit commitC) = Ok failingTree /\
  Tree_File failingTree "foo.txt" = Err (Errorf "unexpected EOF") /\
  fst (scanUncommitted failingTreeRepo (startWorld [])) = Returned None /\
  map Bundle_FilePath (dispatched (snd (scanUncommitted failingTreeRepo (startWorld [])))) =
    ["foo.txt"; "new.txt"] /\
  map Bundle_Content (dispatched (snd (scanUncommitted failingTreeRepo (startWorld [])))) =
    ["a" ++ nl ++ "SECRET" ++ nl ++ "b" ++ nl ++ nl; "token" ++ nl ++ nl].
Proof. repeat split. Qed.

Lemma C9_witness :
  scanEmptyLoop stagedRepo (sampleWorktree stagedOutput) ["gone.txt"; "new.txt"]
                (startWorld []) =
  scanEmptyLoop stagedRepo (sampleWorktree stagedOutput) ["new.txt"] (startWorld []) /\
  stagedLoop stagedRepo (stageCommit commitC) brokenTree (sampleWorktree stagedOutput)
             ["bad.txt"; "new.txt"] (startWorld []) =
  (Returned (Some (Errorf "read error")), startWorld []) /\
  stagedLoop stagedRepo (stageCommit commitC) brokenTree (sampleWorktree stagedOutput)
             ["foo.txt"; "new.txt"] (startWorld []) =
  (Returned (Some (Errorf "blob not found")), startWorld []) /\
  stagedLoop stagedRepo (stageCommit commitC) failingTree (sampleWorktree stagedOutput)
             ["foo.txt"; "new.txt"] (startWorld []) =
  (CheckRules stagedRepo
     (mkBundle (stageCommit commitC) ""
        ("a" ++ nl ++ "SECRET" ++ nl ++ "b" ++ nl ++ nl) "foo.txt" Equal uncommittedScan) ;;;
   stagedLoop stagedRepo (stageCommit commitC) failingTree (sampleWorktree stagedOutput)
              ["new.txt"]) (startWorld []).
Proof.
  split; [|split; [|split]].
  - destruct (C9_open_or_lookup_failure_goes_on_read_errors_abort
                stagedRepo (stageCommit commitC) brokenTree
                (sampleWorktree stagedOutput) "gone.txt" ["new.txt"] (startWorld []))
      as (Hopen & _).
    exact (proj1 (Hopen (Errorf "file does not exist") eq_refl)).
  - destruct (C9_open_or_lookup_failure_goes_on_read_errors_abort
                stagedRepo (stageCommit commitC) brokenTree
                (sampleWorktree stagedOutput) "bad.txt" ["new.txt"] (startWorld []))
      as (_ & Hcopy & _).
    exact (proj2 (Hcopy (mkWorktreeFile "bad.txt" (Err (Errorf "read error")))
                        (Errorf "read error") eq_refl eq_refl)).
  - destruct (C9_open_or_lookup_failure_goes_on_read_errors_abort
                stagedRepo (stageCommit commitC) brokenTree
                (sampleWorktree stagedOutput) "foo.txt" ["new.txt"] (startWorld []))
      as (_ & _ & Hcontents & _).
    exact (Hcontents _ _ _ (Errorf "blob not found") eq_refl eq_refl eq_refl eq_refl).
  - destruct (C9_open_or_lookup_failure_goes_on_read_errors_abort
                stagedRepo (stageCommit commitC) failingTree
                (sampleWorktree stagedOutput) "foo.txt" ["new.txt"] (startWorld []))
      as (_ & _ & _ & Hlookup & _).
    exact (Hlookup _ _ (Errorf "unexpected EOF") eq_refl eq_refl eq_refl).
Defined.

Lemma C3_counterexample_named_commit_on_allowlist :
  let w' := snd (Scan singleCommitRepo (startWorld [Hash_String hashA])) in
  Opts_Commit (Manager_Opts singleCommitRepo) = Hash_String hashA /\
  In (Hash_String hashA) (Allowlist_Commits (config w')) /\
  exists b,
    In b (dispatched w') /\
    Hash_String (Commit_Hash (Bundle_Commit b)) = Hash_String hashA.
Proof.
  cbv zeta. split; [reflexivity|]. split; [vm_compute; now left|].
  eexists. split; [vm_compute; left; reflexivity | reflexivity].
Qed.

Lemma C3_witness :
  historyMode (Manager_Opts (historyRepo "" 0)) = true /\
  exists new,
    added (startWorld [Hash_String hashB])
          (snd (Scan (historyRepo "" 0) (startWorld [Hash_String hashB]))) new /\
    forall b A,
      In b new ->
      In A (Allowlist_Commits
              (config (snd (Scan (historyRepo "" 0) (startWorld [Hash_String hashB]))))) ->
      Hash_String (Commit_Hash (Bundle_Commit b)) <> A.
Proof.
  split; [reflexivity|].
  apply (C3_history_walk_skips_allowlisted
           (historyRepo "" 0) (startWorld [Hash_String hashB])
           (fst (Scan (historyRepo "" 0) (startWorld [Hash_String hashB])))).
  - reflexivity.
  - apply surjective_pairing.
Defined.

Lemma C2_counterexample_worker_panic_crashes :
  scanPatch nilPatchRepo None commitC (handedOff (startWorld [])) =
    (Panicked NilDereference, handedOff (startWorld [])) /\
  fst (worker nilPatchRepo commitC None (handedOff (startWorld []))) =
    Panicked NilDereference /\
  fst (Scan nilPatchRepo (startWorld [])) = Crashed NilDereference /\
  launched (snd (Scan nilPatchRepo (startWorld []))) = [commitC].
Proof. repeat split. Qed.

Lemma C2_witness :
  slots (handedOff (startWorld [])) = 1%nat /\
  waiting (handedOff (startWorld [])) = 1%nat /\
  exists w1 w',
    scanPatch matcherPanicRepo (Some samplePatch) commitC (handedOff (startWorld [])) =
      (Panicked MatcherPanic, w1) /\
    List.length (dispatched w1) = 1%nat /\
    go_ (worker matcherPanicRepo commitC (Some samplePatch)) (handedOff (startWorld [])) =
      (Crashed MatcherPanic, w') /\
    slots w' = 0%nat /\
    waiting w' = 0%nat /\
    dispatched w' = dispatched w1.
Proof.
  split; [reflexivity|]. split; [reflexivity|].
  destruct (C2_worker_panic_releases_slot_and_propagates
              matcherPanicRepo commitC (Some samplePatch) (handedOff (startWorld []))
              MatcherPanic
              (snd (scanPatch matcherPanicRepo (Some samplePatch) commitC
                              (handedOff (startWorld [])))))
    as (w' & _ & Hslots & Hwaiting & Hdispatched & Hgo & _).
  - cbn. lia.
  - cbn. lia.
  - reflexivity.
  - exists (snd (scanPatch matcherPanicRepo (Some samplePatch) commitC
                           (handedOff (startWorld [])))), w'.
    split; [reflexivity|]. split; [reflexivity|]. split; [exact Hgo|].
    cbn [handedOff slots waiting semaphore_send wg_Add set_slots set_waiting startWorld]
      in Hslots, Hwaiting.
    split; [lia|]. split; [lia|]. exact Hdispatched.
Defined.

Lemma C4_counterexample_commitTo_not_handed_off_or_walk_goes_on :
  (let repo := historyRepo (Hash_String hashC) 0 in
   let w' := snd (Scan repo (startWorld [Hash_String hashC])) in
   Opts_CommitTo (Manager_Opts repo) = Hash_String (Commit_Hash commitC) /\
   Log repo = Ok [Ok (Some commitC); Ok (Some commitB); Ok (Some commitA)] /\
   launched w' = [commitB] /\
   map Bundle_Commit (dispatched w') = [commitB; commitA]) /\
  (let w' := snd (Scan orphanRepo (startWorld [])) in
   Opts_CommitTo (Manager_Opts orphanRepo) = Hash_String (Commit_Hash commitD) /\
   Log orphanRepo =
     Ok [Ok (Some commitD); Ok (Some commitC); Ok (Some commitB); Ok (Some commitA)] /\
   launched w' = [commitC; commitB] /\
   map Bundle_Commit (dispatched w') = [commitD; commitC; commitB; commitA]) /\
  (let repo := historyRepo (Hash_String hashB) 1 in
   let w' := snd (Scan repo (startWorld [])) in
   Opts_CommitTo (Manager_Opts repo) = Hash_String (Commit_Hash commitB) /\
   Opts_Depth (Manager_Opts repo) = 1 /\
   launched w' = [commitC] /\
   map Bundle_Commit (dispatched w') = [commitC]).
Proof. repeat split. Qed.

Lemma C4_witness :
  Opts_CommitTo (Manager_Opts (historyRepo (Hash_String hashB) 0)) =
    Hash_String (Commit_Hash commitB) /\
  scanHistory (historyRepo (Hash_String hashB) 0)
              ([Ok (Some commitC)] ++ Ok (Some commitB) :: [Ok (Some commitA)])
              (startWorld []) =
  scanHistory (historyRepo (Hash_String hashB) 0)
              ([Ok (Some commitC)] ++ [Ok (Some commitB)]) (startWorld []) /\
  In commitB
     (launched
        (snd (scanHistory (historyRepo (Hash_String hashB) 0)
                          ([Ok (Some commitC)] ++ Ok (Some commitB) :: [Ok (Some commitA)])
                          (startWorld [])))).
Proof.
  split; [reflexivity|].
  eapply (C4_commitTo_ends_walk_after_handoff
            (historyRepo (Hash_String hashB) 0) [Ok (Some commitC)] commitB
            [Ok (Some commitA)] (startWorld [])); reflexivity.
Defined.



(* ------------------------------------------------------------------ *)
(** * Further properties of the scan driver and of the report *)


(** ** After the deadline *)

Section Quiet.

Variable repo : Repo.

Lemma expired_later (w w' : World) :
  expired repo w -> (polls w <= polls w')%nat -> expired repo w'.
Proof. intros H Hle n Hn. apply H. lia. Qed.

Lemma quiet_ret {A} (Q : A -> Prop) (a : A) : Q a -> quiet repo Q (ret a).
Proof.
  intros HQ w r w' _ H. inversion H; subst. repeat split; trivial.
  intros a' Ha. now inversion Ha; subst.
Qed.

Lemma quiet_bind {A B} (Q : A -> Prop) (R : B -> Prop) (m : M A) (k : A -> M B) :
  quiet repo Q m -> (forall a, Q a -> quiet repo R (k a)) -> quiet repo R (bind m k).
Proof.
  intros Hm Hk w r w' Hexp H. unfold bind in H.
  destruct (m w) as [o w1] eqn:Hmw.
  destruct (Hm _ _ _ Hexp Hmw) as (Hd & Hp & Hval).
  destruct o as [a|p|code|p];
    try (inversion H; subst; repeat split; trivial; discriminate).
  destruct (Hk a (Hval a eq_refl) _ _ _ (expired_later _ _ Hexp Hp) H)
    as (Hd2 & Hp2 & Hval2).
  repeat split; trivial; [congruence | lia].
Qed.

Lemma quiet_update (f : World -> World) :
  (forall w, dispatched (f w) = dispatched w) ->
  (forall w, polls (f w) = polls w) ->
  quiet repo any (fun w => (Returned tt, f w)).
Proof.
  intros Hd Hp w r w' _ H. inversion H; subst.
  rewrite Hd, Hp. repeat split; trivial.
Qed.

Lemma quiet_raise {A} (Q : A -> Prop) (p : panic) : quiet repo Q (raise p).
Proof.
  intros w r w' _ H. inversion H; subst. repeat split; trivial. discriminate.
Qed.

Lemma quiet_timeoutReached : quiet repo (fun timeout => timeout = true) (timeoutReached repo).
Proof.
  intros w r w' Hexp H. inversion H; subst. cbn [dispatched polls set_polls].
  repeat split; [lia|]. intros a Ha. inversion Ha; subst. now apply Hexp.
Qed.

Lemma quiet_recovering {A} (Q : A -> Prop) (zero : A) (m : M A) :
  quiet repo Q m -> Q zero -> quiet repo Q (recovering zero m).
Proof.
  intros Hm Hz w r w' Hexp H. unfold recovering in H.
  destruct (m w) as [o w1] eqn:Hmw.
  destruct (Hm _ _ _ Hexp Hmw) as (Hd & Hp & Hval).
  destruct o; inversion H; subst; repeat split; trivial.
  intros a Ha. now inversion Ha; subst.
Qed.

Lemma quiet_ForEach {A} (iter : list (result A)) (cb : A -> M (option error)) :
  (forall a, quiet repo any (cb a)) -> quiet repo any (ForEach iter cb).
Proof.
  intros Hcb. induction iter as [|[a|e] rest IH]; simpl.
  - now apply quiet_ret.
  - eapply quiet_bind; [apply Hcb|].
    intros [[| | |msg]|] _; trivial; now apply quiet_ret.
  - now apply quiet_ret.
Qed.

Lemma quiet_ForEachCapturing {A V} (iter : list (result A))
    (cb : A -> V -> M (V * option error)) :
  (forall a v, quiet repo any (cb a v)) ->
  forall v, quiet repo any (ForEachCapturing iter cb v).
Proof.
  intros Hcb. induction iter as [|[a|e] rest IH]; simpl; intros v.
  - now apply quiet_ret.
  - eapply quiet_bind; [apply Hcb|].
    intros [v' [[| | |msg]|]] _; simpl; trivial; now apply quiet_ret.
  - now apply quiet_ret.
Qed.

Lemma quiet_scanPatch (patch : option Patch) (c : Commit) :
  quiet repo any (scanPatch repo patch c).
Proof.
  destruct patch as [p|]; simpl; [|apply quiet_raise].
  destruct (Patch_FilePatches p) as [|f rest]; cbn [scanFilePatches].
  - now apply quiet_ret.
  - eapply quiet_bind; [apply quiet_timeoutReached|].
    intros timeout ->. now apply quiet_ret.
Qed.

Lemma quiet_scanFilesAtCommit (c : Commit) : quiet repo any (scanFilesAtCommit repo c).
Proof.
  unfold scanFilesAtCommit.
  destruct (Commit_Files repo c); [|now apply quiet_ret].
  apply quiet_ForEach. intros f. unfold scanFile.
  destruct (File_IsBinary f) as [bin err].
  eapply quiet_bind with (Q := fun skip => skip = true).
  - destruct bin; [now apply quiet_ret | apply quiet_timeoutReached].
  - intros skip ->. now apply quiet_ret.
Qed.

Lemma quiet_scanCommitPatches (c : Commit) : quiet repo any (scanCommitPatches repo c).
Proof.
  assert (quiet repo any
            (ForEach (Commit_Parents repo c)
                     (fun parent => scanParent repo c (Some parent)))) as Hparents.
  { apply quiet_ForEach. intros parent. unfold scanParent.
    apply quiet_recovering; [|exact I].
    eapply quiet_bind; [apply quiet_timeoutReached|].
    intros timeout ->. now apply quiet_ret. }
  unfold scanCommitPatches. destruct (_ =? _)%nat; [|exact Hparents].
  eapply quiet_bind; [apply quiet_scanFilesAtCommit|].
  intros [e|] _; [now apply quiet_ret | exact Hparents].
Qed.

Lemma quiet_scanCommit (commit : string) (f : Commit -> M (option error)) :
  (forall c, quiet repo any (f c)) -> quiet repo any (scanCommit repo commit f).
Proof.
  intros Hf.
  assert (forall s,
             quiet repo any
               (IncrementCommits 1 ;;;
                match CommitObject repo (NewHash s) with
                | Err e => ret (Some e)
                | Ok c => f c
                end)) as Hresolved.
  { intros s. eapply quiet_bind; [now apply quiet_update|].
    intros _ _. destruct (CommitObject repo (NewHash s)); [apply Hf | now apply quiet_ret]. }
  unfold scanCommit. destruct (String.eqb commit "latest"); [|apply Hresolved].
  destruct (Head repo); [apply Hresolved | now apply quiet_ret].
Qed.

Lemma quiet_scanCommits (commits : list string) : quiet repo any (scanCommits repo commits).
Proof.
  induction commits as [|c rest IH]; cbn [scanCommits].
  - now apply quiet_ret.
  - eapply quiet_bind; [apply quiet_scanCommit, quiet_scanCommitPatches|].
    intros [e|] _; [now apply quiet_ret | exact IH].
Qed.

Lemma quiet_scanHistory (cIter : list (result (option Commit))) :
  quiet repo any (scanHistory repo cIter).
Proof.
  unfold scanHistory.
  eapply quiet_bind.
  - apply quiet_ForEachCapturing. intros [c|] cc; simpl; [|now apply quiet_ret].
    eapply quiet_bind; [apply quiet_timeoutReached|].
    intros timeout ->. now apply quiet_ret.
  - intros r _. eapply quiet_bind; [now apply quiet_update|].
    intros _ _. now apply quiet_ret.
Qed.

End Quiet.

(** X1: once the deadline has passed, [Scan] hands nothing to the matcher,
    whichever mode the options select. *)
Theorem X1_expired_deadline_scans_nothing :
  forall (repo : Repo) (w : World) (r : outcome (option error)) (w' : World),
    expired repo w ->
    Scan repo w = (r, w') ->
    dispatched w' = dispatched w.
Proof.
  intros repo w r w' Hexp H.
  assert (quiet repo any (Scan repo)) as Hquiet; [|now apply (Hquiet w r w' Hexp H)].
  unfold Scan.
  destruct (setupTimeout repo); [now apply quiet_ret|].
  destruct (Repository_isNil repo); [now apply quiet_ret|].
  assert (forall k, quiet repo any k ->
                    quiet repo any
                      (if Opts_RepoConfig (Manager_Opts repo) then
                         match loadRepoConfig repo with
                         | Err e => ret (Some e)
                         | Ok cfg => (fun w => (Returned tt, set_config w cfg)) ;;; k
                         end
                       else k)) as Hconfigured.
  { intros k Hk. destruct (Opts_RepoConfig (Manager_Opts repo)); [|exact Hk].
    destruct (loadRepoConfig repo); [|now apply quiet_ret].
    eapply quiet_bind; [now apply quiet_update | intros _ _; exact Hk]. }
  apply Hconfigured.
  destruct (nonempty (Opts_Commit _)); [apply quiet_scanCommit, quiet_scanCommitPatches|].
  destruct (nonempty (Opts_FilesAtCommit _));
    [apply quiet_scanCommit, quiet_scanFilesAtCommit|].
  destruct (nonempty (Opts_Commits _)); [apply quiet_scanCommits|].
  destruct (nonempty (Opts_CommitsFile _)).
  - destruct (CommitsFile_Open repo); [apply quiet_scanCommits | now apply quiet_ret].
  - destruct (getLogOptions repo); [now apply quiet_ret|].
    destruct (Log repo); [apply quiet_scanHistory | now apply quiet_ret].
Qed.

(** ** What the staged scan leaves alone *)

Section StagedFrame.

Variable repo : Repo.
Context {X : Type} (proj : World -> X).
Hypothesis proj_dispatched : forall w l, proj (set_dispatched w l) = proj w.
Hypothesis proj_config : forall w cfg, proj (set_config w cfg) = proj w.

Lemma keeps_getStagedChanges (wt : Worktree) : keeps proj (getStagedChanges wt).
Proof.
  intros w r w' H. unfold getStagedChanges in H.
  destruct (git_diff_cached wt) as [output [e|]]; [now inversion H|].
  destruct (stagedFilesLoop _ _); now inversion H.
Qed.

Lemma keeps_scanEmptyLoop (wt : Worktree) (status : list string) :
  keeps proj (scanEmptyLoop repo wt status).
Proof.
  induction status as [|fn rest IH]; cbn [scanEmptyLoop].
  - apply keeps_ret.
  - destruct (Filesystem_Open wt fn) as [workTreeFile|]; [|exact IH].
    destruct (WorktreeFile_Copy workTreeFile); [|apply keeps_ret].
    apply keeps_bind; [now apply keeps_CheckRules | intros _; exact IH].
Qed.

Lemma keeps_stagedLoop (c : Commit) (prevTree : Tree) (wt : Worktree)
    (status : list string) :
  keeps proj (stagedLoop repo c prevTree wt status).
Proof.
  induction status as [|fn rest IH]; cbn [stagedLoop].
  - apply keeps_ret.
  - destruct (Filesystem_Open wt fn) as [workTreeFile|]; [|exact IH].
    destruct (WorktreeFile_Copy workTreeFile); [|apply keeps_ret].
    destruct (Tree_File prevTree fn) as [prevFile|].
    + destruct (TreeFile_Contents prevFile); [|apply keeps_ret].
      apply keeps_bind; [now apply keeps_CheckRules | intros _; exact IH].
    + apply keeps_bind; [now apply keeps_CheckRules | intros _; exact IH].
Qed.

Lemma keeps_scanUncommitted : keeps proj (scanUncommitted repo).
Proof.
  unfold scanUncommitted.
  assert (forall k : M (option error),
             keeps proj k ->
             keeps proj
               (if Opts_RepoConfig (Manager_Opts repo) then
                  match loadRepoConfig repo with
                  | Err e => ret (Some e)
                  | Ok cfg => (fun w => (Returned tt, set_config w cfg)) ;;; k
                  end
                else k)) as Hconfigured.
  { intros k Hk. destruct (Opts_RepoConfig (Manager_Opts repo)); [|exact Hk].
    destruct (loadRepoConfig repo); [|apply keeps_ret].
    apply keeps_bind; [|intros _; exact Hk].
    intros w r w' H. inversion H; subst. apply proj_config. }
  apply Hconfigured.
  destruct (setupTimeout repo); [apply keeps_ret|].
  destruct (Head repo) as [h|[]]; try apply keeps_ret.
  - destruct (CommitObject repo h) as [c|]; [|apply keeps_ret].
    destruct (Commit_Tree repo (stageCommit c)) as [prevTree|]; [|apply keeps_ret].
    destruct (Repo_Worktree repo) as [wt|]; [|apply keeps_ret].
    apply keeps_bind; [apply keeps_getStagedChanges|]. intros r.
    apply keeps_bind; [apply keeps_stagedLoop|].
    intros [e|]; apply keeps_ret.
  - unfold scanEmpty.
    destruct (Repo_Worktree repo) as [wt|]; [|apply keeps_ret].
    destruct (Worktree_Status wt); [|apply keeps_ret].
    apply keeps_scanEmptyLoop.
Qed.

End StagedFrame.

(** X2: a staged scan never polls the deadline, never touches the commit
    counter and starts no worker: of the state only the bundles handed over
    and [repo.config] can differ afterwards. *)
Theorem X2_staged_scan_ignores_deadline_and_counter :
  forall (repo : Repo) (w : World) (r : outcome (option error)) (w' : World),
    scanUncommitted repo w = (r, w') ->
    polls w' = polls w /\ commits w' = commits w /\ launched w' = launched w /\
    slots w' = slots w /\ waiting w' = waiting w.
Proof.
  intros repo w r w' H.
  repeat split;
    refine (keeps_scanUncommitted repo _ _ _ w r w' H); reflexivity.
Qed.

(** ** The counter of the walk and the depth *)

Lemma walkCommit_counter_step (repo : Repo) (k : Z) (c : option Commit) (cc : Z)
    (w : World) (cc' : Z) (err : option error) (w' : World) :
  Opts_Depth (Manager_Opts repo) = k ->
  0 < k ->
  0 <= cc <= k ->
  walkCommit repo c cc w = (Returned (cc', err), w') ->
  cc <= cc' <= k.
Proof.
  intros Hk Hpos Hcc H. destruct c as [c|]; simpl in H; [|inversion H; lia].
  unfold bind, timeoutReached in H.
  destruct (timeoutAt repo (polls w)); cbn [orb] in H; [inversion H; lia|].
  unfold depthReached in H. rewrite Hk in H.
  replace (k =? 0) with false in H by (symmetry; apply Z.eqb_neq; lia).
  cbn [negb andb] in H.
  destruct (k =? cc) eqn:Hreached; [inversion H; lia|].
  apply Z.eqb_neq in Hreached.
  apply walkEnter_counter in H.
  destruct (isCommitAllowListed _ _); lia.
Qed.

Lemma walk_counter_capped (repo : Repo) (k : Z) (cIter : list (result (option Commit))) :
  Opts_Depth (Manager_Opts repo) = k ->
  0 < k ->
  forall cc w cc' err w',
    0 <= cc <= k ->
    ForEachCapturing cIter (walkCommit repo) cc w = (Returned (cc', err), w') ->
    cc <= cc' <= k /\ commits w' = commits w.
Proof.
  intros Hk Hpos.
  induction cIter as [|[c|e] rest IH]; intros cc w cc' err w' Hcc H;
    cbn [ForEachCapturing] in H.
  - inversion H; subst. split; [lia | reflexivity].
  - unfold bind in H.
    destruct (walkCommit repo c cc w) as [[[cc1 e1]| | |] w1] eqn:Hstep;
      try discriminate.
    pose proof (walkCommit_counter_step repo k c cc w cc1 e1 w1 Hk Hpos Hcc Hstep)
      as Hcc1.
    pose proof (keeps_commits_walkCommit repo c cc _ _ _ Hstep) as Hkeep.
    cbn [fst snd] in H. destruct e1 as [[| | |msg]|].
    + inversion H; subst. split; [lia | exact Hkeep].
    + inversion H; subst. split; [lia | exact Hkeep].
    + inversion H; subst. split; [lia | exact Hkeep].
    + inversion H; subst. split; [lia | exact Hkeep].
    + destruct (IH cc1 w1 cc' err w') as [Hle Hc]; [lia | exact H|].
      split; [lia | congruence].
  - inversion H; subst. split; [lia | reflexivity].
Qed.

(** X3: with [Opts.Depth = k > 0] the history walk never counts more than
    [k] commits, whatever ends it: when it returns, the manager's commit
    counter has grown by at least 0 and at most [k]. *)
Theorem X3_depth_bounds_commit_counter :
  forall (repo : Repo) (cIter : list (result (option Commit))) (k : Z)
         (w : World) (err : option error) (w' : World),
    Opts_Depth (Manager_Opts repo) = k ->
    0 < k ->
    scanHistory repo cIter w = (Returned err, w') ->
    commits w <= commits w' <= commits w + k.
Proof.
  intros repo cIter k w err w' Hk Hpos H.
  unfold scanHistory, bind in H.
  destruct (ForEachCapturing cIter (walkCommit repo) 0 w) as [[[cc e]| | |] w1] eqn:Hwalk;
    try discriminate.
  destruct (walk_counter_capped repo k cIter Hk Hpos 0 w cc e w1) as [Hcc Hc];
    [lia | exact Hwalk|].
  unfold IncrementCommits, ret in H. inversion H; subst.
  cbn [commits set_commits fst]. lia.
Qed.

(** ** The scans of named commits *)

Section NamedCommits.

Variable repo : Repo.

Lemma keeps_scanCommitPatches {X} (proj : World -> X) (c : Commit) :
  (forall w l, proj (set_dispatched w l) = proj w) ->
  (forall w n, proj (set_polls w n) = proj w) ->
  keeps proj (scanCommitPatches repo c).
Proof.
  intros Hd Hp.
  assert (keeps proj
            (ForEach (Commit_Parents repo c)
                     (fun parent => scanParent repo c (Some parent)))) as Hparents.
  { apply keeps_ForEach. intros parent. unfold scanParent.
    apply keeps_recovering.
    apply keeps_bind; [now apply keeps_timeoutReached|].
    intros [|]; [apply keeps_ret|].
    apply keeps_bind; [intros w r w' H; now inversion H|].
    intros r. destruct (snd r); [apply keeps_ret|].
    apply keeps_bind; [now apply keeps_scanPatch | intros _; apply keeps_ret]. }
  unfold scanCommitPatches. destruct (_ =? _)%nat; [|exact Hparents].
  apply keeps_bind; [now apply keeps_scanFilesAtCommit|].
  intros [e|]; [apply keeps_ret | exact Hparents].
Qed.

Lemma scanCommit_counter (commit : string) (f : Commit -> M (option error))
    (w : World) (r : outcome (option error)) (w' : World) :
  (forall c, keeps commits (f c)) ->
  scanCommit repo commit f w = (r, w') ->
  commits w' = commits w + resolvedCount repo commit.
Proof.
  intros Hf H.
  assert (forall s w0,
             (IncrementCommits 1 ;;;
              match CommitObject repo (NewHash s) with
              | Err e => ret (Some e)
              | Ok c => f c
              end) w0 = (r, w') ->
             commits w' = commits w0 + 1) as Hresolved.
  { intros s w0 H0. unfold bind, IncrementCommits in H0.
    destruct (CommitObject repo (NewHash s)) as [c|e].
    - apply Hf in H0. exact H0.
    - now inversion H0. }
  unfold scanCommit in H. unfold resolvedCount.
  destruct (String.eqb commit "latest"); [|now apply Hresolved in H].
  destruct (Head repo); [now apply Hresolved in H|].
  inversion H; subst. lia.
Qed.

Lemma scanCommit_nil_resolved (commit : string) (f : Commit -> M (option error))
    (w w' : World) :
  scanCommit repo commit f w = (Returned None, w') ->
  resolvedCount repo commit = 1.
Proof.
  unfold scanCommit, resolvedCount.
  destruct (String.eqb commit "latest"); [|reflexivity].
  destruct (Head repo); [reflexivity|]. discriminate.
Qed.

Lemma resolvedCount_bounds (commit : string) : 0 <= resolvedCount repo commit <= 1.
Proof.
  unfold resolvedCount. destruct (String.eqb commit "latest"); [|lia].
  destruct (Head repo); lia.
Qed.

Lemma scanCommits_counter (cs : list string) :
  forall w r w',
    scanCommits repo cs w = (r, w') ->
    commits w <= commits w' <= commits w + Z.of_nat (List.length cs) /\
    (r = Returned None -> commits w' = commits w + Z.of_nat (List.length cs)).
Proof.
  induction cs as [|c rest IH]; intros w r w' H; cbn [scanCommits] in H.
  - inversion H; subst. cbn [List.length]. split; [lia | intros _; lia].
  - unfold bind in H.
    destruct (scanCommit repo c (scanCommitPatches repo) w) as [o w1] eqn:Hc.
    pose proof (scanCommit_counter c _ w o w1
                  (fun c0 => keeps_scanCommitPatches commits c0
                               (fun _ _ => eq_refl) (fun _ _ => eq_refl)) Hc) as Hcnt.
    pose proof (resolvedCount_bounds c) as Hbounds.
    cbn [List.length].
    destruct o as [[e|]|p|code|p]; try (inversion H; subst; split; [lia | discriminate]).
    apply scanCommit_nil_resolved in Hc.
    destruct (IH _ _ _ H) as [Hle Heq].
    split; [lia|]. intros Hr. specialize (Heq Hr). lia.
Qed.

End NamedCommits.

(** X4: [scanCommit] adds exactly one to the manager's commit counter as
    soon as its reference names a hash, whether or not the commit is then
    found and scanned without error; only "latest" without a resolvable HEAD
    adds nothing.  This holds with either scanner. *)
Theorem X4_scanCommit_counts_resolved_reference :
  forall (repo : Repo) (commit : string) (w : World)
         (r : outcome (option error)) (w' : World),
    scanCommit repo commit (scanCommitPatches repo) w = (r, w') \/
    scanCommit repo commit (scanFilesAtCommit repo) w = (r, w') ->
    commits w' = commits w + resolvedCount repo commit.
Proof.
  intros repo commit w r w' [H|H]; revert H; apply scanCommit_counter; intros c.
  - now apply keeps_scanCommitPatches.
  - now apply keeps_scanFilesAtCommit.
Qed.

(** X5: in commit-list mode ([Opts.Commits] set, [Opts.Commit] and
    [Opts.FilesAtCommit] not) [Scan] counts at most one commit per
    comma-separated token, and exactly one per token when it returns nil. *)
Theorem X5_commit_list_counts_tokens :
  forall (repo : Repo) (w : World) (r : outcome (option error)) (w' : World),
    nonempty (Opts_Commit (Manager_Opts repo)) = false ->
    nonempty (Opts_FilesAtCommit (Manager_Opts repo)) = false ->
    nonempty (Opts_Commits (Manager_Opts repo)) = true ->
    Scan repo w = (r, w') ->
    let tokens := Split (Opts_Commits (Manager_Opts repo)) COMMA in
    commits w <= commits w' <= commits w + Z.of_nat (List.length tokens) /\
    (r = Returned None -> commits w' = commits w + Z.of_nat (List.length tokens)).
Proof.
  intros repo w r w' Hcommit Hfiles Hcommits H tokens.
  unfold Scan in H. rewrite Hcommit, Hfiles, Hcommits in H. cbv iota in H.
  destruct (setupTimeout repo); [inversion H; subst; split; [lia | discriminate]|].
  destruct (Repository_isNil repo); [inversion H; subst; split; [lia | discriminate]|].
  destruct (Opts_RepoConfig (Manager_Opts repo)).
  - destruct (loadRepoConfig repo) as [cfg|e].
    + unfold bind in H at 1. cbn beta iota in H.
      apply scanCommits_counter in H. exact H.
    + inversion H; subst. split; [lia | discriminate].
  - apply scanCommits_counter in H. exact H.
Qed.

(** ** The worker pool *)

Section Pool.

Variable repo : Repo.






End Pool.


(** ** Panics in the scan of one commit *)

Lemma calm_recovering {A} (zero : A) (m : M A) : calm (recovering zero m).
Proof.
  intros w r w' p H. unfold recovering in H.
  destruct (m w) as [[| | |] w1]; inversion H; discriminate.
Qed.

Lemma calm_ForEach {A} (iter : list (result A)) (cb : A -> M (option error)) :
  (forall a, calm (cb a)) -> calm (ForEach iter cb).
Proof.
  intros Hcb. induction iter as [|[a|e] rest IH]; simpl.
  - intros w r w' p H. inversion H. discriminate.
  - intros w r w' p H. unfold bind in H.
    destruct (cb a w) as [o w1] eqn:Hcba.
    pose proof (Hcb a _ _ _ p Hcba) as Hcalm.
    destruct o as [[[| | |msg]|]|q|code|q];
      try (inversion H; subst; discriminate).
    + exact (IH _ _ _ p H).
    + inversion H; subst. exact Hcalm.
  - intros w r w' p H. inversion H. discriminate.
Qed.

(** X7: the scan of the patches of a commit that has parents never ends in
    a panic: a panic of patch generation or of the matcher is stopped at the
    parent it occurred for and the scan goes on with the next parent. *)
Theorem X7_scanCommitPatches_stops_panics :
  forall (repo : Repo) (c : Commit) (w : World) (r : outcome (option error))
         (w' : World) (p : panic),
    Commit_ParentHashes c <> [] ->
    scanCommitPatches repo c w = (r, w') ->
    r <> Panicked p.
Proof.
  intros repo c w r w' p Hparents H.
  unfold scanCommitPatches in H.
  destruct (Commit_ParentHashes c) as [|h hs] eqn:Hhashes; [contradiction|].
  cbn [List.length Nat.eqb] in H. revert H. apply calm_ForEach.
  intros parent. apply calm_recovering.
Qed.

(** X8: the panic barrier of the walk: when patch generation panics for a
    commit the walk has entered, the commit is counted, no worker is started
    and nothing reaches the matcher, and the callback returns nil so that the
    walk goes on with the next commit. *)
Theorem X8_walk_survives_patch_panic :
  forall (repo : Repo) (c parent : Commit) (cc : Z) (w : World) (p : panic),
    timeoutAt repo (polls w) = false ->
    timeoutAt repo (S (polls w)) = false ->
    depthReached repo cc = false ->
    isCommitAllowListed (Hash_String (Commit_Hash c))
                        (Allowlist_Commits (config w)) = false ->
    Commit_Parent repo c 0 = Ok (Some parent) ->
    Commit_Patch repo parent c = Panicked p ->
    walkCommit repo (Some c) cc w =
      (Returned (cc + 1, None), set_polls w (S (S (polls w)))).
Proof.
  intros repo c parent cc w p Ht1 Ht2 Hdepth Hallow Hparent Hpatch.
  assert ((List.length (Commit_ParentHashes c) =? 0)%nat = false) as Hlen.
  { unfold Commit_Parent in Hparent.
    destruct (Commit_ParentHashes c); [discriminate | reflexivity]. }
  unfold walkCommit, bind at 1, timeoutReached at 1.
  rewrite Ht1, Hdepth. cbn [orb].
  unfold walkEnter. cbn [config set_polls].
  rewrite Hallow, Hlen, Hparent.
  unfold bind at 1, walkPatch, recovering, bind at 1, timeoutReached.
  cbn [polls set_polls]. rewrite Ht2.
  unfold bind at 1, Patch_of. rewrite Hpatch.
  destruct w; reflexivity.
Qed.

(** X9: with [Opts.Depth] zero or negative the depth never ends the walk:
    with no deadline firing and a log of commits none of which ends the walk,
    every commit off the allowlist is counted, and the manager's commit
    counter grows by their number. *)
Theorem X9_unset_depth_counts_every_entered_commit :
  forall (repo : Repo) (cIter : list (result (option Commit))) (w : World),
    Opts_Depth (Manager_Opts repo) <= 0 ->
    (forall n, timeoutAt repo n = false) ->
    (forall item, In item cIter -> exists c, item = Ok (Some c)) ->
    (forall c cc w1,
        In (Ok (Some c)) cIter ->
        exists cc' w2, walkEnter repo c cc w1 = (Returned (cc', None), w2)) ->
    exists w1,
      ForEachCapturing cIter (walkCommit repo) 0 w =
        (Returned (countEntering (config w) cIter, None), w1) /\
      scanHistory repo cIter w =
        (Returned None,
         set_commits w1 (commits w + countEntering (config w) cIter)).
Proof.
  intros repo cIter w Hdepth Hnotimeout Hitems Hcontinue.
  assert (forall cc w0,
             0 <= cc ->
             exists w1,
               ForEachCapturing cIter (walkCommit repo) cc w0 =
                 (Returned (cc + countEntering (config w0) cIter, None), w1) /\
               commits w1 = commits w0) as Hwalk.
  { clear w. induction cIter as [|item rest IH]; intros cc w Hcc.
    - exists w. cbn. unfold countEntering. cbn [filter List.length].
      replace (cc + 0) with cc by lia. now split.
    - destruct (Hitems item (or_introl eq_refl)) as [c ->].
      cbn [ForEachCapturing]. unfold bind at 1.
      destruct (walkCommit repo (Some c) cc w) as [o w1] eqn:Hstep.
      pose proof (keeps_commits_walkCommit _ _ _ _ _ _ Hstep) as Hcommits.
      pose proof (walkCommit_emits repo (config w) (Some c) cc _ _ _ eq_refl Hstep)
        as (Hconfig & _ & _).
      unfold walkCommit, bind, timeoutReached in Hstep.
      rewrite Hnotimeout in Hstep. cbn [orb] in Hstep.
      replace (depthReached repo cc) with false in Hstep.
      2:{ unfold depthReached. destruct (Opts_Depth (Manager_Opts repo) =? 0) eqn:H0;
            [reflexivity|]. cbn [negb andb]. symmetry. apply Z.eqb_neq.
          apply Z.eqb_neq in H0. lia. }
      destruct (Hcontinue c cc (set_polls w (S (polls w))) (or_introl eq_refl))
        as (cc' & w2 & Henter).
      rewrite Henter in Hstep. inversion Hstep; subst. cbn [fst snd].
      apply walkEnter_counter in Henter. cbn [config set_polls] in Henter.
      destruct (IH (fun item Hin => Hitems item (or_intror Hin))
                   (fun c0 cc0 w0 Hin => Hcontinue c0 cc0 w0 (or_intror Hin))
                   cc' w1) as (w' & Hrest & Hcommits').
      { destruct (isCommitAllowListed _ _); lia. }
      exists w'. rewrite Hrest, Hconfig. split; [|congruence].
      rewrite countEntering_cons. unfold entering.
      f_equal. f_equal. f_equal.
      destruct (isCommitAllowListed _ _); cbn [negb]; lia. }
  destruct (Hwalk 0 w) as (w1 & Hrun & Hcommits); [lia|].
  exists w1. split; [exact Hrun|].
  unfold scanHistory, bind. rewrite Hrun. cbn [fst].
  unfold IncrementCommits, ret. now rewrite Hcommits.
Qed.

(** ** The bundles of a patch *)

Section PatchBundles.

Variable repo : Repo.

Lemma scanChunks_prefix (c : Commit) (patch : string) (f : FilePatch)
    (chunks : list Chunk) :
  forall bundle w r w',
    Bundle_Commit bundle = c ->
    Bundle_Patch bundle = patch ->
    Bundle_scanType bundle = patchScan ->
    scanChunks repo f chunks bundle w = (r, w') ->
    exists done rest,
      dispatched w' = (dispatched w ++ done)%list /\
      map (chunkBundle c patch f) (filter (eligible repo) chunks) = (done ++ rest)%list /\
      (forall bundle',
          r = Returned bundle' ->
          rest = [] /\ Bundle_Commit bundle' = c /\ Bundle_Patch bundle' = patch /\
          Bundle_scanType bundle' = patchScan).
Proof.
  induction chunks as [|chunk chunks IH]; intros bundle w r w' Hc Hp Ht H;
    cbn [scanChunks] in H.
  - injection H as <- <-. exists [], []. rewrite app_nil_r.
    split; [reflexivity|]. split; [reflexivity|].
    intros b Hb. injection Hb as <-. auto.
  - cbn [filter]. fold (eligible repo chunk) in H.
    destruct (eligible repo chunk).
    + unfold bind, CheckRules in H.
      assert (chunkBundle c patch f chunk =
              mkBundle (Bundle_Commit bundle) (Bundle_Patch bundle)
                       (Chunk_Content chunk) (chunkPath f) (Chunk_Type chunk)
                       (Bundle_scanType bundle)) as Hb
        by (unfold chunkBundle; now rewrite Hc, Hp, Ht).
      fold (chunkPath f) in H. rewrite <- Hb in H.
      destruct (matcherPanics repo (chunkBundle c patch f chunk)).
      * injection H as <- <-. cbn [dispatched set_dispatched].
        exists [chunkBundle c patch f chunk],
               (map (chunkBundle c patch f) (filter (eligible repo) chunks)).
        split; [reflexivity|]. split; [reflexivity | discriminate].
      * apply IH in H; trivial.
        destruct H as (done & rest & Hd & Hm & Hr).
        cbn [dispatched set_dispatched] in Hd.
        exists (chunkBundle c patch f chunk :: done), rest.
        rewrite Hd, <- app_assoc. cbn [map app]. rewrite Hm.
        split; [reflexivity|]. split; [reflexivity | exact Hr].
    + now apply IH in H.
Qed.

Lemma scanFilePatches_prefix (c : Commit) (patch : string) (fps : list FilePatch) :
  forall bundle w r w',
    Bundle_Commit bundle = c ->
    Bundle_Patch bundle = patch ->
    Bundle_scanType bundle = patchScan ->
    scanFilePatches repo fps bundle w = (r, w') ->
    exists done rest,
      dispatched w' = (dispatched w ++ done)%list /\
      flat_map (filePatchBundles repo c patch) fps = (done ++ rest)%list.
Proof.
  induction fps as [|f fps IH]; intros bundle w r w' Hc Hp Ht H;
    cbn [scanFilePatches] in H.
  - injection H as <- <-. exists [], []. now rewrite app_nil_r.
  - unfold bind at 1, timeoutReached in H. cbn [flat_map].
    destruct (timeoutAt repo (polls w)).
    + injection H as <- <-. cbn [dispatched set_polls].
      exists []. eexists. rewrite app_nil_r. split; reflexivity.
    + unfold filePatchBundles at 1.
      destruct (FilePatch_IsBinary f).
      * apply IH in H; trivial.
      * unfold bind in H.
        destruct (scanChunks repo f (FilePatch_Chunks f) bundle _) as [o w1] eqn:Hchunks.
        apply (scanChunks_prefix c patch) in Hchunks; trivial.
        destruct Hchunks as (done & rest & Hd & Hm & Hr).
        cbn [dispatched set_polls] in Hd. rewrite Hm.
        destruct o as [bundle'|p|code|p];
          try (injection H as <- <-; exists done; eexists;
               split; [exact Hd | now rewrite <- app_assoc]).
        destruct (Hr bundle' eq_refl) as (-> & Hc' & Hp' & Ht').
        apply IH in H; trivial.
        destruct H as (done2 & rest2 & Hd2 & Hm2).
        exists (done ++ done2)%list, rest2.
        rewrite Hd2, Hd, Hm2, app_nil_r, !app_assoc. now split.
Qed.

End PatchBundles.

(** X10: whatever cuts the scan of a patch short (the deadline, a panic of
    the matcher), the bundles [scanPatch] has handed over are an initial part
    of the bundles of the patch: one per added chunk (and per deleted chunk
    with [Opts.Deletion]) of each file patch that is not binary, in patch
    order, each with the commit, the text of the whole patch, the chunk's
    content and operation, and the path of the old file, else of the new
    file, else ???. *)
Theorem X10_scanPatch_hands_over_initial_part :
  forall (repo : Repo) (p : Patch) (c : Commit) (w : World)
         (r : outcome unit) (w' : World),
    scanPatch repo (Some p) c w = (r, w') ->
    exists done rest,
      dispatched w' = (dispatched w ++ done)%list /\
      patchBundles repo c p = (done ++ rest)%list.
Proof.
  intros repo p c w r w' H. unfold scanPatch in H.
  now apply (scanFilePatches_prefix repo c (Patch_String p)) in H.
Qed.

Section PatchBundlesAll.

Variable repo : Repo.
Hypothesis no_deadline : forall n, timeoutAt repo n = false.
Hypothesis no_panic : forall b, matcherPanics repo b = false.

Lemma scanChunks_all (c : Commit) (patch : string) (f : FilePatch)
    (chunks : list Chunk) :
  forall bundle w,
    Bundle_Commit bundle = c ->
    Bundle_Patch bundle = patch ->
    Bundle_scanType bundle = patchScan ->
    exists bundle',
      scanChunks repo f chunks bundle w =
        (Returned bundle',
         set_dispatched w
           (dispatched w ++
            map (chunkBundle c patch f) (filter (eligible repo) chunks))) /\
      Bundle_Commit bundle' = c /\ Bundle_Patch bundle' = patch /\
      Bundle_scanType bundle' = patchScan.
Proof.
  induction chunks as [|chunk chunks IH]; intros bundle w Hc Hp Ht; cbn [scanChunks].
  - exists bundle. cbn [filter map]. rewrite app_nil_r.
    destruct w; repeat split; trivial.
  - cbn [filter]. fold (eligible repo chunk). fold (chunkPath f).
    destruct (eligible repo chunk); [|now apply IH].
    assert (mkBundle (Bundle_Commit bundle) (Bundle_Patch bundle)
                     (Chunk_Content chunk) (chunkPath f) (Chunk_Type chunk)
                     (Bundle_scanType bundle) = chunkBundle c patch f chunk) as ->
      by (unfold chunkBundle; now rewrite Hc, Hp, Ht).
    unfold bind, CheckRules. rewrite no_panic.
    destruct (IH (chunkBundle c patch f chunk)
                 (set_dispatched w (dispatched w ++ [chunkBundle c patch f chunk])))
      as (bundle' & Hrun & Hfields); trivial.
    exists bundle'. split; [|exact Hfields].
    rewrite Hrun. cbn [dispatched set_dispatched map]. now rewrite <- app_assoc.
Qed.

Lemma scanFilePatches_all (c : Commit) (patch : string) (fps : list FilePatch) :
  forall bundle w,
    Bundle_Commit bundle = c ->
    Bundle_Patch bundle = patch ->
    Bundle_scanType bundle = patchScan ->
    scanFilePatches repo fps bundle w =
      (Returned tt,
       set_polls
         (set_dispatched w (dispatched w ++ flat_map (filePatchBundles repo c patch) fps))
         (polls w + List.length fps)).
Proof.
  induction fps as [|f fps IH]; intros bundle w Hc Hp Ht; cbn [scanFilePatches].
  - cbn [flat_map List.length]. rewrite app_nil_r, Nat.add_0_r. now destruct w.
  - unfold bind at 1, timeoutReached. rewrite no_deadline.
    cbn [flat_map List.length]. unfold filePatchBundles at 1.
    destruct (FilePatch_IsBinary f).
    + rewrite IH; trivial. cbn [dispatched polls set_polls set_dispatched app].
      now rewrite Nat.add_succ_r.
    + unfold bind.
      destruct (scanChunks_all c patch f (FilePatch_Chunks f) bundle
                               (set_polls w (S (polls w))) Hc Hp Ht)
        as (bundle' & -> & Hc' & Hp' & Ht').
      rewrite IH; trivial. cbn [dispatched polls set_polls set_dispatched].
      now rewrite <- app_assoc, Nat.add_succ_r.
Qed.

End PatchBundlesAll.

(** X11: with no deadline firing and a matcher that does not panic,
    [scanPatch] hands over exactly the bundles of the patch, in patch order,
    polls the deadline once per file patch and returns. *)
Theorem X11_scanPatch_hands_over_every_eligible_chunk :
  forall (repo : Repo) (p : Patch) (c : Commit) (w : World),
    (forall n, timeoutAt repo n = false) ->
    (forall b, matcherPanics repo b = false) ->
    scanPatch repo (Some p) c w =
      (Returned tt,
       set_polls (set_dispatched w (dispatched w ++ patchBundles repo c p))
                 (polls w + List.length (Patch_FilePatches p))).
Proof.
  intros repo p c w Hdeadline Hpanic. unfold scanPatch, patchBundles.
  now apply scanFilePatches_all.
Qed.

(** ** The bundles of the files of a commit *)

Lemma emits_ForEach_In {A} (cfg : Config) (P : Bundle -> Prop)
    (iter : list (result A)) (cb : A -> M (option error)) :
  (forall a, In (Ok a) iter -> emits cfg P any (cb a)) ->
  emits cfg P any (ForEach iter cb).
Proof.
  induction iter as [|[a|e] rest IH]; intros Hcb; simpl.
  - now apply emits_ret.
  - eapply emits_bind; [apply Hcb; now left|].
    intros [[| | |msg]|] _; try now apply emits_ret.
    apply IH. intros a' Hin. apply Hcb. now right.
  - now apply emits_ret.
Qed.

Lemma scanFilesAtCommit_scannedFile (repo : Repo) (cfg : Config) (c : Commit)
    (files : list (result File)) :
  Commit_Files repo c = Ok files ->
  emits cfg (scannedFile c files) any (scanFilesAtCommit repo c).
Proof.
  intros Hfiles. unfold scanFilesAtCommit. rewrite Hfiles.
  apply emits_ForEach_In. intros f Hin. unfold scanFile.
  destruct (File_IsBinary f) as [[|] err] eqn:Hbin.
  - eapply emits_bind with (Q := fun skip => skip = true); [now apply emits_ret|].
    intros skip ->. now apply emits_ret.
  - eapply emits_bind; [apply emits_timeoutReached|].
    intros [|] _; [now apply emits_ret|].
    destruct err; [now apply emits_ret|].
    destruct (File_Contents f) as [content|] eqn:Hcontents; [|now apply emits_ret].
    eapply emits_bind; [|intros _ _; now apply emits_ret].
    apply emits_CheckRules. now exists f, content.
Qed.

(** X12: every bundle [scanFilesAtCommit] hands over is the bundle of a
    file of the commit that is not binary, whose binary check raised no error
    and whose contents were read: it carries the commit, the file's name and
    whole contents, the operation Add and the scan type of commit scans.
    Binary and unreadable files never reach the matcher. *)
Theorem X12_scanFilesAtCommit_hands_over_readable_text_files :
  forall (repo : Repo) (c : Commit) (files : list (result File)) (w : World)
         (r : outcome (option error)) (w' : World),
    Commit_Files repo c = Ok files ->
    scanFilesAtCommit repo c w = (r, w') ->
    exists new, added w w' new /\ Forall (scannedFile c files) new.
Proof.
  intros repo c files w r w' Hfiles H.
  destruct (emits_run (config w) (scannedFile c files) any _ w r w'
                      (scanFilesAtCommit_scannedFile repo (config w) c files Hfiles)
                      eq_refl H) as [_ Hnew].
  exact Hnew.
Qed.

(** ** From the scanners to [Scan] *)

(** What holds of every bundle of [scanPatch] and of every bundle of
    [scanFilesAtCommit] holds of every bundle of [Scan]: nothing else calls
    the matcher. *)
Section ScanBundles.

Variable repo : Repo.
Variable P : Bundle -> Prop.
Hypothesis scanPatch_P :
  forall cfg patch c, emits cfg P any (scanPatch repo patch c).
Hypothesis scanFilesAtCommit_P :
  forall cfg c, emits cfg P any (scanFilesAtCommit repo c).

Lemma scanCommitPatches_P (cfg : Config) (c : Commit) :
  emits cfg P any (scanCommitPatches repo c).
Proof.
  assert (emits cfg P any
            (ForEach (Commit_Parents repo c)
                     (fun parent => scanParent repo c (Some parent)))) as Hparents.
  { apply emits_ForEach. intros parent. unfold scanParent.
    apply emits_recovering; [|exact I].
    eapply emits_bind; [apply emits_timeoutReached|].
    intros [|] _; [now apply emits_ret|].
    eapply emits_bind; [apply emits_Patch_of|].
    intros r _. destruct (snd r); [now apply emits_ret|].
    eapply emits_bind; [apply scanPatch_P | intros _ _; now apply emits_ret]. }
  unfold scanCommitPatches. destruct (_ =? _)%nat; [|exact Hparents].
  eapply emits_bind; [apply scanFilesAtCommit_P|].
  intros [e|] _; [now apply emits_ret | exact Hparents].
Qed.

Lemma scanCommit_P (cfg : Config) (commit : string) (f : Commit -> M (option error)) :
  (forall c, emits cfg P any (f c)) -> emits cfg P any (scanCommit repo commit f).
Proof.
  intros Hf.
  assert (forall s,
             emits cfg P any
               (IncrementCommits 1 ;;;
                match CommitObject repo (NewHash s) with
                | Err e => ret (Some e)
                | Ok c => f c
                end)) as Hresolved.
  { intros s. eapply emits_bind; [apply emits_IncrementCommits|].
    intros _ _. destruct (CommitObject repo (NewHash s)); [apply Hf | now apply emits_ret]. }
  unfold scanCommit. destruct (String.eqb commit "latest"); [|apply Hresolved].
  destruct (Head repo); [apply Hresolved | now apply emits_ret].
Qed.

Lemma scanCommits_P (cfg : Config) (cs : list string) :
  emits cfg P any (scanCommits repo cs).
Proof.
  induction cs as [|c rest IH]; cbn [scanCommits].
  - now apply emits_ret.
  - eapply emits_bind; [apply scanCommit_P; intros c0; apply scanCommitPatches_P|].
    intros [e|] _; [now apply emits_ret | exact IH].
Qed.

Lemma walkCommit_P (cfg : Config) (c : option Commit) (cc : Z) :
  emits cfg P any (walkCommit repo c cc).
Proof.
  destruct c as [c|]; simpl; [|now apply emits_ret].
  eapply emits_bind; [apply emits_timeoutReached|].
  intros timeout _. destruct (_ || _); [now apply emits_ret|].
  intros w r w' Hcfg H. unfold walkEnter in H.
  destruct (isCommitAllowListed _ _); [revert H; now apply emits_ret|].
  destruct (_ =? _)%nat.
  - revert H. apply emits_bind with (Q := any) (cfg := cfg); trivial.
    intros err _. now apply emits_ret.
  - destruct (Commit_Parent repo c 0) as [parent|e];
      [|revert H; now apply emits_ret].
    revert H. apply emits_bind with (Q := any) (cfg := cfg); trivial;
      [|intros err _; now apply emits_ret].
    unfold walkPatch. apply emits_recovering; [|exact I].
    eapply emits_bind; [apply emits_timeoutReached|].
    intros [|] _; [now apply emits_ret|].
    destruct parent as [parent|]; [|now apply emits_ret].
    eapply emits_bind; [apply emits_Patch_of|]. intros patch _.
    eapply emits_bind; [now apply emits_update|]. intros _ _.
    eapply emits_bind; [now apply emits_update|]. intros _ _.
    eapply emits_bind.
    + apply emits_go. unfold worker. apply emits_deferring; trivial.
    + intros _ _. destruct (String.eqb _ _); now apply emits_ret.
Qed.

Lemma Scan_P (w : World) (r : outcome (option error)) (w' : World) :
  Scan repo w = (r, w') ->
  exists new, added w w' new /\ Forall P new.
Proof.
  intros H. unfold Scan in H.
  destruct (setupTimeout repo).
  { inversion H; subst. exists []. split; [apply added_refl | constructor]. }
  destruct (Repository_isNil repo).
  { inversion H; subst. exists []. split; [apply added_refl | constructor]. }
  apply (configured_emits repo (fun _ => P)) in H; [exact H|].
  intros cfg.
  destruct (nonempty (Opts_Commit _));
    [apply scanCommit_P; intros c; apply scanCommitPatches_P|].
  destruct (nonempty (Opts_FilesAtCommit _)); [now apply scanCommit_P|].
  destruct (nonempty (Opts_Commits _)); [apply scanCommits_P|].
  destruct (nonempty (Opts_CommitsFile _)).
  - destruct (CommitsFile_Open repo); [apply scanCommits_P | now apply emits_ret].
  - destruct (getLogOptions repo); [now apply emits_ret|].
    destruct (Log repo); [|now apply emits_ret].
    unfold scanHistory.
    eapply emits_bind; [apply emits_ForEachCapturing; intros c cc; apply walkCommit_P|].
    intros r0 _. eapply emits_bind; [apply emits_IncrementCommits|].
    intros _ _. now apply emits_ret.
Qed.

End ScanBundles.

Lemma patchBundles_shape (repo : Repo) (c : Commit) (p : Patch) (b : Bundle) :
  In b (patchBundles repo c p) ->
  Bundle_scanType b = patchScan /\
  (Bundle_Operation b = Add \/
   (Bundle_Operation b = Delete /\ Opts_Deletion (Manager_Opts repo) = true)).
Proof.
  unfold patchBundles. rewrite in_flat_map. intros (f & _ & Hb).
  unfold filePatchBundles in Hb.
  destruct (FilePatch_IsBinary f); [contradiction|].
  apply in_map_iff in Hb. destruct Hb as (chunk & <- & Hchunk).
  apply filter_In in Hchunk. destruct Hchunk as [_ Heligible].
  split; [reflexivity|]. cbn [chunkBundle Bundle_Operation].
  unfold eligible in Heligible.
  destruct (Chunk_Type chunk), (Opts_Deletion (Manager_Opts repo));
    try discriminate; auto.
Qed.

(** X13: whatever the mode, every bundle [Scan] hands to the matcher is
    either a chunk of a patch that was added, or deleted with
    [Opts.Deletion] set, or a whole file counted as added and carrying no
    patch text: unchanged chunks never reach the matcher, nor deleted ones
    unless deletions were asked for. *)
Theorem X13_scan_hands_over_additions_and_asked_deletions :
  forall (repo : Repo) (w : World) (r : outcome (option error)) (w' : World),
    Scan repo w = (r, w') ->
    exists new, added w w' new /\ Forall (scanShape repo) new.
Proof.
  intros repo w r w'. apply Scan_P.
  - intros cfg patch c w0 r0 w0' Hcfg H.
    destruct (scanPatch_emits repo cfg patch c w0 r0 w0' Hcfg H) as (Hc & _ & Hval).
    split; [exact Hc|]. split; [|exact Hval].
    destruct patch as [p|].
    + unfold scanPatch in H.
      apply (scanFilePatches_prefix repo c (Patch_String p)) in H; trivial.
      destruct H as (done & rest & Hd & Hall).
      exists done. split; [exact Hd|].
      apply Forall_forall. intros b Hb. left.
      apply (patchBundles_shape repo c p). unfold patchBundles.
      rewrite Hall. apply in_or_app. now left.
    + inversion H; subst. exists []. split; [apply added_refl | constructor].
  - intros cfg c.
    destruct (Commit_Files repo c) as [files|e] eqn:Hfiles.
    + eapply emits_mono;
        [|exact (scanFilesAtCommit_scannedFile repo cfg c files Hfiles)].
      intros b (f & content & _ & _ & _ & ->). right. now repeat split.
    + unfold scanFilesAtCommit. rewrite Hfiles. now apply emits_ret.
Qed.

(** ** The staged file names *)

Lemma Contains_append (a b : string) (ch : ascii) :
  Contains (a ++ b) ch = Contains a ch || Contains b ch.
Proof.
  induction a as [|c a IH]; simpl; [reflexivity|].
  now rewrite IH, orb_assoc.
Qed.

(** [Split] at the first separator. *)
Lemma Split_first (a b : string) (sep : ascii) :
  Contains a sep = false ->
  Split (a ++ String sep b) sep = a :: Split b sep.
Proof.
  induction a as [|c a IH]; simpl; intros H.
  - now rewrite Ascii.eqb_refl.
  - apply orb_false_iff in H. destruct H as [Hc Ha].
    now rewrite Hc, (IH Ha).
Qed.

Lemma nameStatusLine_fields (entry : NameStatus) :
  plainEntry entry = true ->
  nonempty (nameStatusLine entry) = true /\
  Contains (nameStatusLine entry) LF = false /\
  exists more,
    Split (nameStatusLine entry) TAB =
    NameStatus_status entry :: NameStatus_path entry :: more.
Proof.
  destruct entry as [status path more].
  unfold plainEntry, nameStatusLine, tab.
  cbn [NameStatus_status NameStatus_path NameStatus_more]. intros H.
  repeat (apply andb_true_iff in H; destruct H as [H ?]).
  destruct more as [more|];
    repeat match goal with
           | Hn : negb _ = true |- _ => apply negb_true_iff in Hn
           end.
  - split; [|split].
    + destruct status; reflexivity.
    + rewrite !Contains_append. cbn [Contains].
      replace (Ascii.eqb TAB LF) with false by reflexivity.
      repeat match goal with
             | Hc : Contains _ LF = false |- _ => rewrite Hc
             end.
      reflexivity.
    + cbn [append]. rewrite Split_first by assumption.
      rewrite Split_first by assumption. now eexists.
  - split; [|split].
    + destruct status; reflexivity.
    + rewrite !Contains_append. cbn [Contains].
      replace (Ascii.eqb TAB LF) with false by reflexivity.
      repeat match goal with
             | Hc : Contains _ LF = false |- _ => rewrite Hc
             end.
      reflexivity.
    + cbn [append]. rewrite Split_first by assumption.
      rewrite append_empty_r, Split_without_sep by assumption. now eexists.
Qed.

Lemma stagedFilesLoop_names (entries : list NameStatus) :
  forallb plainEntry entries = true ->
  forall acc,
    stagedFilesLoop (Split (nameStatusOutput entries) LF) acc =
    Returned (acc ++ map NameStatus_path entries)%list.
Proof.
  induction entries as [|entry rest IH]; intros Hplain acc.
  - cbn. now rewrite app_nil_r.
  - cbn [forallb] in Hplain. apply andb_true_iff in Hplain.
    destruct Hplain as [Hentry Hrest].
    destruct (nameStatusLine_fields entry Hentry) as (Hne & Hlf & more & Hsplit).
    cbn [nameStatusOutput]. unfold nl. cbn [append].
    rewrite Split_first by exact Hlf.
    cbn [stagedFilesLoop]. rewrite Hne, Hsplit. cbn [List.length Nat.ltb Nat.leb nth_error].
    rewrite (IH Hrest). cbn [map]. now rewrite <- app_assoc.
Qed.

(** X14: on the output of the name-status command, a line per staged file
    made of the status, a tab and the path (and for a copy a further tab and
    the path of the copy), each line ended by a line feed, [getStagedChanges]
    returns the paths in the order of the lines.  For a copy that is the path
    after the first tab, the file copied from. *)
Theorem X14_getStagedChanges_returns_the_paths :
  forall (wt : Worktree) (entries : list NameStatus) (w : World),
    forallb plainEntry entries = true ->
    git_diff_cached wt = (nameStatusOutput entries, None) ->
    getStagedChanges wt w = (Returned (map NameStatus_path entries, None), w).
Proof.
  intros wt entries w Hplain Hout.
  unfold getStagedChanges. rewrite Hout.
  now rewrite (stagedFilesLoop_names entries Hplain []).
Qed.

(** ** The bundles of a staged scan *)

Lemma scanEmptyLoop_stagedShape (repo : Repo) (cfg : Config) (wt : Worktree)
    (status : list string) :
  emits cfg stagedShape any (scanEmptyLoop repo wt status).
Proof.
  induction status as [|fn rest IH]; cbn [scanEmptyLoop].
  - now apply emits_ret.
  - destruct (Filesystem_Open wt fn) as [workTreeFile|]; [|exact IH].
    destruct (WorktreeFile_Copy workTreeFile); [|now apply emits_ret].
    eapply emits_bind; [apply emits_CheckRules; now repeat split|].
    intros _ _. exact IH.
Qed.

Lemma stagedLoop_stagedShape (repo : Repo) (cfg : Config) (c : Commit)
    (prevTree : Tree) (wt : Worktree) (status : list string) :
  emits cfg stagedShape any (stagedLoop repo c prevTree wt status).
Proof.
  induction status as [|fn rest IH]; cbn [stagedLoop].
  - now apply emits_ret.
  - destruct (Filesystem_Open wt fn) as [workTreeFile|]; [|exact IH].
    destruct (WorktreeFile_Copy workTreeFile); [|now apply emits_ret].
    destruct (Tree_File prevTree fn) as [prevFile|].
    + destruct (TreeFile_Contents prevFile); [|now apply emits_ret].
      eapply emits_bind; [apply emits_CheckRules; now repeat split|].
      intros _ _. exact IH.
    + eapply emits_bind; [apply emits_CheckRules; now repeat split|].
      intros _ _. exact IH.
Qed.

(** X15: every bundle of a staged scan, on either path, has the scan type
    of uncommitted scans, no patch text, and the zero value of the operation,
    which is Equal: [scanUncommitted] never sets the operation of its
    bundles. *)
Theorem X15_staged_bundles_keep_zero_operation :
  forall (repo : Repo) (w : World) (r : outcome (option error)) (w' : World),
    scanUncommitted repo w = (r, w') ->
    exists new, added w w' new /\ Forall stagedShape new.
Proof.
  intros repo w r w' H. unfold scanUncommitted in H.
  apply (configured_emits repo (fun _ => stagedShape)) in H; [exact H|].
  intros cfg.
  destruct (setupTimeout repo); [now apply emits_ret|].
  destruct (Head repo) as [h|[]]; try now apply emits_ret.
  - destruct (CommitObject repo h) as [c|]; [|now apply emits_ret].
    destruct (Commit_Tree repo (stageCommit c)) as [prevTree|]; [|now apply emits_ret].
    destruct (Repo_Worktree repo) as [wt|]; [|now apply emits_ret].
    eapply emits_bind; [apply getStagedChanges_emits|]. intros names _.
    eapply emits_bind; [apply stagedLoop_stagedShape|].
    intros [e|] _; now apply emits_ret.
  - unfold scanEmpty.
    destruct (Repo_Worktree repo) as [wt|]; [|now apply emits_ret].
    destruct (Worktree_Status wt); [|now apply emits_ret].
    apply scanEmptyLoop_stagedShape.
Qed.

(** ** Hashes and their text *)

Lemma hex_decode_encode_byte (b : ascii) (s : string) :
  hex_decode (String (hexdigit (N_of_ascii b / 16))
                     (String (hexdigit (N_of_ascii b mod 16)) s))
  = b :: hex_decode s.
Proof.
  destruct b as [[] [] [] [] [] [] [] []]; reflexivity.
Qed.

Lemma hex_decode_encode (bs : list ascii) : hex_decode (hex_encode bs) = bs.
Proof.
  induction bs as [|b bs IH]; [reflexivity|].
  cbn [hex_encode]. now rewrite hex_decode_encode_byte, IH.
Qed.

Lemma NewHash_String (h : Hash) : List.length h = 20%nat -> NewHash (Hash_String h) = h.
Proof.
  intros Hlen. unfold NewHash, Hash_String.
  rewrite hex_decode_encode, firstn_all2 by lia.
  rewrite Hlen. cbn [Nat.sub repeat]. apply app_nil_r.
Qed.

(** X16: the reference "latest" names the commit of HEAD: [scanCommit]
    turns the hash of HEAD into its forty hexadecimal digits and back without
    loss, counts one commit and looks that very hash up. *)
Theorem X16_latest_is_the_commit_of_HEAD :
  forall (repo : Repo) (h : Hash) (f : Commit -> M (option error)) (w : World),
    Head repo = Ok h ->
    List.length h = 20%nat ->
    scanCommit repo "latest" f w =
      (IncrementCommits 1 ;;;
       match CommitObject repo h with
       | Err e => ret (Some e)
       | Ok c => f c
       end) w.
Proof.
  intros repo h f w Hhead Hlen.
  unfold scanCommit. cbn [String.eqb Ascii.eqb Bool.eqb]. rewrite Hhead.
  now rewrite NewHash_String.
Qed.

(** ** gitStatus *)

Lemma TrimLeft_head (s : string) (cut : ascii) :
  TrimLeft s cut = EmptyString \/
  exists ch rest, TrimLeft s cut = String ch rest /\ Ascii.eqb ch cut = false.
Proof.
  induction s as [|ch s IH]; simpl; [now left|].
  destruct (Ascii.eqb ch cut) eqn:Hch; [exact IH|].
  right. now exists ch, s.
Qed.

Lemma SplitN2_head (ch : ascii) (rest : string) (sep : ascii) :
  Ascii.eqb ch sep = false ->
  exists before after, SplitN2 (String ch rest) sep = String ch before :: after.
Proof.
  intros Hch. cbn [SplitN2]. rewrite Hch.
  destruct (SplitN2 rest sep) as [|before after]; now eexists; eexists.
Qed.

Lemma gitStatusLoop_returns (lines : list string) :
  forall stat, exists stat', gitStatusLoop lines stat = Returned stat'.
Proof.
  induction lines as [|line rest IH]; intros stat; cbn [gitStatusLoop].
  - now exists stat.
  - destruct (nonempty line); [|apply IH].
    destruct (TrimLeft_head line SPACE) as [-> | (ch & s & -> & Hch)].
    + cbn. apply IH.
    + destruct (SplitN2_head ch s SPACE Hch) as (before & after & ->).
      destruct after as [|parts1 [|more after]]; apply IH.
Qed.

(** X17: [gitStatus] never panics: the first byte of the status field it
    indexes is always there, because the line was rid of its leading blanks
    before being cut at the first blank.  Either the command failed and the
    result is that of the worktree's own status, or the parsed status is
    returned with a nil error. *)
Theorem X17_gitStatus_never_panics :
  forall (wt : StatusSource),
    (exists e, snd (git_status_porcelain wt) = Some e /\
               gitStatus wt = Returned (Worktree_StatusMap wt)) \/
    (exists stat, snd (git_status_porcelain wt) = None /\
                  gitStatus wt = Returned (stat, None)).
Proof.
  intros wt. unfold gitStatus.
  destruct (git_status_porcelain wt) as [output [e|]].
  - left. now exists e.
  - right. destruct (gitStatusLoop_returns (Split output NUL) []) as [stat ->].
    now exists stat.
Qed.

Lemma porcelainLine_parts (entry : PorcelainEntry) :
  wellFormedEntry entry = true ->
  Contains (porcelainLine entry) NUL = false /\
  exists tail,
    SplitN2 (TrimLeft (porcelainLine entry) SPACE) SPACE =
      [String (if Ascii.eqb (Porcelain_X entry) SPACE
               then Porcelain_Y entry else Porcelain_X entry) tail;
       if Ascii.eqb (Porcelain_X entry) SPACE then Porcelain_path entry
       else if Ascii.eqb (Porcelain_Y entry) SPACE
            then String SPACE (Porcelain_path entry)
            else Porcelain_path entry].
Proof.
  destruct entry as [x y path]. unfold wellFormedEntry, porcelainLine.
  cbn [Porcelain_X Porcelain_Y Porcelain_path]. intros H.
  repeat (apply andb_true_iff in H; destruct H as [H ?]).
  repeat match goal with
         | Hn : negb _ = true |- _ => apply negb_true_iff in Hn
         end.
  split.
  - cbn [Contains].
    match goal with
    | Hx : Ascii.eqb x NUL = false, Hy : Ascii.eqb y NUL = false,
      Hp : Contains path NUL = false |- _ => rewrite Hx, Hy, Hp
    end.
    reflexivity.
  - destruct (Ascii.eqb x SPACE) eqn:Hx.
    + destruct (Ascii.eqb y SPACE) eqn:Hy; [discriminate|].
      cbn [TrimLeft SplitN2]. rewrite Hx, Hy. cbn [TrimLeft SplitN2].
      rewrite Hy, Ascii.eqb_refl. now eexists.
    + cbn [TrimLeft]. rewrite Hx. cbn [SplitN2]. rewrite Hx.
      destruct (Ascii.eqb y SPACE) eqn:Hy.
      * now eexists.
      * rewrite Ascii.eqb_refl. now eexists.
Qed.

Lemma gitStatusLoop_entries (entries : list PorcelainEntry) :
  forallb wellFormedEntry entries = true ->
  forall stat,
    gitStatusLoop (Split (porcelainOutput entries) NUL) stat =
    Returned (fold_left recordEntry entries stat).
Proof.
  induction entries as [|entry rest IH]; intros Hwf stat; [reflexivity|].
  cbn [forallb] in Hwf. apply andb_true_iff in Hwf. destruct Hwf as [Hentry Hrest].
  destruct (porcelainLine_parts entry Hentry) as (Hnul & tail & Hparts).
  cbn [porcelainOutput]. rewrite Split_first by exact Hnul.
  cbn [gitStatusLoop fold_left].
  replace (nonempty (porcelainLine entry)) with true by reflexivity.
  rewrite Hparts, (IH Hrest). unfold recordEntry.
  destruct (Ascii.eqb (Porcelain_X entry) SPACE); [reflexivity|].
  destruct (Ascii.eqb (Porcelain_Y entry) SPACE); [|reflexivity].
  unfold Trim. cbn [TrimLeft]. now rewrite Ascii.eqb_refl.
Qed.

(** X18: on the output of [git status --porcelain -z], an entry per file
    made of two status letters, a blank and the path and ended by a NUL,
    [gitStatus] records for each entry in turn the path without the blanks at
    its ends, with the first status letter that is not blank as the staging
    code (for a change that is not staged that is the worktree letter) and
    the zero worktree code. *)
Theorem X18_gitStatus_records_each_entry :
  forall (wt : StatusSource) (entries : list PorcelainEntry),
    forallb wellFormedEntry entries = true ->
    git_status_porcelain wt = (porcelainOutput entries, None) ->
    gitStatus wt = Returned (fold_left recordEntry entries [], None).
Proof.
  intros wt entries Hwf Hout. unfold gitStatus. rewrite Hout.
  now rewrite (gitStatusLoop_entries entries Hwf []).
Qed.

(** ** The SARIF report *)

Lemma fold_append1 {A B : Type} (f : A -> B) (l : list A) :
  forall acc : list B,
    fold_left (fun (s : slice B) (a : A) => append1 s (f a)) l (Some acc) =
    Some (acc ++ map f l)%list.
Proof.
  induction l as [|a l IH]; intros acc; cbn [fold_left map append1].
  - now rewrite app_nil_r.
  - now rewrite IH, <- app_assoc.
Qed.

Lemma fold_append1_nil {A B : Type} (f : A -> B) (l : list A) :
  fold_left (fun (s : slice B) (a : A) => append1 s (f a)) l None =
  match l with
  | [] => None
  | _ => Some (map f l)
  end.
Proof.
  destruct l as [|a l]; [reflexivity|].
  cbn [fold_left append1]. now rewrite fold_append1.
Qed.

(** X19: [leaksToResults] returns the nil slice when there are no leaks,
    and otherwise one result per leak, in the order of the leaks: the i-th
    result carries the i-th leak's rule in its message, its commit, offender,
    date, author, email, commit message, operation and repository, and
    exactly one location, with the leak's file, line number and line. *)
Theorem X19_leaksToResults_one_result_per_leak_in_order :
  forall (leaks : list Leak),
    (leaks = [] -> leaksToResults leaks = None) /\
    (leaks <> [] ->
     exists results,
       leaksToResults leaks = Some results /\
       List.length results = List.length leaks /\
       forall i leak,
         nth_error leaks i = Some leak ->
         exists result, nth_error results i = Some result /\ reports leak result).
Proof.
  intros leaks. unfold leaksToResults. rewrite fold_append1_nil.
  split; [now intros ->|]. intros Hne.
  destruct leaks as [|leak0 rest]; [contradiction|].
  eexists. split; [reflexivity|]. split; [apply length_map|].
  intros i leak Hi. eexists. split.
  - exact (map_nth_error _ _ _ Hi).
  - repeat split.
Qed.

(** X20: [configToRules] returns the nil slice when the configuration has
    no rules, and otherwise one entry per rule, in order, whose ID and name
    are both the rule's description: two rules with one description get one
    ID. *)
Theorem X20_configToRules_ids_are_descriptions :
  forall (descriptions : list string),
    (descriptions = [] -> configToRules descriptions = None) /\
    (descriptions <> [] ->
     exists rules,
       configToRules descriptions = Some rules /\
       map Rules_ID rules = descriptions /\
       map Rules_Name rules = descriptions).
Proof.
  intros descriptions. unfold configToRules. rewrite fold_append1_nil.
  split; [now intros ->|]. intros Hne.
  destruct descriptions as [|d rest]; [contradiction|].
  eexists. split; [reflexivity|].
  rewrite !map_map. cbn [Rules_ID Rules_Name]. now rewrite map_id.
Qed.

(** ** The options a scan of one commit looks at *)

Lemma bind_ext {A B} (m m' : M A) (k k' : A -> M B) (w : World) :
  m w = m' w -> (forall a w0, k a w0 = k' a w0) -> bind m k w = bind m' k' w.
Proof.
  intros Hm Hk. unfold bind. rewrite Hm.
  destruct (m' w) as [[a|p|code|p] w1]; trivial.
Qed.

Lemma ForEach_ext {A} (iter : list (result A)) (cb cb' : A -> M (option error)) :
  (forall a w, cb a w = cb' a w) ->
  forall w, ForEach iter cb w = ForEach iter cb' w.
Proof.
  intros Hcb. induction iter as [|[a|e] rest IH]; intros w; cbn [ForEach]; trivial.
  apply bind_ext; [apply Hcb|].
  intros [[| | |msg]|] w0; trivial.
Qed.

Section OtherOptions.

Variable repo : Repo.
Variable opts : Options.
Hypothesis same_Deletion : Opts_Deletion opts = Opts_Deletion (Manager_Opts repo).

Lemma scanChunks_withOptions (f : FilePatch) (chunks : list Chunk) :
  forall bundle w,
    scanChunks (withOptions repo opts) f chunks bundle w =
    scanChunks repo f chunks bundle w.
Proof.
  induction chunks as [|chunk rest IH]; intros bundle w; cbn [scanChunks]; trivial.
  cbn [withOptions Manager_Opts]. rewrite same_Deletion.
  destruct (_ || _); [|apply IH].
  apply bind_ext; [reflexivity | intros _ w0; apply IH].
Qed.

Lemma scanPatch_withOptions (patch : option Patch) (c : Commit) (w : World) :
  scanPatch (withOptions repo opts) patch c w = scanPatch repo patch c w.
Proof.
  destruct patch as [p|]; [|reflexivity]. unfold scanPatch.
  generalize (mkBundle c (Patch_String p) "" "" Equal patchScan). revert w.
  induction (Patch_FilePatches p) as [|f rest IH]; intros w bundle;
    cbn [scanFilePatches]; trivial.
  apply bind_ext; [reflexivity|].
  intros [|] w0; trivial.
  destruct (FilePatch_IsBinary f); [apply IH|].
  apply bind_ext; [apply scanChunks_withOptions | intros b w1; apply IH].
Qed.

Lemma scanCommitPatches_withOptions (c : Commit) (w : World) :
  scanCommitPatches (withOptions repo opts) c w = scanCommitPatches repo c w.
Proof.
  assert (forall w0,
             ForEach (Commit_Parents (withOptions repo opts) c)
                     (fun parent => scanParent (withOptions repo opts) c (Some parent)) w0
             = ForEach (Commit_Parents repo c)
                       (fun parent => scanParent repo c (Some parent)) w0) as Hparents.
  { intros w0. change (Commit_Parents (withOptions repo opts) c) with (Commit_Parents repo c).
    apply ForEach_ext. intros parent w1. unfold scanParent, recovering.
    match goal with
    | |- (let (o, w') := ?m w1 in _) = (let (o0, w'0) := ?m' w1 in _) =>
        assert (m w1 = m' w1) as ->; [|reflexivity]
    end.
    apply bind_ext; [reflexivity|].
    intros [|] w2; trivial.
    apply bind_ext; [reflexivity|].
    intros r w3. destruct (snd r); trivial.
    apply bind_ext; [apply scanPatch_withOptions | trivial]. }
  unfold scanCommitPatches. destruct (_ =? _)%nat; [|apply Hparents].
  apply bind_ext; [reflexivity|].
  intros [e|] w0; [reflexivity | apply Hparents].
Qed.

End OtherOptions.

(** X21: with [Opts.Commit] set, the code of [Scan] and of what it calls
    in this package looks at no option but [Opts.Commit], [Opts.Deletion]
    and [Opts.RepoConfig]: with the repository answering alike, changing
    [FilesAtCommit], [Commits], [CommitsFile], [CommitTo], [Depth] or
    [Threads] changes neither what is handed to the matcher nor the result
    nor anything else of the state. *)
Theorem X21_single_commit_mode_ignores_other_options :
  forall (repo : Repo) (opts : Options) (w : World),
    nonempty (Opts_Commit (Manager_Opts repo)) = true ->
    Opts_Commit opts = Opts_Commit (Manager_Opts repo) ->
    Opts_Deletion opts = Opts_Deletion (Manager_Opts repo) ->
    Opts_RepoConfig opts = Opts_RepoConfig (Manager_Opts repo) ->
    Scan (withOptions repo opts) w = Scan repo w.
Proof.
  intros repo opts w Hset Hcommit Hdeletion Hconfig.
  unfold Scan. cbn [withOptions Manager_Opts setupTimeout Repository_isNil Repo_Name
                    loadRepoConfig].
  rewrite Hcommit, Hconfig, Hset.
  destruct (setupTimeout repo); [reflexivity|].
  destruct (Repository_isNil repo); [reflexivity|].
  assert (forall w0,
             scanCommit (withOptions repo opts) (Opts_Commit (Manager_Opts repo))
                        (scanCommitPatches (withOptions repo opts)) w0
             = scanCommit repo (Opts_Commit (Manager_Opts repo))
                          (scanCommitPatches repo) w0) as Hscan.
  { intros w0. unfold scanCommit. cbn [withOptions Head CommitObject].
    assert (forall s w1,
               (IncrementCommits 1 ;;;
                match CommitObject repo (NewHash s) with
                | Ok c => scanCommitPatches (withOptions repo opts) c
                | Err e => ret (Some e)
                end) w1
               = (IncrementCommits 1 ;;;
                  match CommitObject repo (NewHash s) with
                  | Ok c => scanCommitPatches repo c
                  | Err e => ret (Some e)
                  end) w1) as Hresolved.
    { intros s w1. apply bind_ext; [reflexivity|]. intros _ w2.
      destruct (CommitObject repo (NewHash s)); [|reflexivity].
      now apply scanCommitPatches_withOptions. }
    destruct (String.eqb _ "latest"); [|apply Hresolved].
    destruct (Head repo); [apply Hresolved | reflexivity]. }
  destruct (Opts_RepoConfig (Manager_Opts repo)); [|apply Hscan].
  destruct (loadRepoConfig repo); [|reflexivity].
  apply bind_ext; [reflexivity | intros _ w0; apply Hscan].
Qed.

(** ** The errors and the workers of [Scan] *)

(** X22: when [Scan] walks the history, the only errors it ever returns
    are those met before the walk: the failure to set the deadline up, the
    empty repository handle, the failure to load the repository's
    configuration, to build the log options or to open the log.  No error met
    during the walk is returned. *)
Theorem X22_history_scan_returns_only_setup_errors :
  forall (repo : Repo) (w : World) (e : error) (w' : World),
    historyMode (Manager_Opts repo) = true ->
    Scan repo w = (Returned (Some e), w') ->
    setupTimeout repo = Some e \/
    (Repository_isNil repo = true /\ e = Errorf (Repo_Name repo ++ " repo is empty")) \/
    loadRepoConfig repo = Err e \/
    getLogOptions repo = Some e \/
    Log repo = Err e.
Proof.
  intros repo w e w' Hmode H.
  unfold historyMode in Hmode.
  repeat (apply andb_true_iff in Hmode; destruct Hmode as [Hmode ?]).
  repeat match goal with
         | Hn : negb _ = true |- _ => apply negb_true_iff in Hn
         end.
  unfold Scan in H.
  destruct (setupTimeout repo) as [e0|]; [inversion H; auto|].
  destruct (Repository_isNil repo); [inversion H; auto|].
  match goal with
  | H1 : _ = false, H2 : _ = false, H3 : _ = false, H4 : _ = false |- _ =>
      rewrite H1, H2, H3, H4 in H
  end.
  cbv iota in H.
  assert (forall w0,
             match getLogOptions repo with
             | Some e0 => ret (Some e0)
             | None =>
                 match Log repo with
                 | Ok cIter => scanHistory repo cIter
                 | Err e0 => ret (Some e0)
                 end
             end w0 = (Returned (Some e), w') ->
             getLogOptions repo = Some e \/ Log repo = Err e) as Hwalk.
  { intros w0 Hrun.
    destruct (getLogOptions repo); [inversion Hrun; auto|].
    destruct (Log repo); [|inversion Hrun; auto].
    apply scanHistory_returns_nil in Hrun. discriminate. }
  destruct (Opts_RepoConfig (Manager_Opts repo)).
  - destruct (loadRepoConfig repo); [|inversion H; auto].
    unfold bind in H at 1. cbn beta iota in H.
    apply Hwalk in H. tauto.
  - apply Hwalk in H. tauto.
Qed.

Section NoWorkers.

Variable repo : Repo.
Context {X : Type} (proj : World -> X).
Hypothesis proj_dispatched : forall w l, proj (set_dispatched w l) = proj w.
Hypothesis proj_polls : forall w n, proj (set_polls w n) = proj w.
Hypothesis proj_commits : forall w n, proj (set_commits w n) = proj w.

Lemma keeps_scanCommit (commit : string) (f : Commit -> M (option error)) :
  (forall c, keeps proj (f c)) -> keeps proj (scanCommit repo commit f).
Proof.
  intros Hf.
  assert (forall s,
             keeps proj
               (IncrementCommits 1 ;;;
                match CommitObject repo (NewHash s) with
                | Err e => ret (Some e)
                | Ok c => f c
                end)) as Hresolved.
  { intros s. apply keeps_bind.
    - intros w r w' H. inversion H; subst. apply proj_commits.
    - intros _. destruct (CommitObject repo (NewHash s)); [apply Hf | apply keeps_ret]. }
  unfold scanCommit. destruct (String.eqb commit "latest"); [|apply Hresolved].
  destruct (Head repo); [apply Hresolved | apply keeps_ret].
Qed.

Lemma keeps_scanCommits (cs : list string) : keeps proj (scanCommits repo cs).
Proof.
  induction cs as [|c rest IH]; cbn [scanCommits].
  - apply keeps_ret.
  - apply keeps_bind.
    + apply keeps_scanCommit. intros c0. now apply keeps_scanCommitPatches.
    + intros [e|]; [apply keeps_ret | exact IH].
Qed.

End NoWorkers.

(** X23: the modes of [Scan] that name their commits start no worker and
    take no slot: the commits are scanned on the caller's goroutine. *)
Theorem X23_named_commit_modes_start_no_worker :
  forall (repo : Repo) (w : World) (r : outcome (option error)) (w' : World),
    historyMode (Manager_Opts repo) = false ->
    Scan repo w = (r, w') ->
    launched w' = launched w /\ slots w' = slots w /\ waiting w' = waiting w.
Proof.
  intros repo w r w' Hmode H.
  assert (forall X (proj : World -> X),
             (forall w l, proj (set_dispatched w l) = proj w) ->
             (forall w n, proj (set_polls w n) = proj w) ->
             (forall w n, proj (set_commits w n) = proj w) ->
             (forall w cfg, proj (set_config w cfg) = proj w) ->
             proj w' = proj w) as Hkeeps.
  { intros X proj Hd Hp Hc Hcfg. revert H. unfold Scan.
    destruct (setupTimeout repo); [apply keeps_ret|].
    destruct (Repository_isNil repo); [apply keeps_ret|].
    assert (forall k : M (option error),
               keeps proj k ->
               keeps proj
                 (if Opts_RepoConfig (Manager_Opts repo) then
                    match loadRepoConfig repo with
                    | Err e => ret (Some e)
                    | Ok cfg => (fun w => (Returned tt, set_config w cfg)) ;;; k
                    end
                  else k)) as Hconfigured.
    { intros k Hk. destruct (Opts_RepoConfig (Manager_Opts repo)); [|exact Hk].
      destruct (loadRepoConfig repo); [|apply keeps_ret].
      apply keeps_bind; [|intros _; exact Hk].
      intros w0 r0 w0' H0. inversion H0; subst. apply Hcfg. }
    apply Hconfigured. unfold historyMode in Hmode.
    destruct (nonempty (Opts_Commit _)).
    { apply keeps_scanCommit; trivial. intros c. now apply keeps_scanCommitPatches. }
    destruct (nonempty (Opts_FilesAtCommit _)).
    { apply keeps_scanCommit; trivial. intros c. now apply keeps_scanFilesAtCommit. }
    destruct (nonempty (Opts_Commits _)); [now apply keeps_scanCommits|].
    destruct (nonempty (Opts_CommitsFile _)); [|discriminate].
    destruct (CommitsFile_Open repo); [now apply keeps_scanCommits | apply keeps_ret]. }
  repeat split; apply Hkeeps; reflexivity.
Qed.

(** X24: during the history walk a worker is started only for commits of
    the log that have a parent: root commits are scanned on the walk's own
    goroutine. *)
Theorem X24_workers_only_for_commits_with_parents :
  forall (repo : Repo) (cIter : list (result (option Commit))) (w : World)
         (r : outcome (option error)) (w' : World),
    scanHistory repo cIter w = (r, w') ->
    exists new,
      launched w' = (launched w ++ new)%list /\
      Forall (fun c => Commit_ParentHashes c <> [] /\ In (Ok (Some c)) cIter) new.
Proof.
  intros repo cIter w r w' H.
  assert (forall c cc w0 r0 w0',
             walkCommit repo c cc w0 = (r0, w0') ->
             launched w0' = launched w0 \/
             exists c0, c = Some c0 /\ Commit_ParentHashes c0 <> [] /\
                        launched w0' = (launched w0 ++ [c0])%list) as Hstep.
  { intros c cc w0 r0 w0' H0.
    destruct c as [c|]; simpl in H0; [|inversion H0; now left].
    unfold bind at 1, timeoutReached in H0.
    destruct (_ || _); [inversion H0; now left|].
    unfold walkEnter in H0. cbn [config set_polls] in H0.
    destruct (isCommitAllowListed _ _); [inversion H0; now left|].
    destruct (_ =? _)%nat eqn:Hlen.
    - left.
      exact (keeps_bind launched _ _
               (keeps_scanFilesAtCommit repo launched
                  (fun _ _ => eq_refl) (fun _ _ => eq_refl) c)
               (fun err => keeps_ret launched (cc + 1, err)) _ _ _ H0).
    - assert (Commit_ParentHashes c <> []) as Hparents
        by (intros Hnil; rewrite Hnil in Hlen; discriminate).
      destruct (Commit_Parent repo c 0) as [parent|e]; [|inversion H0; now left].
      unfold bind at 1, walkPatch, recovering, bind at 1, timeoutReached in H0.
      destruct (timeoutAt repo _); [inversion H0; now left|].
      destruct parent as [parent|]; [|inversion H0; now left].
      unfold bind at 1, Patch_of in H0.
      destruct (Commit_Patch repo parent c) as [patch|p|code|p];
        try (inversion H0; now left).
      unfold bind at 1 2 in H0. cbn beta iota in H0. unfold bind, go_ in H0.
      match type of H0 with
      | context [worker repo c (fst patch) ?W] =>
          destruct (worker repo c (fst patch) W) as [o w1] eqn:Hworker;
          apply (keeps_worker repo launched
                   (fun _ _ => eq_refl) (fun _ _ => eq_refl)
                   (fun _ _ => eq_refl) (fun _ _ => eq_refl)) in Hworker;
          cbn [launched set_launched semaphore_send wg_Add set_slots set_waiting
                        set_polls] in Hworker
      end.
      right. exists c. split; [reflexivity|]. split; [exact Hparents|].
      destruct o as [[]|p|code|p];
        try (destruct (String.eqb _ _)); inversion H0; subst; exact Hworker. }
  assert (forall items cc w0 r0 w0',
             ForEachCapturing items (walkCommit repo) cc w0 = (r0, w0') ->
             exists new,
               launched w0' = (launched w0 ++ new)%list /\
               Forall (fun c => Commit_ParentHashes c <> [] /\ In (Ok (Some c)) items) new)
    as Hwalk.
  { induction items as [|[c|e] rest IH]; intros cc w0 r0 w0' H0;
      cbn [ForEachCapturing] in H0;
      try (inversion H0; subst; exists []; split; [now rewrite app_nil_r | constructor]).
    unfold bind in H0.
    destruct (walkCommit repo c cc w0) as [o w1] eqn:Hc.
    apply Hstep in Hc.
    assert (exists here,
               launched w1 = (launched w0 ++ here)%list /\
               Forall (fun c0 => Commit_ParentHashes c0 <> [] /\
                                 In (Ok (Some c0)) (Ok c :: rest)) here) as (here & Hl & Hf).
    { destruct Hc as [Hc | (c0 & -> & Hp & Hc)].
      - exists []. split; [now rewrite app_nil_r | constructor].
      - exists [c0]. split; [exact Hc|]. repeat constructor; trivial. }
    assert (forall o', (o', w1) = (r0, w0') ->
                       exists new,
                         launched w0' = (launched w0 ++ new)%list /\
                         Forall (fun c0 => Commit_ParentHashes c0 <> [] /\
                                           In (Ok (Some c0)) (Ok c :: rest)) new) as Hstop
      by (intros o' Ho; inversion Ho; subst; now exists here).
    destruct o as [[cc1 [[| | |msg]|]]|p|code|p]; cbn [fst snd] in H0;
      try (now apply Hstop in H0).
    apply IH in H0. destruct H0 as (new & Hl2 & Hf2).
    exists (here ++ new)%list. split; [now rewrite Hl2, Hl, app_assoc|].
    apply Forall_app. split; [exact Hf|].
    eapply Forall_impl; [|exact Hf2]. intros c0 [Hp Hin]. split; [exact Hp | now right]. }
  unfold scanHistory, bind in H.
  destruct (ForEachCapturing cIter (walkCommit repo) 0 w) as [o w1] eqn:Hrun.
  apply Hwalk in Hrun.
  destruct o as [r0|p|code|p]; inversion H; subst; exact Hrun.
Qed.

(** ** The further properties at the sample repositories *)

Lemma X1_witness :
  expired (expiredRepo (historyOpts "" 0)) (startWorld []) /\
  dispatched (snd (Scan (expiredRepo (historyOpts "" 0)) (startWorld []))) =
  dispatched (startWorld []).
Proof.
  split; [intros n _; reflexivity|].
  apply (X1_expired_deadline_scans_nothing
           (expiredRepo (historyOpts "" 0)) (startWorld [])
           (fst (Scan (expiredRepo (historyOpts "" 0)) (startWorld [])))).
  - intros n _. reflexivity.
  - apply surjective_pairing.
Defined.

Lemma X2_witness :
  polls (snd (scanUncommitted stagedRepo (startWorld []))) = polls (startWorld []) /\
  commits (snd (scanUncommitted stagedRepo (startWorld []))) = commits (startWorld []).
Proof.
  destruct (X2_staged_scan_ignores_deadline_and_counter
              stagedRepo (startWorld [])
              (fst (scanUncommitted stagedRepo (startWorld [])))
              (snd (scanUncommitted stagedRepo (startWorld [])))
              (surjective_pairing _)) as (Hpolls & Hcommits & _).
  now split.
Defined.

Lemma X3_witness :
  Opts_Depth (Manager_Opts (historyRepo "" 2)) = 2 /\
  exists w',
    scanHistory (historyRepo "" 2) sampleLog (startWorld []) = (Returned None, w') /\
    commits (startWorld []) <= commits w' <= commits (startWorld []) + 2.
Proof.
  split; [reflexivity|].
  exists (snd (scanHistory (historyRepo "" 2) sampleLog (startWorld []))).
  assert (Hrun : scanHistory (historyRepo "" 2) sampleLog (startWorld []) =
                 (Returned None,
                  snd (scanHistory (historyRepo "" 2) sampleLog (startWorld []))))
    by (vm_compute; reflexivity).
  split; [exact Hrun|].
  apply (X3_depth_bounds_commit_counter
           (historyRepo "" 2) sampleLog 2 (startWorld []) None _ eq_refl).
  - lia.
  - exact Hrun.
Defined.

Lemma X4_witness :
  commits (snd (scanCommit singleCommitRepo "latest"
                           (scanCommitPatches singleCommitRepo) (startWorld []))) =
  commits (startWorld []) + resolvedCount singleCommitRepo "latest".
Proof.
  apply (X4_scanCommit_counts_resolved_reference
           singleCommitRepo "latest" (startWorld [])
           (fst (scanCommit singleCommitRepo "latest"
                            (scanCommitPatches singleCommitRepo) (startWorld [])))).
  left. apply surjective_pairing.
Defined.

Lemma X5_witness :
  nonempty (Opts_Commits (Manager_Opts commitListRepo)) = true /\
  fst (Scan commitListRepo (startWorld [])) = Returned None /\
  commits (snd (Scan commitListRepo (startWorld []))) = commits (startWorld []) + 3.
Proof.
  split; [reflexivity|]. split; [reflexivity|].
  destruct (X5_commit_list_counts_tokens
              commitListRepo (startWorld [])
              (fst (Scan commitListRepo (startWorld [])))
              (snd (Scan commitListRepo (startWorld [])))
              eq_refl eq_refl eq_refl (surjective_pairing _)) as [_ Hexact].
  exact (Hexact eq_refl).
Defined.


Lemma X7_witness :
  Commit_ParentHashes commitC <> [] /\
  fst (scanCommitPatches panickingRepo commitC (startWorld [])) <> Panicked DiffPanic.
Proof.
  split; [discriminate|].
  apply (X7_scanCommitPatches_stops_panics
           panickingRepo commitC (startWorld [])
           (fst (scanCommitPatches panickingRepo commitC (startWorld [])))
           (snd (scanCommitPatches panickingRepo commitC (startWorld [])))).
  - discriminate.
  - apply surjective_pairing.
Defined.

Lemma X8_witness :
  Commit_Patch panickingRepo commitB commitC = Panicked DiffPanic /\
  walkCommit panickingRepo (Some commitC) 0 (startWorld []) =
    (Returned (0 + 1, None), set_polls (startWorld []) 2).
Proof.
  split; [reflexivity|].
  apply (X8_walk_survives_patch_panic
           panickingRepo commitC commitB 0 (startWorld []) DiffPanic);
    reflexivity.
Defined.

Lemma X9_witness :
  Opts_Depth (Manager_Opts (historyRepo "" 0)) <= 0 /\
  exists w1,
    ForEachCapturing sampleLog (walkCommit (historyRepo "" 0)) 0
                     (startWorld [Hash_String hashB]) =
      (Returned (countEntering (config (startWorld [Hash_String hashB])) sampleLog, None),
       w1) /\
    scanHistory (historyRepo "" 0) sampleLog (startWorld [Hash_String hashB]) =
      (Returned None,
       set_commits w1
         (commits (startWorld [Hash_String hashB])
          + countEntering (config (startWorld [Hash_String hashB])) sampleLog)).
Proof.
  split; [discriminate|].
  apply (X9_unset_depth_counts_every_entered_commit
           (historyRepo "" 0) sampleLog (startWorld [Hash_String hashB])).
  - discriminate.
  - reflexivity.
  - intros item [<-|[<-|[<-|[]]]]; eexists; reflexivity.
  - intros c cc w1 [Hc|[Hc|[Hc|[]]]]; inversion Hc; subst c;
      unfold walkEnter; cbn;
      destruct (isCommitAllowListed _ _); do 2 eexists; reflexivity.
Defined.

Lemma X10_witness :
  exists done rest,
    dispatched (snd (scanPatch (historyRepo "" 0) (Some mixedPatch) commitB
                               (startWorld []))) =
      (dispatched (startWorld []) ++ done)%list /\
    patchBundles (historyRepo "" 0) commitB mixedPatch = (done ++ rest)%list.
Proof.
  apply (X10_scanPatch_hands_over_initial_part
           (historyRepo "" 0) mixedPatch commitB (startWorld [])
           (fst (scanPatch (historyRepo "" 0) (Some mixedPatch) commitB (startWorld [])))).
  apply surjective_pairing.
Defined.

Lemma X11_witness :
  map Bundle_Content (patchBundles deletionRepo commitB mixedPatch) =
    ["SECRET"; "old"; "token"; "lost"] /\
  map Bundle_FilePath (patchBundles deletionRepo commitB mixedPatch) =
    ["x.py"; "x.py"; "new.txt"; "???"] /\
  scanPatch deletionRepo (Some mixedPatch) commitB (startWorld []) =
    (Returned tt,
     set_polls
       (set_dispatched (startWorld [])
          (dispatched (startWorld []) ++ patchBundles deletionRepo commitB mixedPatch))
       (polls (startWorld []) + List.length (Patch_FilePatches mixedPatch))).
Proof.
  split; [reflexivity|]. split; [reflexivity|].
  apply (X11_scanPatch_hands_over_every_eligible_chunk
           deletionRepo mixedPatch commitB (startWorld [])); reflexivity.
Defined.

Lemma X12_witness :
  Commit_Files mixedFilesRepo commitA = Ok mixedFiles /\
  exists new,
    added (startWorld [])
          (snd (scanFilesAtCommit mixedFilesRepo commitA (startWorld []))) new /\
    Forall (scannedFile commitA mixedFiles) new.
Proof.
  split; [reflexivity|].
  apply (X12_scanFilesAtCommit_hands_over_readable_text_files
           mixedFilesRepo commitA mixedFiles (startWorld [])
           (fst (scanFilesAtCommit mixedFilesRepo commitA (startWorld [])))).
  - reflexivity.
  - apply surjective_pairing.
Defined.

Lemma X13_witness :
  exists new,
    added (startWorld []) (snd (Scan (historyRepo "" 0) (startWorld []))) new /\
    Forall (scanShape (historyRepo "" 0)) new.
Proof.
  apply (X13_scan_hands_over_additions_and_asked_deletions
           (historyRepo "" 0) (startWorld [])
           (fst (Scan (historyRepo "" 0) (startWorld [])))).
  apply surjective_pairing.
Defined.

Lemma X14_witness :
  forallb plainEntry sampleEntries = true /\
  getStagedChanges (sampleWorktree (nameStatusOutput sampleEntries)) (startWorld []) =
    (Returned (["foo.txt"; "new.txt"; "foo.txt"], None), startWorld []).
Proof.
  split; [reflexivity|].
  apply (X14_getStagedChanges_returns_the_paths
           (sampleWorktree (nameStatusOutput sampleEntries)) sampleEntries
           (startWorld [])); reflexivity.
Defined.

Lemma X15_witness :
  exists new,
    added (startWorld []) (snd (scanUncommitted stagedRepo (startWorld []))) new /\
    Forall stagedShape new.
Proof.
  apply (X15_staged_bundles_keep_zero_operation
           stagedRepo (startWorld [])
           (fst (scanUncommitted stagedRepo (startWorld [])))).
  apply surjective_pairing.
Defined.

Lemma X16_witness :
  Head singleCommitRepo = Ok hashC /\
  scanCommit singleCommitRepo "latest" (scanFilesAtCommit singleCommitRepo)
             (startWorld []) =
    (IncrementCommits 1 ;;;
     match CommitObject singleCommitRepo hashC with
     | Err e => ret (Some e)
     | Ok c => scanFilesAtCommit singleCommitRepo c
     end) (startWorld []).
Proof.
  split; [reflexivity|].
  apply (X16_latest_is_the_commit_of_HEAD
           singleCommitRepo hashC (scanFilesAtCommit singleCommitRepo) (startWorld []));
    reflexivity.
Defined.

Lemma X18_witness :
  forallb wellFormedEntry sampleStatusEntries = true /\
  gitStatus sampleStatusSource =
    Returned ([("my notes.txt", mkFileStatus "?" zero "");
               ("bar.txt", mkFileStatus "M" zero "");
               ("foo.txt", mkFileStatus "M" zero "")], None).
Proof.
  split; [reflexivity|].
  apply (X18_gitStatus_records_each_entry sampleStatusSource sampleStatusEntries);
    reflexivity.
Defined.

Lemma X19_witness :
  exists results,
    leaksToResults [sampleLeak 3; sampleLeak 7] = Some results /\
    List.length results = 2%nat /\
    forall i leak,
      nth_error [sampleLeak 3; sampleLeak 7] i = Some leak ->
      exists result, nth_error results i = Some result /\ reports leak result.
Proof.
  apply (proj2 (X19_leaksToResults_one_result_per_leak_in_order
                  [sampleLeak 3; sampleLeak 7])).
  discriminate.
Defined.

Lemma X20_witness :
  exists rules,
    configToRules ["AWS Access Key"; "Generic Credential"; "AWS Access Key"] =
      Some rules /\
    map Rules_ID rules = ["AWS Access Key"; "Generic Credential"; "AWS Access Key"] /\
    map Rules_Name rules = ["AWS Access Key"; "Generic Credential"; "AWS Access Key"].
Proof.
  apply (proj2 (X20_configToRules_ids_are_descriptions
                  ["AWS Access Key"; "Generic Credential"; "AWS Access Key"])).
  discriminate.
Defined.

Lemma X21_witness :
  nonempty (Opts_Commit (Manager_Opts commitBRepo)) = true /\
  Scan (withOptions commitBRepo crowdedOpts) (startWorld []) =
  Scan commitBRepo (startWorld []).
Proof.
  split; [reflexivity|].
  apply (X21_single_commit_mode_ignores_other_options
           commitBRepo crowdedOpts (startWorld [])); reflexivity.
Defined.

Lemma X22_witness :
  historyMode (Manager_Opts noLogRepo) = true /\
  Scan noLogRepo (startWorld []) =
    (Returned (Some (Errorf "reference not found")), startWorld []) /\
  (setupTimeout noLogRepo = Some (Errorf "reference not found") \/
   (Repository_isNil noLogRepo = true /\
    Errorf "reference not found" = Errorf (Repo_Name noLogRepo ++ " repo is empty")) \/
   loadRepoConfig noLogRepo = Err (Errorf "reference not found") \/
   getLogOptions noLogRepo = Some (Errorf "reference not found") \/
   Log noLogRepo = Err (Errorf "reference not found")).
Proof.
  split; [reflexivity|]. split; [reflexivity|].
  apply (X22_history_scan_returns_only_setup_errors
           noLogRepo (startWorld []) (Errorf "reference not found") (startWorld []));
    reflexivity.
Defined.

Lemma X23_witness :
  historyMode (Manager_Opts commitBRepo) = false /\
  launched (snd (Scan commitBRepo (startWorld []))) = launched (startWorld []).
Proof.
  split; [reflexivity|].
  destruct (X23_named_commit_modes_start_no_worker
              commitBRepo (startWorld [])
              (fst (Scan commitBRepo (startWorld [])))
              (snd (Scan commitBRepo (startWorld [])))
              eq_refl (surjective_pairing _)) as [Hlaunched _].
  exact Hlaunched.
Defined.

Lemma X24_witness :
  exists new,
    launched (snd (scanHistory (historyRepo "" 0) sampleLog (startWorld []))) =
      (launched (startWorld []) ++ new)%list /\
    Forall (fun c => Commit_ParentHashes c <> [] /\ In (Ok (Some c)) sampleLog) new.
Proof.
  apply (X24_workers_only_for_commits_with_parents
           (historyRepo "" 0) sampleLog (startWorld [])
           (fst (scanHistory (historyRepo "" 0) sampleLog (startWorld [])))).
  apply surjective_pairing.
Defined.
